(** * Encrypted multi-backend storage layer: a shallow embedding

    The development follows the three TypeScript classes of the storage
    layer and the cipher service they share:

    - [EncryptionService]  (services/encryption.ts)
    - [LocalStorage], [SupabaseStorage], [GoogleDriveStorage]
      (services/storage/...)
    - [StorageManager]     (services/storage/storageManager.ts)

    JavaScript code that throws is embedded in a state-and-exception
    monad: a computation maps a state to a result (a value or a thrown
    error) and the state it leaves behind.  As in JavaScript, writes made
    before a throw stay in the state. *)

From stdpp Require Import gmap strings list fin_maps pretty.
From stdpp Require Import sorting.

(* ------------------------------------------------------------------ *)
(** ** Thrown values and computations *)

(** A thrown JavaScript value.  The code throws [Error] objects, which
    carry a [name] and a [message]; the Supabase client hands the code a
    plain object with a [message], which the code throws on as it is. *)
Inductive JsError :=
| mkJsError (name message : string)
| PlainObject (message : string).

(** [e.name]: a plain object has none. *)
Definition err_name (e : JsError) : option string :=
  match e with
  | mkJsError name _ => Some name
  | PlainObject _ => None
  end.

(** [e.message] *)
Definition err_message (e : JsError) : string :=
  match e with
  | mkJsError _ message => message
  | PlainObject message => message
  end.

(** [e instanceof Error] *)
Definition instanceof_Error (e : JsError) : bool :=
  match e with
  | mkJsError _ _ => true
  | PlainObject _ => false
  end.

(** [`${error}`] in a template string: an [Error] object renders as its
    name and message, a plain object as [[object Object]]. *)
Definition toString (e : JsError) : string :=
  match e with
  | mkJsError name message => name +:+ ": " +:+ message
  | PlainObject _ => "[object Object]"
  end.

(** [new Error(msg)] *)
Definition new_Error (msg : string) : JsError := mkJsError "Error" msg.

Inductive Result (A : Type) : Type :=
| Ok (a : A)
| Throw (e : JsError).
Arguments Ok {A} a.
Arguments Throw {A} e.

Definition M (S A : Type) : Type := S → Result A * S.

Definition ret {S A} (a : A) : M S A := λ s, (Ok a, s).
Definition throw {S A} (e : JsError) : M S A := λ s, (Throw e, s).
Definition bind {S A B} (m : M S A) (k : A → M S B) : M S B :=
  λ s, match m s with
       | (Ok a, s') => k a s'
       | (Throw e, s') => (Throw e, s')
       end.
(** [try { m } catch (e) { h e }] *)
Definition try_catch {S A} (m : M S A) (h : JsError → M S A) : M S A :=
  λ s, match m s with
       | (Ok a, s') => (Ok a, s')
       | (Throw e, s') => h e s'
       end.
Definition gets {S A} (f : S → A) : M S A := λ s, (Ok (f s), s).
Definition modify {S} (f : S → S) : M S unit := λ s, (Ok tt, f s).
Definition of_result {S A} (r : Result A) : M S A := λ s, (r, s).

Notation "'let!' x ':=' m 'in' k" := (bind m (λ x, k))
  (at level 10, x name, m at level 100, k at level 200).
Notation "m ';;' k" := (bind m (λ _, k))
  (at level 100, k at level 200, right associativity).

(** [for (const x of xs) { body x }] *)
Fixpoint for_each {S A} (xs : list A) (body : A → M S unit) : M S unit :=
  match xs with
  | [] => ret tt
  | x :: rest => body x ;; for_each rest body
  end.

(** [xs.map(f)] where [f] may throw. *)
Fixpoint map_result {A B} (f : A → Result B) (xs : list A) : Result (list B) :=
  match xs with
  | [] => Ok []
  | x :: rest =>
      match f x with
      | Throw e => Throw e
      | Ok y => match map_result f rest with
                | Throw e => Throw e
                | Ok ys => Ok (y :: ys)
                end
      end
  end.

(* ------------------------------------------------------------------ *)
(** ** The JavaScript runtime and the CryptoJS library

    [JSON.stringify], [JSON.parse] and [CryptoJS.AES] are not code of the
    repository.  They are an interface here, and their contract is a
    separate class of laws. *)

Class Runtime := {
  (** values of type [any] handed to the layer *)
  Value : Type;
  (** [v === null] *)
  is_null : Value → bool;
  (** [JSON.stringify(v)] as the message the cipher is handed: [None]
      when the call throws (a cyclic structure, a BigInt).  For
      [undefined], a function or a symbol the call returns [undefined]
      without throwing and CryptoJS encrypts the empty message: such a
      value has the text [""]. *)
  JSON_stringify : Value → option string;
  (** [JSON.parse(s)]; [None] when it throws a SyntaxError *)
  JSON_parse : string → option Value;
  (** [CryptoJS.AES.encrypt(message, passphrase).toString()] under the
      random salt drawn for this call *)
  AES_encrypt : nat → string → string → string;
  (** [CryptoJS.AES.decrypt(ciphertext, passphrase).toString(CryptoJS.enc.Utf8)];
      [None] when the bytes are not UTF-8 and [toString] throws *)
  AES_decrypt : string → string → option string;
}.

Class RuntimeLaws (R : Runtime) : Prop := {
  (** the empty text is not JSON *)
  JSON_parse_empty : JSON_parse "" = None;
  (** decryption with the passphrase inverts encryption, whatever the salt *)
  AES_decrypt_encrypt : ∀ salt msg pass,
    AES_decrypt (AES_encrypt salt msg pass) pass = Some msg;
}.

(** A value is serializable when JSON turns it into text and back. *)
Definition serializable `{Runtime} (v : Value) : Prop :=
  ∃ s, JSON_stringify v = Some s ∧ JSON_parse s = Some v.

(* ------------------------------------------------------------------ *)
(** ** A small concrete runtime

    Used to run the definitions on concrete inputs: the JSON values are
    [null], the booleans and quote-free strings; the cipher keeps the
    shape of the real one only in that the passphrase is needed to read
    the message back. *)

Module Toy.

Inductive value := JNull | JBool (b : bool) | JStr (s : string).

Definition dquote : Ascii.ascii := Ascii.ascii_of_nat 34.
Definition backslash : Ascii.ascii := Ascii.ascii_of_nat 92.

Fixpoint plain (s : string) : bool :=
  match s with
  | EmptyString => true
  | String c rest =>
      if decide (c = dquote) then false
      else if decide (c = backslash) then false else plain rest
  end.

Definition stringify (v : value) : option string :=
  match v with
  | JNull => Some "null"
  | JBool true => Some "true"
  | JBool false => Some "false"
  | JStr s => if plain s then Some (String dquote (s +:+ String dquote "")) else None
  end.

(** [unquote s] reads a quote-free body up to the closing quote. *)
Fixpoint unquote (s : string) : option string :=
  match s with
  | EmptyString => None
  | String c rest =>
      if decide (c = dquote)
      then (if decide (rest = "") then Some "" else None)
      else if decide (c = backslash) then None
      else String c <$> unquote rest
  end.

Definition parse (s : string) : option value :=
  if decide (s = "null") then Some JNull
  else if decide (s = "true") then Some (JBool true)
  else if decide (s = "false") then Some (JBool false)
  else match s with
       | String c rest =>
           if decide (c = dquote) then JStr <$> unquote rest else None
       | EmptyString => None
       end.

Fixpoint strip (p s : string) : option string :=
  match p, s with
  | EmptyString, _ => Some s
  | String a p', String b s' => if decide (a = b) then strip p' s' else None
  | String _ _, EmptyString => None
  end.

(** salt byte, then passphrase, then message *)
Definition encrypt (salt : nat) (msg pass : string) : string :=
  String (Ascii.ascii_of_nat salt) (pass +:+ msg).

(** a wrong passphrase yields the empty text, so that the caller's
    emptiness check reports it *)
Definition decrypt (c pass : string) : option string :=
  match c with
  | EmptyString => None
  | String _ body => Some (default "" (strip pass body))
  end.

Definition runtime : Runtime := {|
  Value := value;
  is_null := λ v, match v with JNull => true | _ => false end;
  JSON_stringify := stringify;
  JSON_parse := parse;
  AES_encrypt := encrypt;
  AES_decrypt := decrypt;
|}.

End Toy.

(* ------------------------------------------------------------------ *)
(** ** Stored data *)

(** The object [LocalStorage.storeEncryptedData] serializes under a record
    key.  Timestamps are milliseconds; the ISO text written by
    [toISOString] and read back by [new Date(..).getTime()] is not
    modelled apart from its length. *)
Record StorageItem := mkStorageItem {
  si_id : string;
  si_userId : string;
  si_dataType : string;
  si_encryptedContent : string;
  si_storageLocation : string;
  si_createdAt : nat;
  si_updatedAt : nat;
}.

(** An element of the index list kept under the index key. *)
Record IndexEntry := mkIndexEntry {
  ie_id : string;
  ie_dataType : string;
  ie_createdAt : nat;
}.

(** The browser's [localStorage], seen through the two key templates the
    class uses.  A record key [`${PREFIX}${userId}_${dataType}_${id}`] is
    represented by its components [(userId, dataType, id)], an index key
    [`${PREFIX}index_${userId}`] by [userId]; both families share one
    quota, counted in characters of keys and values.  The browser keeps
    one space of key texts: this representation is its store as long as
    no two entries have the same key text ([well_keyed] below), and the
    statements that depend on it say so. *)
Record LocalStore := mkLocalStore {
  ls_records : gmap (string * string * string) StorageItem;
  ls_indexes : gmap string (list IndexEntry);
  ls_quota : nat;
}.

(** A row of the [encrypted_data] table. *)
Record EncryptedRow := mkEncryptedRow {
  row_id : string;
  row_user_id : string;
  row_data_type : string;
  row_encrypted_content : string;
  row_storage_location : string;
  row_created_at : nat;
  row_updated_at : nat;
}.

(** An entry of the [encrypted_data] JSON column of a [profiles] row. *)
Record ProfileEntry := mkProfileEntry {
  pe_data_type : string;
  pe_encrypted_content : string;
  pe_created_at : nat;
}.

(** The hosted relational store as the class sees it through the client:
    the signed-in user, whether the schema lookup lists the table, whether
    the table-creating procedure succeeds, and the two tables.  A table
    that is [None] answers every request with an error object. *)
Record Supabase := mkSupabase {
  sb_user : option string;
  sb_table_listed : bool;
  sb_create_table_ok : bool;
  sb_encrypted_data : option (list EncryptedRow);
  sb_profiles : option (gmap string (gmap string ProfileEntry));
}.

(** A file (or folder) of the remote file store. *)
Record DriveFile := mkDriveFile {
  file_id : string;
  file_name : string;
  file_is_folder : bool;
  file_parents : list string;
  file_content : string;
}.

(** The file store as the class sees it: the cached access token, whether
    [fetch] reaches the service, and the files.  A service that is reached
    carries out the request; the class never looks at the status of a
    response. *)
Record Drive := mkDrive {
  accessToken : option string;
  gd_reachable : bool;
  gd_files : list DriveFile;
}.

(** Everything outside the storage manager: the clock, the sources of
    UUIDs and of cipher salts, and the three stores. *)
Record Sys := mkSys {
  sys_now : nat;
  sys_uuid : nat;
  sys_salt : nat;
  sys_local : LocalStore;
  sys_supabase : Supabase;
  sys_drive : Drive;
}.

Definition set_local (ls : LocalStore) (s : Sys) : Sys :=
  mkSys (sys_now s) (sys_uuid s) (sys_salt s) ls (sys_supabase s) (sys_drive s).
Definition set_supabase (sb : Supabase) (s : Sys) : Sys :=
  mkSys (sys_now s) (sys_uuid s) (sys_salt s) (sys_local s) sb (sys_drive s).
Definition set_drive (d : Drive) (s : Sys) : Sys :=
  mkSys (sys_now s) (sys_uuid s) (sys_salt s) (sys_local s) (sys_supabase s) d.

(** Run a computation on one store inside the whole system. *)
Definition zoom {S T A} (get : S → T) (set : T → S → S) (m : M T A) : M S A :=
  λ s, let '(r, t) := m (get s) in (r, set t s).
Definition in_local {A} : M LocalStore A → M Sys A := zoom sys_local set_local.
Definition in_supabase {A} : M Supabase A → M Sys A := zoom sys_supabase set_supabase.
Definition in_drive {A} : M Drive A → M Sys A := zoom sys_drive set_drive.

(** [Date.now()], [new Date()]: the clock is read and moves on. *)
Definition Date_now : M Sys nat :=
  λ s, (Ok (sys_now s),
        mkSys (S (sys_now s)) (sys_uuid s) (sys_salt s)
              (sys_local s) (sys_supabase s) (sys_drive s)).

(** The [n]-th identifier of the UUID source; distinct draws differ. *)
Definition uuid_of (n : nat) : string := pretty n.

(** [crypto.randomUUID()], also the identifiers the remote services
    generate. *)
Definition randomUUID : M Sys string :=
  λ s, (Ok (uuid_of (sys_uuid s)),
        mkSys (sys_now s) (S (sys_uuid s)) (sys_salt s)
              (sys_local s) (sys_supabase s) (sys_drive s)).

Definition random_salt : M Sys nat :=
  λ s, (Ok (sys_salt s),
        mkSys (sys_now s) (sys_uuid s) (S (sys_salt s))
              (sys_local s) (sys_supabase s) (sys_drive s)).

(* ------------------------------------------------------------------ *)
(** ** EncryptionService *)

Module EncryptionService.

(** A CryptoJS word array: 32-bit words, as JavaScript bit operations read
    them, and the number of significant bytes. *)
Record WordArray := mkWordArray {
  words : list Z;
  sigBytes : nat;
}.

(** What [>>>] makes of its left operand: the integer modulo [2^32]. *)
Definition to_uint32 (x : Z) : Z := (x mod 2 ^ 32)%Z.

(** [(wordArray.words[i >>> 2] >>> (24 - (i % 4) * 8)) & 0xff]; a word
    beyond the end of the array is [undefined], which [>>>] reads as 0. *)
Definition byte_at (wordArray : WordArray) (i : nat) : Z :=
  Z.land
    (Z.shiftr (to_uint32 (default 0%Z (words wordArray !! (i / 4))))
       (24 - Z.of_nat (i mod 4) * 8))
    255.

(** The bytes written into the [Uint8Array], in order. *)
Definition wordArrayToArrayBuffer (wordArray : WordArray) : list Z :=
  byte_at wordArray <$> seq 0 (sigBytes wordArray).

Section with_runtime.
Context `{R : Runtime}.

(** The body of [encryptData] once the salt of the call is drawn.  A
    [JSON.stringify] that throws is caught and rethrown; a value it maps
    to [undefined] has the text [""] (see [JSON_stringify]), which is
    encrypted like any other text. *)
Definition encrypt_with (salt : nat) (data : Value) (encryptionKey : string)
  : Result string :=
  match JSON_stringify data with
  | Some jsonString => Ok (AES_encrypt salt jsonString encryptionKey)
  | None => Throw (new_Error "Failed to encrypt data")
  end.

Definition encryptData (data : Value) (encryptionKey : string) : M Sys string :=
  let! salt := random_salt in
  of_result (encrypt_with salt data encryptionKey).

Definition decryptData (encryptedData encryptionKey : string) : Result Value :=
  match AES_decrypt encryptedData encryptionKey with
  | None => Throw (new_Error "Failed to decrypt data")
  | Some jsonString =>
      if decide (jsonString = "")
      then Throw (new_Error "Failed to decrypt data")
      else match JSON_parse jsonString with
           | Some v => Ok v
           | None => Throw (new_Error "Failed to decrypt data")
           end
  end.

End with_runtime.
End EncryptionService.

(* ------------------------------------------------------------------ *)
(** ** LocalStorage *)

Module LocalStorage.

Definition PREFIX : string := "pharmacare_encrypted_".

(** The key texts. *)
Definition record_key (k : string * string * string) : string :=
  let '(userId, dataType, id) := k in
  PREFIX +:+ userId +:+ "_" +:+ dataType +:+ "_" +:+ id.
Definition index_key (userId : string) : string :=
  PREFIX +:+ "index_" +:+ userId.

(** Length of [JSON.stringify(storageItem)]: 113 characters of field
    names and punctuation, two ISO timestamps of 24 characters, and the
    field texts. *)
Definition item_length (it : StorageItem) : nat :=
  113 + 48 + String.length (si_id it) + String.length (si_userId it)
  + String.length (si_dataType it) + String.length (si_encryptedContent it).

(** One index element, with the comma that separates it from the next. *)
Definition entry_length (e : IndexEntry) : nat :=
  1 + 38 + 24 + String.length (ie_id e) + String.length (ie_dataType e).

(** Length of [JSON.stringify(index)]: the brackets and the elements,
    one comma less than elements. *)
Definition index_length (ix : list IndexEntry) : nat :=
  2 + (sum_list_with entry_length ix - 1).

Definition record_bytes (k : string * string * string) (it : StorageItem) : nat :=
  String.length (record_key k) + item_length it.
Definition index_bytes (u : string) (ix : list IndexEntry) : nat :=
  String.length (index_key u) + index_length ix.

Definition usage (ls : LocalStore) : nat :=
  map_fold (λ k it acc, record_bytes k it + acc) 0 (ls_records ls)
  + map_fold (λ u ix acc, index_bytes u ix + acc) 0 (ls_indexes ls).

Definition QuotaExceededError : JsError :=
  mkJsError "QuotaExceededError" "The quota has been exceeded.".

(** [localStorage.setItem(key, value)]: the write is refused, and the
    store left as it was, when it would not fit the quota. *)
Definition setItem (ls' : LocalStore) : M LocalStore unit :=
  λ ls, if decide (usage ls' ≤ ls_quota ls) then (Ok tt, ls')
        else (Throw QuotaExceededError, ls).

Definition setItem_record (k : string * string * string) (it : StorageItem)
  : M LocalStore unit :=
  λ ls, setItem (mkLocalStore (<[k:=it]> (ls_records ls)) (ls_indexes ls) (ls_quota ls)) ls.

Definition setItem_index (u : string) (ix : list IndexEntry) : M LocalStore unit :=
  λ ls, setItem (mkLocalStore (ls_records ls) (<[u:=ix]> (ls_indexes ls)) (ls_quota ls)) ls.

(** [localStorage.removeItem(key)] *)
Definition removeItem_record (k : string * string * string) : M LocalStore unit :=
  modify (λ ls, mkLocalStore (delete k (ls_records ls)) (ls_indexes ls) (ls_quota ls)).

(** [localStorage.getItem(key)] followed by [JSON.parse]: the record
    kept under the key.  The browser answers with whatever entry has the
    key text; it is this record, or nothing, when no other entry has the
    text ([own_text] below). *)
Definition getItem_record (k : string * string * string)
  : M LocalStore (option StorageItem) :=
  gets (λ ls, ls_records ls !! k).

(** [getIndex]: the list kept under the index key of the user, or the
    empty list.  The browser answers with whatever entry has the text of
    the index key; it is this list, or nothing, when no other entry has
    the text ([own_text] below). *)
Definition getIndex (userId : string) : M LocalStore (list IndexEntry) :=
  gets (λ ls, default [] (ls_indexes ls !! userId)).

(** [Math.ceil(index.length * 0.1)].  The product is a double; for every
    length below three million its ceiling is the exact one. *)
Definition itemsToRemove (n : nat) : nat := (n + 9) / 10.

(** [index.sort((a, b) => time a - time b)]: stable, ascending. *)
Fixpoint insert_by_createdAt (e : IndexEntry) (l : list IndexEntry) : list IndexEntry :=
  match l with
  | [] => [e]
  | x :: rest =>
      if decide (ie_createdAt e ≤ ie_createdAt x) then e :: x :: rest
      else x :: insert_by_createdAt e rest
  end.
Definition sort_by_createdAt (l : list IndexEntry) : list IndexEntry :=
  foldr insert_by_createdAt [] l.

Definition updateIndex (userId id dataType : string) : M Sys unit :=
  let! index := in_local (getIndex userId) in
  let! createdAt := Date_now in
  in_local (setItem_index userId (index ++ [mkIndexEntry id dataType createdAt])).

Definition removeFromIndex (userId id : string) : M Sys unit :=
  let! index := in_local (getIndex userId) in
  let updatedIndex := filter (λ item, ie_id item ≠ id) index in
  in_local (setItem_index userId updatedIndex).

(** [Array.prototype.sort] sorts in place and returns the same array, so
    [index.slice(itemsToRemove)] is taken from the sorted list.  The
    loop reads [sortedItems[i]] for [i < itemsToRemove], which is within
    the list as [itemsToRemove] never exceeds its length. *)
Definition clearOldData (userId : string) : M Sys unit :=
  try_catch
    (let! index := in_local (getIndex userId) in
     let itemsToRemove := itemsToRemove (length index) in
     let sortedItems := sort_by_createdAt index in
     for_each (take itemsToRemove sortedItems)
       (λ item, in_local (removeItem_record (userId, ie_dataType item, ie_id item))) ;;
     let updatedIndex := drop itemsToRemove sortedItems in
     in_local (setItem_index userId updatedIndex))
    (λ _, ret tt).

Section with_runtime.
Context `{R : Runtime}.
Import EncryptionService.

(** The browser is taken to provide [localStorage]; the usage estimate
    only logs a warning. *)
Definition storeEncryptedData (userId : string) (data : Value)
    (dataType encryptionKey : string) : M Sys string :=
  try_catch
    (let! encryptedContent := encryptData data encryptionKey in
     let! id := randomUUID in
     let storageKey := (userId, dataType, id) in
     let! createdAt := Date_now in
     let! updatedAt := Date_now in
     let storageItem :=
       mkStorageItem id userId dataType encryptedContent "local" createdAt updatedAt in
     try_catch (in_local (setItem_record storageKey storageItem))
       (λ storageError,
          if decide (err_name storageError = Some "QuotaExceededError")
          then clearOldData userId ;;
               in_local (setItem_record storageKey storageItem)
          else throw storageError) ;;
     updateIndex userId id dataType ;;
     ret id)
    (λ error, throw (new_Error ("Failed to store data locally: " +:+ toString error))).

(** What [index.filter(..).map(..)] yields for one index element:
    [None] is the JavaScript [null] returned for a missing record. *)
Definition read_entry (ls : LocalStore) (userId dataType encryptionKey : string)
    (item : IndexEntry) : Result (option Value) :=
  match ls_records ls !! (userId, dataType, ie_id item) with
  | None => Ok None
  | Some parsedItem =>
      match decryptData (si_encryptedContent parsedItem) encryptionKey with
      | Ok v => Ok (Some v)
      | Throw e => Throw e
      end
  end.

(** [.filter(item => item !== null)]: drops the missing records and the
    records whose value is [null]. *)
Definition non_null (items : list (option Value)) : list Value :=
  omap (λ o, match o with
             | Some v => if is_null v then None else Some v
             | None => None
             end) items.

Definition retrieveEncryptedData (userId dataType encryptionKey : string)
  : M Sys (list Value) :=
  try_catch
    (let! index := in_local (getIndex userId) in
     let! ls := gets sys_local in
     let! items :=
       of_result (map_result (read_entry ls userId dataType encryptionKey)
                    (filter (λ item, ie_dataType item = dataType) index)) in
     ret (non_null items))
    (λ error, throw (new_Error
       ("Failed to retrieve data from localStorage: " +:+ toString error))).

Definition updateEncryptedData (userId id dataType : string) (data : Value)
    (encryptionKey : string) : M Sys unit :=
  try_catch
    (let! encryptedContent := encryptData data encryptionKey in
     let storageKey := (userId, dataType, id) in
     let! existingItem := in_local (getItem_record storageKey) in
     match existingItem with
     | None => throw (new_Error "Item not found")
     | Some parsedItem =>
         let! updatedAt := Date_now in
         in_local (setItem_record storageKey
           (mkStorageItem (si_id parsedItem) (si_userId parsedItem)
              (si_dataType parsedItem) encryptedContent
              (si_storageLocation parsedItem) (si_createdAt parsedItem) updatedAt))
     end)
    (λ error, throw (new_Error
       ("Failed to update data in localStorage: " +:+ toString error))).

End with_runtime.

Definition deleteEncryptedData (userId id dataType : string) : M Sys unit :=
  try_catch
    (in_local (removeItem_record (userId, dataType, id)) ;;
     removeFromIndex userId id)
    (λ error, throw (new_Error
       ("Failed to delete data from localStorage: " +:+ toString error))).

(** [localStorage.removeItem] on an index key *)
Definition removeItem_index (u : string) : M LocalStore unit :=
  modify (λ ls, mkLocalStore (ls_records ls) (delete u (ls_indexes ls)) (ls_quota ls)).

Definition listUserData (userId : string) : M Sys (list IndexEntry) :=
  try_catch (in_local (getIndex userId))
    (λ error, throw (new_Error ("Failed to list user data: " +:+ toString error))).

Definition clearUserData (userId : string) : M Sys unit :=
  try_catch
    (let! index := in_local (getIndex userId) in
     for_each index
       (λ item, in_local (removeItem_record (userId, ie_dataType item, ie_id item))) ;;
     in_local (removeItem_index userId))
    (λ error, throw (new_Error ("Failed to clear user data: " +:+ toString error))).

(** The object [getStorageStats] returns. *)
Record LocalStats := mkLocalStats {
  itemCount : nat;
  estimatedSize : string;
}.

(** [totalSize] in [getStorageStats]: the sizes of the records the index
    entries point to, a missing record counting for nothing.  The size of
    a [Blob] of the stored text is taken to be its length. *)
Definition totalSize (userId : string) (ls : LocalStore) (index : list IndexEntry) : nat :=
  sum_list_with
    (λ item, match ls_records ls !! (userId, ie_dataType item, ie_id item) with
             | Some stored => item_length stored
             | None => 0
             end) index.

Section stats.
(** [formatBytes] is floating-point arithmetic ([Math.log], [toFixed]);
    the statistics are modelled for whatever text it returns. *)
Variable formatBytes : nat → string.

Definition getStorageStats (userId : string) : M Sys LocalStats :=
  let! index := in_local (getIndex userId) in
  let! ls := gets sys_local in
  ret (mkLocalStats (length index) (formatBytes (totalSize userId ls index))).

End stats.

End LocalStorage.

(* ------------------------------------------------------------------ *)
(** ** LocalStorage, the class without quota handling

    The second [LocalStorage] class of the sources differs from the first
    in [storeEncryptedData] only: the record is written once, and a
    refused write is not followed by [clearOldData] and a retry. *)

Module LocalStoragePlain.
Section with_runtime.
Context `{R : Runtime}.
Import EncryptionService.

Definition storeEncryptedData (userId : string) (data : Value)
    (dataType encryptionKey : string) : M Sys string :=
  try_catch
    (let! encryptedContent := encryptData data encryptionKey in
     let! id := randomUUID in
     let storageKey := (userId, dataType, id) in
     let! createdAt := Date_now in
     let! updatedAt := Date_now in
     let storageItem :=
       mkStorageItem id userId dataType encryptedContent "local" createdAt updatedAt in
     in_local (LocalStorage.setItem_record storageKey storageItem) ;;
     LocalStorage.updateIndex userId id dataType ;;
     ret id)
    (λ error, throw (new_Error ("Failed to store data locally: " +:+ toString error))).

End with_runtime.
End LocalStoragePlain.

(* ------------------------------------------------------------------ *)
(** ** SupabaseStorage *)

Module SupabaseStorage.

(** The [error] a failed request carries: supabase-js hands back a plain
    object ([{ message, details, hint, code }]), not an [Error]. *)
Definition PostgrestError : JsError :=
  PlainObject "request failed".

(** [.eq('user_id', userId).eq('data_type', dataType)
     .eq('storage_location', 'supabase')] *)
Definition selected (userId dataType : string) (row : EncryptedRow) : Prop :=
  row_user_id row = userId ∧ row_data_type row = dataType
  ∧ row_storage_location row = "supabase".
#[global] Instance selected_dec userId dataType row :
  Decision (selected userId dataType row).
Proof. unfold selected. apply _. Defined.

(** [.update({encrypted_content, updated_at}).eq('id', id)] on one row *)
Definition update_row (id encryptedContent : string) (updatedAt : nat)
    (row : EncryptedRow) : EncryptedRow :=
  if decide (row_id row = id)
  then mkEncryptedRow (row_id row) (row_user_id row) (row_data_type row)
         encryptedContent (row_storage_location row) (row_created_at row) updatedAt
  else row.

Definition set_encrypted_data (rows : list EncryptedRow) (sb : Supabase) : Supabase :=
  mkSupabase (sb_user sb) (sb_table_listed sb) (sb_create_table_ok sb)
    (Some rows) (sb_profiles sb).
Definition set_profiles (p : gmap string (gmap string ProfileEntry)) (sb : Supabase)
  : Supabase :=
  mkSupabase (sb_user sb) (sb_table_listed sb) (sb_create_table_ok sb)
    (sb_encrypted_data sb) (Some p).

(** The fallback writes into the [encrypted_data] column of the user's
    [profiles] row.  A missing row is the one fetch error that is let
    through (code PGRST116); the update that follows then matches no
    row and reports no error. *)
Definition storeInProfilesTable (userId dataType encryptedContent : string)
  : M Sys string :=
  let! profiles := gets (λ s, sb_profiles (sys_supabase s)) in
  match profiles with
  | None => throw PostgrestError
  | Some rows =>
      let existingData := default ∅ (rows !! userId) in
      let! dataId := randomUUID in
      let! createdAt := Date_now in
      let updated :=
        <[dataId := mkProfileEntry dataType encryptedContent createdAt]> existingData in
      match rows !! userId with
      | Some _ => in_supabase (modify (set_profiles (<[userId := updated]> rows)))
      | None => ret tt
      end ;;
      ret dataId
  end.

(** [.from('encrypted_data').insert({..}).select().single()]: the
    service generates the identifier and both timestamps. *)
Definition insert_row (userId dataType encryptedContent : string)
  : M Sys (option string) :=
  let! table := gets (λ s, sb_encrypted_data (sys_supabase s)) in
  match table with
  | None => ret None
  | Some rows =>
      let! id := randomUUID in
      let! createdAt := Date_now in
      in_supabase (modify (set_encrypted_data
        (rows ++ [mkEncryptedRow id userId dataType encryptedContent "supabase"
                    createdAt createdAt]))) ;;
      ret (Some id)
  end.

(** [supabase.rpc('create_encrypted_data_table')]: when it succeeds the
    table exists afterwards. *)
Definition create_encrypted_data_table : M Sys bool :=
  let! ok := gets (λ s, sb_create_table_ok (sys_supabase s)) in
  if ok : bool
  then let! table := gets (λ s, sb_encrypted_data (sys_supabase s)) in
       in_supabase (modify (set_encrypted_data (default [] table))) ;;
       ret true
  else ret false.

Section with_runtime.
Context `{R : Runtime}.
Import EncryptionService.

Definition storeEncryptedData (userId : string) (data : Value)
    (dataType encryptionKey : string) : M Sys string :=
  try_catch
    (let! user := gets (λ s, sb_user (sys_supabase s)) in
     match user with
     | None => throw (new_Error "User not authenticated")
     | Some _ =>
         let! encryptedContent := encryptData data encryptionKey in
         let! listed := gets (λ s, sb_table_listed (sys_supabase s)) in
         let! created :=
           (if listed : bool then ret true else create_encrypted_data_table) in
         if created : bool
         then let! result := insert_row userId dataType encryptedContent in
              match result with
              | Some id => ret id
              | None => storeInProfilesTable userId dataType encryptedContent
              end
         else storeInProfilesTable userId dataType encryptedContent
     end)
    (λ error, throw (new_Error
       ("Failed to store data in Supabase: " +:+ toString error))).

Definition retrieveEncryptedData (userId dataType encryptionKey : string)
  : M Sys (list Value) :=
  try_catch
    (let! table := gets (λ s, sb_encrypted_data (sys_supabase s)) in
     match table with
     | None => throw PostgrestError
     | Some rows =>
         let data := filter (selected userId dataType) rows in
         of_result (map_result
           (λ item, decryptData (row_encrypted_content item) encryptionKey) data)
     end)
    (λ error, throw (new_Error
       ("Failed to retrieve data from Supabase: " +:+ toString error))).

(** An update whose filter matches no row is not an error for the
    service: [error] is then [null] and nothing is thrown. *)
Definition updateEncryptedData (id : string) (data : Value) (encryptionKey : string)
  : M Sys unit :=
  try_catch
    (let! encryptedContent := encryptData data encryptionKey in
     let! updatedAt := Date_now in
     let! table := gets (λ s, sb_encrypted_data (sys_supabase s)) in
     match table with
     | None => throw PostgrestError
     | Some rows =>
         in_supabase (modify (set_encrypted_data
           (update_row id encryptedContent updatedAt <$> rows)))
     end)
    (λ error, throw (new_Error
       ("Failed to update data in Supabase: " +:+ toString error))).

End with_runtime.
(** [.from('encrypted_data').delete().eq('id', id)]: a filter that
    matches no row is not an error. *)
Definition deleteEncryptedData (id : string) : M Sys unit :=
  try_catch
    (let! table := gets (λ s, sb_encrypted_data (sys_supabase s)) in
     match table with
     | None => throw PostgrestError
     | Some rows =>
         in_supabase (modify (set_encrypted_data (filter (λ row, row_id row ≠ id) rows)))
     end)
    (λ error, throw (new_Error
       ("Failed to delete data from Supabase: " +:+ toString error))).

(** The columns [listUserData] selects. *)
Record RowSummary := mkRowSummary {
  rs_id : string;
  rs_data_type : string;
  rs_created_at : nat;
  rs_updated_at : nat;
}.

Definition summary (row : EncryptedRow) : RowSummary :=
  mkRowSummary (row_id row) (row_data_type row) (row_created_at row) (row_updated_at row).

(** [.order('created_at', { ascending: false })].  Rows created at the
    same time come in an order the service chooses; here they keep the
    order of the table. *)
Fixpoint insert_newest_first (r : RowSummary) (l : list RowSummary) : list RowSummary :=
  match l with
  | [] => [r]
  | x :: rest =>
      if decide (rs_created_at x ≤ rs_created_at r) then r :: x :: rest
      else x :: insert_newest_first r rest
  end.
Definition newest_first (l : list RowSummary) : list RowSummary :=
  foldr insert_newest_first [] l.

Definition listUserData (userId : string) : M Sys (list RowSummary) :=
  try_catch
    (let! table := gets (λ s, sb_encrypted_data (sys_supabase s)) in
     match table with
     | None => throw PostgrestError
     | Some rows =>
         ret (newest_first
                (summary <$> filter (λ row, row_user_id row = userId
                                            ∧ row_storage_location row = "supabase") rows))
     end)
    (λ error, throw (new_Error ("Failed to list user data: " +:+ toString error))).

End SupabaseStorage.

(* ------------------------------------------------------------------ *)
(** ** SupabaseStorage, the class without the fallback

    The second [SupabaseStorage] class of the sources differs from the
    first in [storeEncryptedData] only: no check that somebody is signed
    in, no schema lookup, and a failed insert is thrown instead of being
    redirected to the [profiles] table. *)

Module SupabaseStoragePlain.
Section with_runtime.
Context `{R : Runtime}.
Import EncryptionService.

Definition storeEncryptedData (userId : string) (data : Value)
    (dataType encryptionKey : string) : M Sys string :=
  try_catch
    (let! encryptedContent := encryptData data encryptionKey in
     let! result := SupabaseStorage.insert_row userId dataType encryptedContent in
     match result with
     | Some id => ret id
     | None => throw SupabaseStorage.PostgrestError
     end)
    (λ error, throw (new_Error
       ("Failed to store data in Supabase: " +:+ toString error))).

End with_runtime.
End SupabaseStoragePlain.

(* ------------------------------------------------------------------ *)
(** ** GoogleDriveStorage *)

Module GoogleDriveStorage.

(** [private static readonly FOLDER_NAME]: a property of the class. *)
Definition FOLDER_NAME : string := "PharmaCare_Encrypted_Data".

(** [this.FOLDER_NAME] in an instance method.  The instance has no such
    property (the static one sits on the class), so the methods read
    [undefined]. *)
Definition this_FOLDER_NAME : option string := None.

(** [`${name}`] in the query of the folder search. *)
Definition template (name : option string) : string :=
  default "undefined" name.

(** The name the service gives a file created without one
    ([JSON.stringify] drops a property that is [undefined]). *)
Definition untitled : string := "Untitled".

Definition not_authenticated : JsError :=
  new_Error "Not authenticated with Google Drive".

(** What a rejected [fetch] throws. *)
Definition fetch_failed : JsError := mkJsError "TypeError" "Failed to fetch".

(** The text the service answers for a file it does not have. *)
Definition not_found_body : string := "File not found".

(** Every method starts with [if (!this.accessToken) throw ..]. *)
Definition require_token : M Sys unit :=
  let! token := gets (λ s, accessToken (sys_drive s)) in
  match token with
  | None => throw not_authenticated
  | Some _ => ret tt
  end.

(** [await fetch(..)] *)
Definition fetch : M Sys unit :=
  let! up := gets (λ s, gd_reachable (sys_drive s)) in
  if up : bool then ret tt else throw fetch_failed.

Definition add_file (f : DriveFile) (d : Drive) : Drive :=
  mkDrive (accessToken d) (gd_reachable d) (gd_files d ++ [f]).

Definition createEncryptedFolder : M Sys string :=
  require_token ;;
  fetch ;;
  let! id := randomUUID in
  in_drive (modify (add_file
              (mkDriveFile id (default untitled this_FOLDER_NAME) true [] ""))) ;;
  ret id.

Definition getOrCreateFolder : M Sys string :=
  fetch ;;
  let! files := gets (λ s, gd_files (sys_drive s)) in
  match filter (λ f, file_is_folder f = true
                     ∧ file_name f = template this_FOLDER_NAME) files with
  | folder :: _ => ret (file_id folder)
  | [] => createEncryptedFolder
  end.

(** The listing query is read as: the files that have the folder among
    their parents. *)
Definition listEncryptedFiles : M Sys (list DriveFile) :=
  require_token ;;
  let! folderId := getOrCreateFolder in
  fetch ;;
  let! files := gets (λ s, gd_files (sys_drive s)) in
  ret (filter (λ f, folderId ∈ file_parents f) files).

Section with_runtime.
Context `{R : Runtime}.
Import EncryptionService.

Definition storeEncryptedData (data : Value) (dataType encryptionKey : string)
  : M Sys string :=
  require_token ;;
  let! encryptedData := encryptData data encryptionKey in
  let! now := Date_now in
  let fileName := dataType +:+ "_" +:+ pretty now +:+ ".encrypted" in
  let! folder := getOrCreateFolder in
  fetch ;;
  let! id := randomUUID in
  in_drive (modify (add_file (mkDriveFile id fileName false [folder] encryptedData))) ;;
  ret id.

Definition retrieveEncryptedData (fileId encryptionKey : string) : M Sys Value :=
  require_token ;;
  fetch ;;
  let! files := gets (λ s, gd_files (sys_drive s)) in
  let encryptedData :=
    match filter (λ f, file_id f = fileId) files with
    | f :: _ => file_content f
    | [] => not_found_body
    end in
  of_result (decryptData encryptedData encryptionKey).

End with_runtime.
End GoogleDriveStorage.

(* ------------------------------------------------------------------ *)
(** ** StorageManager *)

Inductive StorageOption := google_drive | supabase | local.

#[global] Instance StorageOption_eq_dec : EqDecision StorageOption.
Proof. solve_decision. Defined.

#[global] Instance StorageOption_countable : Countable StorageOption.
Proof.
  refine (inj_countable'
    (λ o, match o with google_drive => 0 | supabase => 1 | local => 2 end)
    (λ n, match n with 0 => google_drive | 1 => supabase | _ => local end) _).
  by intros [].
Defined.

(** The text of a storage option in a template string. *)
Definition option_name (o : StorageOption) : string :=
  match o with
  | google_drive => "google-drive"
  | supabase => "supabase"
  | local => "local"
  end.

Record StorageConfig := mkStorageConfig {
  userId : string;
  encryptionKey : string;
  enabledStorages : list StorageOption;
}.

(** A call the manager makes to a backend.  The list of these calls is
    kept beside the system state so that statements can say which
    backends a run attempted; no code reads it. *)
Inductive Call :=
| CallStore (o : StorageOption)
| CallRetrieve (o : StorageOption).

Record World := mkWorld {
  w_sys : Sys;
  w_calls : list Call;
}.

Definition in_sys {A} : M Sys A → M World A :=
  zoom w_sys (λ s w, mkWorld s (w_calls w)).
Definition called (c : Call) : M World unit :=
  modify (λ w, mkWorld (w_sys w) (w_calls w ++ [c])).

(** [errors.join(', ')] *)
Fixpoint join (sep : string) (l : list string) : string :=
  match l with
  | [] => ""
  | [x] => x
  | x :: rest => x +:+ sep +:+ join sep rest
  end.

Definition all_failed (errors : list string) : JsError :=
  new_Error ("All storage options failed: " +:+ join ", " errors).

(** An entry of the object [getStorageStats] returns: the statistics of
    the local store, of the relational store ([lastSync] is [None] for
    ['Never']), of the file store ([lastSync] is always ['Available']), or
    the text of the error the backend threw. *)
Inductive Stats :=
| StatsLocal (stats : LocalStorage.LocalStats)
| StatsSupabase (itemCount : nat) (lastSync : option nat)
| StatsGoogleDrive (itemCount : nat)
| StatsError (error : string).

Module StorageManager.
Section with_runtime.
Context `{R : Runtime}.

(** The [switch (storage)] of [storeData] and of
    [storeDataInSpecificStorage]. *)
Definition store_in (cfg : StorageConfig) (storage : StorageOption)
    (data : Value) (dataType : string) : M World string :=
  called (CallStore storage) ;;
  in_sys match storage with
         | google_drive =>
             GoogleDriveStorage.storeEncryptedData data dataType (encryptionKey cfg)
         | supabase =>
             SupabaseStorage.storeEncryptedData (userId cfg) data dataType
               (encryptionKey cfg)
         | local =>
             LocalStorage.storeEncryptedData (userId cfg) data dataType
               (encryptionKey cfg)
         end.

(** The [for] loop of [storeData], carrying [results] and [errors]. *)
Fixpoint storeData_loop (cfg : StorageConfig) (data : Value) (dataType : string)
    (storages : list StorageOption)
    (results : gmap StorageOption string) (errors : list string)
  : M World (gmap StorageOption string * list string) :=
  match storages with
  | [] => ret (results, errors)
  | storage :: rest =>
      let! acc :=
        try_catch
          (let! id := store_in cfg storage data dataType in
           ret (<[storage := id]> results, errors))
          (λ error,
             ret (results,
                  errors ++ [option_name storage +:+ ": " +:+ toString error])) in
      storeData_loop cfg data dataType rest acc.1 acc.2
  end.

Definition storeData (cfg : StorageConfig) (data : Value) (dataType : string)
  : M World (gmap StorageOption string) :=
  let! acc := storeData_loop cfg data dataType (enabledStorages cfg) ∅ [] in
  if decide (length acc.2 = length (enabledStorages cfg))
  then throw (all_failed acc.2)
  else ret acc.1.

(** The Google Drive case of [retrieveData]: list, filter by name
    prefix, then fetch and decrypt file by file. *)
Fixpoint retrieve_files (encryptionKey : string) (dataFiles : list DriveFile)
  : M Sys (list Value) :=
  match dataFiles with
  | [] => ret []
  | file :: rest =>
      let! data := GoogleDriveStorage.retrieveEncryptedData (file_id file) encryptionKey in
      let! more := retrieve_files encryptionKey rest in
      ret (data :: more)
  end.

Definition retrieve_google_drive (cfg : StorageConfig) (dataType : string)
  : M Sys (list Value) :=
  let! files := GoogleDriveStorage.listEncryptedFiles in
  let dataFiles := filter (λ file, String.prefix dataType (file_name file) = true) files in
  if decide (length dataFiles = 0) then ret []
  else retrieve_files (encryptionKey cfg) dataFiles.

(** The [switch (storage)] of [retrieveData]. *)
Definition retrieve_from (cfg : StorageConfig) (storage : StorageOption)
    (dataType : string) : M World (list Value) :=
  called (CallRetrieve storage) ;;
  in_sys match storage with
         | supabase =>
             SupabaseStorage.retrieveEncryptedData (userId cfg) dataType
               (encryptionKey cfg)
         | google_drive => retrieve_google_drive cfg dataType
         | local =>
             LocalStorage.retrieveEncryptedData (userId cfg) dataType
               (encryptionKey cfg)
         end.

(** The [for] loop of [retrieveData] with the [throw] that follows it:
    a successful case returns from the function, a failed one records
    its error and goes on. *)
Fixpoint retrieveData_loop (cfg : StorageConfig) (dataType : string)
    (storages : list StorageOption) (errors : list string) : M World (list Value) :=
  match storages with
  | [] => throw (all_failed errors)
  | storage :: rest =>
      try_catch (retrieve_from cfg storage dataType)
        (λ error,
           retrieveData_loop cfg dataType rest
             (errors ++ [option_name storage +:+ ": " +:+ toString error]))
  end.

Definition retrieveData (cfg : StorageConfig) (dataType : string)
  : M World (list Value) :=
  retrieveData_loop cfg dataType (enabledStorages cfg) [].

Definition storeDataInSpecificStorage (cfg : StorageConfig) (data : list Value)
    (dataType : string) (storage : StorageOption) : M World unit :=
  for_each data (λ item, store_in cfg storage item dataType ;; ret tt).

(** The [switch (primaryStorage)] of [syncData]: it has a case for
    ['supabase'] and one for ['local']; with any other first element,
    and with an empty list, [primaryData] stays [[]]. *)
Definition read_primary (cfg : StorageConfig) (dataType : string)
  : M World (list Value) :=
  match head (enabledStorages cfg) with
  | Some supabase =>
      called (CallRetrieve supabase) ;;
      in_sys (SupabaseStorage.retrieveEncryptedData (userId cfg) dataType
                (encryptionKey cfg))
  | Some local =>
      called (CallRetrieve local) ;;
      in_sys (LocalStorage.retrieveEncryptedData (userId cfg) dataType
                (encryptionKey cfg))
  | _ => ret []
  end.

Definition syncData (cfg : StorageConfig) (dataType : string) : M World unit :=
  try_catch
    (let! primaryData := read_primary cfg dataType in
     for_each (tail (enabledStorages cfg))
       (λ storage, storeDataInSpecificStorage cfg primaryData dataType storage))
    (λ error, throw (new_Error ("Sync failed: " +:+ toString error))).

(** The [formatBytes] of [LocalStorage], see there. *)
Variable formatBytes : nat → string.

(** The [switch (storage)] of [getStorageStats]. *)
Definition stats_of (cfg : StorageConfig) (storage : StorageOption) : M Sys Stats :=
  match storage with
  | local =>
      let! stats := LocalStorage.getStorageStats formatBytes (userId cfg) in
      ret (StatsLocal stats)
  | supabase =>
      let! supabaseData := SupabaseStorage.listUserData (userId cfg) in
      ret (StatsSupabase (length supabaseData)
             (SupabaseStorage.rs_updated_at <$> head supabaseData))
  | google_drive =>
      let! driveFiles := GoogleDriveStorage.listEncryptedFiles in
      ret (StatsGoogleDrive (length driveFiles))
  end.

(** The [for] loop of [getStorageStats], carrying [stats]. *)
Fixpoint getStorageStats_loop (cfg : StorageConfig) (storages : list StorageOption)
    (stats : gmap StorageOption Stats) : M World (gmap StorageOption Stats) :=
  match storages with
  | [] => ret stats
  | storage :: rest =>
      let! stats' :=
        try_catch
          (let! entry := in_sys (stats_of cfg storage) in
           ret (<[storage := entry]> stats))
          (λ error, ret (<[storage := StatsError (toString error)]> stats)) in
      getStorageStats_loop cfg rest stats'
  end.

Definition getStorageStats (cfg : StorageConfig) : M World (gmap StorageOption Stats) :=
  getStorageStats_loop cfg (enabledStorages cfg) ∅.

End with_runtime.
End StorageManager.

(* ------------------------------------------------------------------ *)
(** ** The authentication store (store/authStore.ts)

    A zustand store with the [persist] middleware.  The state is a
    record; an action maps a state to the next one. *)

Module AuthStore.

Record AuthUser := mkAuthUser {
  id : string;
  email : string;
  name : option string;
  storagePreferences : list StorageOption;
  encryptionKeyHash : string;
}.

Record State := mkState {
  user : option AuthUser;
  encryptionKey : option string;
  isAuthenticated : bool;
}.

Definition initial : State := mkState None None false.

(** [set({ user, isAuthenticated: !!user })] *)
Definition setUser (u : option AuthUser) (st : State) : State :=
  mkState u (encryptionKey st) (bool_decide (is_Some u)).

Definition setEncryptionKey (key : option string) (st : State) : State :=
  mkState (user st) key (isAuthenticated st).

Definition logout (st : State) : State := mkState None None false.

Definition updateStoragePreferences (preferences : list StorageOption) (st : State)
  : State :=
  match user st with
  | Some u =>
      mkState (Some (mkAuthUser (id u) (email u) (name u) preferences
                       (encryptionKeyHash u)))
        (encryptionKey st) (isAuthenticated st)
  | None => st
  end.

(** What [partialize] keeps for the persisted copy. *)
Record Persisted := mkPersisted {
  p_user : option AuthUser;
  p_isAuthenticated : bool;
}.

Definition partialize (st : State) : Persisted :=
  mkPersisted (user st) (isAuthenticated st).

(** The state after the page is loaded again: the persisted copy merged
    over the initial state. *)
Definition rehydrate (p : Persisted) : State :=
  mkState (p_user p) (encryptionKey initial) (p_isAuthenticated p).

Inductive Action :=
| SetUser (u : option AuthUser)
| SetEncryptionKey (key : option string)
| Logout
| UpdateStoragePreferences (preferences : list StorageOption)
| Reload.

Definition act (st : State) (a : Action) : State :=
  match a with
  | SetUser u => setUser u st
  | SetEncryptionKey key => setEncryptionKey key st
  | Logout => logout st
  | UpdateStoragePreferences preferences => updateStoragePreferences preferences st
  | Reload => rehydrate (partialize st)
  end.

End AuthStore.

(* ------------------------------------------------------------------ *)
(** ** The hook [useEncryptedStorage]

    The three pieces of React state of the hook are kept beside the
    world the storage manager acts on. *)

Module UseEncryptedStorage.

Section with_runtime.
Context `{R : Runtime}.

Record Hook := mkHook {
  h_world : World;
  data : list Value;
  loading : bool;
  error : option string;
}.

Definition in_world {A} : M World A → M Hook A :=
  zoom h_world (λ w h, mkHook w (data h) (loading h) (error h)).
Definition setData (f : list Value → list Value) : M Hook unit :=
  modify (λ h, mkHook (h_world h) (f (data h)) (loading h) (error h)).
Definition setLoading (b : bool) : M Hook unit :=
  modify (λ h, mkHook (h_world h) (data h) b (error h)).
Definition setError (e : option string) : M Hook unit :=
  modify (λ h, mkHook (h_world h) (data h) (loading h) e).

(** [user && encryptionKey ? new StorageManager({..}) : null]; the empty
    string is falsy. *)
Definition storageManager (auth : AuthStore.State) : option StorageConfig :=
  match AuthStore.user auth, AuthStore.encryptionKey auth with
  | Some user, Some encryptionKey =>
      if decide (encryptionKey = "") then None
      else Some (mkStorageConfig (AuthStore.id user) encryptionKey
                   (AuthStore.storagePreferences user))
  | _, _ => None
  end.

(** [err instanceof Error ? err.message : fallback] *)
Definition message_or (err : JsError) (fallback : string) : string :=
  if instanceof_Error err then err_message err else fallback.

Definition loadData (auth : AuthStore.State) (dataType : string) : M Hook unit :=
  match storageManager auth with
  | None => ret tt
  | Some cfg =>
      setLoading true ;;
      setError None ;;
      λ h,
        let '(r, h') :=
          try_catch
            (let! retrievedData := in_world (StorageManager.retrieveData cfg dataType) in
             setData (λ _, retrievedData))
            (λ err, setError (Some (message_or err "Failed to load data"))) h in
        (* finally *)
        match setLoading false h' with
        | (Ok _, h'') => (r, h'')
        | (Throw e, h'') => (Throw e, h'')
        end
  end.

Definition saveData (auth : AuthStore.State) (dataType : string) (newData : Value)
  : M Hook unit :=
  match storageManager auth with
  | None => throw (new_Error "Storage not initialized")
  | Some cfg =>
      try_catch
        (in_world (StorageManager.storeData cfg newData dataType) ;;
         setData (λ prev, prev ++ [newData]))
        (λ err, throw (new_Error (message_or err "Failed to save data")))
  end.

Definition syncData (auth : AuthStore.State) (dataType : string) : M Hook unit :=
  match storageManager auth with
  | None => throw (new_Error "Storage not initialized")
  | Some cfg =>
      try_catch
        (in_world (StorageManager.syncData cfg dataType) ;;
         loadData auth dataType)
        (λ err, throw (new_Error (message_or err "Failed to sync data")))
  end.

End with_runtime.
End UseEncryptedStorage.

(* ------------------------------------------------------------------ *)
(** ** Vocabulary of the statements *)

(** The message [retrieveData] and [storeData] record for a failed
    backend: [`${storage}: ${error}`]. *)
Definition failure_message (storage : StorageOption) (error : JsError) : string :=
  option_name storage +:+ ": " +:+ toString error.

Section attempts.
Context `{R : Runtime}.
Import StorageManager.

(** [retrieve_failures cfg dt l w errs w']: tried in order from world
    [w], every backend of [l] throws; [errs] are the messages recorded,
    one per backend, and [w'] is the world after the last attempt. *)
Inductive retrieve_failures (cfg : StorageConfig) (dataType : string)
  : list StorageOption → World → list string → World → Prop :=
| retrieve_failures_nil w :
    retrieve_failures cfg dataType [] w [] w
| retrieve_failures_cons storage rest w error w1 errs w2 :
    retrieve_from cfg storage dataType w = (Throw error, w1) →
    retrieve_failures cfg dataType rest w1 errs w2 →
    retrieve_failures cfg dataType (storage :: rest) w
      (failure_message storage error :: errs) w2.

(** [store_attempts cfg v dt l w outs w']: the outcomes of storing [v]
    in the backends of [l], one after the other, from world [w]. *)
Inductive store_attempts (cfg : StorageConfig) (data : Value) (dataType : string)
  : list StorageOption → World → list (StorageOption * Result string) → World → Prop :=
| store_attempts_nil w :
    store_attempts cfg data dataType [] w [] w
| store_attempts_cons storage rest w r w1 outs w2 :
    store_in cfg storage data dataType w = (r, w1) →
    store_attempts cfg data dataType rest w1 outs w2 →
    store_attempts cfg data dataType (storage :: rest) w ((storage, r) :: outs) w2.

(** *** The operations of the backends themselves

    What the statements about the manager are measured against: the
    retrieval and the store of each backend, by the methods of its own
    class. *)






End attempts.


(** The messages of the failed attempts, in order. *)
Definition failures (outs : list (StorageOption * Result string)) : list string :=
  omap (λ o, match o.2 with
             | Ok _ => None
             | Throw e => Some (failure_message o.1 e)
             end) outs.

(** A ciphertext the stores hold at state [s]: the encrypted content of
    a local record, of a row of [encrypted_data], of an entry of a
    [profiles] row, or the content of a file that is not a folder. *)
Definition payload (s : Sys) (c : string) : Prop :=
  (∃ k it, ls_records (sys_local s) !! k = Some it ∧ si_encryptedContent it = c)
  ∨ (∃ rows row, sb_encrypted_data (sys_supabase s) = Some rows
                 ∧ row ∈ rows ∧ row_encrypted_content row = c)
  ∨ (∃ profiles u entries id e,
       sb_profiles (sys_supabase s) = Some profiles
       ∧ profiles !! u = Some entries ∧ entries !! id = Some e
       ∧ pe_encrypted_content e = c)
  ∨ (∃ f, f ∈ gd_files (sys_drive s) ∧ file_is_folder f = false ∧ file_content f = c).

(** [c] is an output of [encryptData] for the value and the key. *)
Definition ciphertext_of `{Runtime} (data : Value) (key c : string) : Prop :=
  ∃ salt, EncryptionService.encrypt_with salt data key = Ok c.

(** A computation that, whatever it returns, adds no payload except
    those satisfying [P]. *)
Definition writes_only (P : string → Prop) {A} (m : M Sys A) : Prop :=
  ∀ s r s' c, m s = (r, s') → payload s' c → payload s c ∨ P c.

(** What a computation returns satisfies [Q]. *)
Definition returns {S A} (m : M S A) (Q : A → Prop) : Prop :=
  ∀ s a s', m s = (Ok a, s') → Q a.

(** The index list of a user, as [getIndex] reads it. *)
Definition index_of (userId : string) (ls : LocalStore) : list IndexEntry :=
  default [] (ls_indexes ls !! userId).

(** The records of a user that are physically in the store. *)
Definition user_records (userId : string) (ls : LocalStore)
  : gmap (string * string * string) StorageItem :=
  filter (λ kv, kv.1.1.1 = userId) (ls_records ls).


(** Index consistency for one user: as many index entries as records,
    every entry has its record, every record has its entry. *)
Definition index_consistent (userId : string) (ls : LocalStore) : Prop :=
  length (index_of userId ls) = size (user_records userId ls)
  ∧ (∀ e, e ∈ index_of userId ls →
          is_Some (ls_records ls !! (userId, ie_dataType e, ie_id e)))
  ∧ (∀ dataType id, is_Some (ls_records ls !! (userId, dataType, id)) →
          ∃ e, e ∈ index_of userId ls ∧ ie_id e = id ∧ ie_dataType e = dataType).

(** What [clearOldData] removes: the records of the given index
    entries. *)
Definition evict (userId : string) (entries : list IndexEntry)
    (records : gmap (string * string * string) StorageItem)
  : gmap (string * string * string) StorageItem :=
  foldl (λ m e, delete (userId, ie_dataType e, ie_id e) m) records entries.

(** The local store [clearOldData] leaves: the oldest records removed,
    and the index shortened unless that write is refused. *)
Definition cleared (userId : string) (ls : LocalStore) : LocalStore :=
  let index := index_of userId ls in
  let n := LocalStorage.itemsToRemove (length index) in
  let sorted := LocalStorage.sort_by_createdAt index in
  let ls1 := mkLocalStore (evict userId (take n sorted) (ls_records ls))
               (ls_indexes ls) (ls_quota ls) in
  let ls2 := mkLocalStore (ls_records ls1) (<[userId := drop n sorted]> (ls_indexes ls))
               (ls_quota ls) in
  if decide (LocalStorage.usage ls2 ≤ ls_quota ls) then ls2 else ls1.

(** The invariant behind index consistency, for all users at once: no
    identifier occurs twice in an index, records and index entries
    correspond, every identifier was drawn from the UUID source before
    its [n]-th draw, and the store is within its quota. *)
Definition local_inv (n : nat) (ls : LocalStore) : Prop :=
  (∀ u, NoDup (ie_id <$> index_of u ls))
  ∧ (∀ u dataType id,
       is_Some (ls_records ls !! (u, dataType, id))
       ↔ ∃ e, e ∈ index_of u ls ∧ ie_id e = id ∧ ie_dataType e = dataType)
  ∧ (∀ u e, e ∈ index_of u ls → ∃ m, m < n ∧ ie_id e = uuid_of m)
  ∧ LocalStorage.usage ls ≤ ls_quota ls.

(** An entry of the local store: a record, or the index of a user. *)
Inductive LocalKey :=
| RecordKey (k : string * string * string)
| IndexKey (userId : string).

#[global] Instance LocalKey_eq_dec : EqDecision LocalKey.
Proof. solve_decision. Defined.

(** The text under which the browser keeps the entry. *)
Definition key_text (k : LocalKey) : string :=
  match k with
  | RecordKey k => LocalStorage.record_key k
  | IndexKey userId => LocalStorage.index_key userId
  end.

(** The store has an entry under the key. *)
Definition holds (ls : LocalStore) (k : LocalKey) : Prop :=
  match k with
  | RecordKey k => is_Some (ls_records ls !! k)
  | IndexKey userId => is_Some (ls_indexes ls !! userId)
  end.

(** [own_text ls k]: no other entry of the store has the key text of
    [k].  Then [getItem], [setItem] and [removeItem] under this text
    read, write and remove the entry [k], or nothing, and touch no other
    entry. *)
Definition own_text (ls : LocalStore) (k : LocalKey) : Prop :=
  ∀ k', holds ls k' → key_text k' = key_text k → k' = k.

(** No two entries of the store have the same key text: the store is
    the image of a browser's [localStorage]. *)
Definition well_keyed (ls : LocalStore) : Prop :=
  ∀ k, holds ls k → own_text ls k.

(** A call for the record key [k] reads and writes its two keys, the
    record key and the index key of the user, under texts of their own. *)
Definition call_keyed (ls : LocalStore) (k : string * string * string) : Prop :=
  own_text ls (RecordKey k)
  ∧ own_text ls (IndexKey k.1.1)
  ∧ LocalStorage.record_key k ≠ LocalStorage.index_key k.1.1.

Section local_steps.
Context `{R : Runtime}.

(** One call against the local backend, for keys that are read and
    written under texts of their own: a store that returns normally; a
    store that throws and leaves no record behind that was not there
    before; or a delete, whatever it returns, that names the data type
    under which the identifier is indexed (any data type if it is not
    indexed). *)
Inductive local_step : Sys → Sys → Prop :=
| local_step_store userId data dataType key s id s' :
    call_keyed (sys_local s) (userId, dataType, uuid_of (sys_uuid s)) →
    LocalStorage.storeEncryptedData userId data dataType key s = (Ok id, s') →
    local_step s s'
| local_step_store_failed userId data dataType key s error s' :
    call_keyed (sys_local s) (userId, dataType, uuid_of (sys_uuid s)) →
    LocalStorage.storeEncryptedData userId data dataType key s = (Throw error, s') →
    (∀ k, is_Some (ls_records (sys_local s') !! k) →
          is_Some (ls_records (sys_local s) !! k)) →
    local_step s s'
| local_step_delete userId id dataType s r s' :
    call_keyed (sys_local s) (userId, dataType, id) →
    (∀ e, e ∈ index_of userId (sys_local s) → ie_id e = id → ie_dataType e = dataType) →
    LocalStorage.deleteEncryptedData userId id dataType s = (r, s') →
    local_step s s'.

(** The first write of [storeEncryptedData]: the store with the record
    of the call in it.  [None] when [encryptData] throws and nothing is
    written. *)
Definition first_write (userId : string) (data : Value) (dataType key : string)
    (s : Sys) : option LocalStore :=
  match EncryptionService.encrypt_with (sys_salt s) data key with
  | Throw _ => None
  | Ok encryptedContent =>
      let id := uuid_of (sys_uuid s) in
      Some (mkLocalStore
              (<[(userId, dataType, id) :=
                   mkStorageItem id userId dataType encryptedContent "local"
                     (sys_now s) (S (sys_now s))]> (ls_records (sys_local s)))
              (ls_indexes (sys_local s)) (ls_quota (sys_local s)))
  end.

(** The browser refuses the first write: it does not fit the quota. *)
Definition first_write_refused (userId : string) (data : Value) (dataType key : string)
    (s : Sys) : Prop :=
  ∃ ls', first_write userId data dataType key s = Some ls'
         ∧ ¬ LocalStorage.usage ls' ≤ ls_quota (sys_local s).

End local_steps.

(** The entry [getStorageStats] of the manager records for the outcome
    of a backend: its statistics, or the text of what it threw. *)
Definition stats_entry (r : Result Stats) : Stats :=
  match r with
  | Ok entry => entry
  | Throw error => StatsError (toString error)
  end.

(** The entries of the outcomes, later ones overriding earlier ones of
    the same backend. *)
Definition stats_entries (outs : list (StorageOption * Result Stats))
  : gmap StorageOption Stats :=
  foldl (λ m o, <[o.1 := stats_entry o.2]> m) ∅ outs.

Section backend_statistics.
Variable formatBytes : nat → string.

(** [backend_stats cfg storage s r s']: the statistics of the backend,
    taken at [s] by the methods of its own class: the local class
    reports its statistics, the relational class lists the rows of the
    user (the count and the [updated_at] of the first row are kept), the
    file class lists the files of its folder (the count is kept). *)
Definition backend_stats (cfg : StorageConfig) (storage : StorageOption)
    (s : Sys) (r : Result Stats) (s' : Sys) : Prop :=
  match storage with
  | local =>
      match LocalStorage.getStorageStats formatBytes (userId cfg) s with
      | (Ok stats, s1) => r = Ok (StatsLocal stats) ∧ s' = s1
      | (Throw error, s1) => r = Throw error ∧ s' = s1
      end
  | supabase =>
      match SupabaseStorage.listUserData (userId cfg) s with
      | (Ok rows, s1) =>
          r = Ok (StatsSupabase (length rows) (SupabaseStorage.rs_updated_at <$> head rows))
          ∧ s' = s1
      | (Throw error, s1) => r = Throw error ∧ s' = s1
      end
  | google_drive =>
      match GoogleDriveStorage.listEncryptedFiles s with
      | (Ok files, s1) => r = Ok (StatsGoogleDrive (length files)) ∧ s' = s1
      | (Throw error, s1) => r = Throw error ∧ s' = s1
      end
  end.

(** The outcomes of the statistics of the backends of a list, taken one
    after the other. *)
Inductive stats_attempts (cfg : StorageConfig)
  : list StorageOption → Sys → list (StorageOption * Result Stats) → Sys → Prop :=
| stats_attempts_nil s :
    stats_attempts cfg [] s [] s
| stats_attempts_cons storage rest s r s1 outs s2 :
    backend_stats cfg storage s r s1 →
    stats_attempts cfg rest s1 outs s2 →
    stats_attempts cfg (storage :: rest) s ((storage, r) :: outs) s2.

End backend_statistics.

(** The relational store is ready for inserts: somebody is signed in, the
    schema lookup lists the table, and the table holds [rows]. *)
Definition supabase_holds (rows : list EncryptedRow) (s : Sys) : Prop :=
  is_Some (sb_user (sys_supabase s))
  ∧ sb_table_listed (sys_supabase s) = true
  ∧ sb_encrypted_data (sys_supabase s) = Some rows.

(** What [GoogleDriveStorage.retrieveEncryptedData] returns for a file
    identifier, as a function of the file store. *)
Definition drive_read `{Runtime} (d : Drive) (key fileId : string) : Result Value :=
  match accessToken d with
  | None => Throw GoogleDriveStorage.not_authenticated
  | Some _ =>
      if gd_reachable d
      then EncryptionService.decryptData
             match filter (λ f, file_id f = fileId) (gd_files d) with
             | f :: _ => file_content f
             | [] => GoogleDriveStorage.not_found_body
             end key
      else Throw GoogleDriveStorage.fetch_failed
  end.

(* ------------------------------------------------------------------ *)
(** ** Sample states, over the small runtime *)

Module Sample.

Definition empty_local (quota : nat) : LocalStore := mkLocalStore ∅ ∅ quota.

(** signed in, table present and empty, no profile rows *)
Definition supabase_ready : Supabase :=
  mkSupabase (Some "u1") true true (Some []) (Some ∅).
(** nobody signed in *)
Definition supabase_signed_out : Supabase :=
  mkSupabase None true true (Some []) (Some ∅).
(** signed in, but the table cannot be reached *)
Definition supabase_no_table : Supabase :=
  mkSupabase (Some "u1") true true None None.

Definition drive_ready : Drive := mkDrive (Some "token") true [].
Definition drive_signed_out : Drive := mkDrive None true [].

Definition paracetamol : Toy.value := Toy.JStr "Paracetamol".

(** A file store that already holds one record of type [medicines],
    written under the key [secret], in a folder named [undefined]: the
    name the folder search of the class asks for. *)
Definition drive_with_record : Drive :=
  mkDrive (Some "token") true
    [ mkDriveFile "f0" "undefined" true [] "";
      mkDriveFile "f1" "medicines_1700000000000.encrypted" false ["f0"]
        (Toy.encrypt 7 (default "" (Toy.stringify paracetamol)) "secret") ].

(** One record [r1] of type [medicines] for user [u1], indexed. *)
Definition local_with_record : LocalStore :=
  mkLocalStore
    {[ ("u1", "medicines", "r1") := mkStorageItem "r1" "u1" "medicines" "old" "local" 1 1 ]}
    {[ "u1" := [mkIndexEntry "r1" "medicines" 1] ]}
    5000.

(** One row [r1] of type [medicines] for user [u1]. *)
Definition supabase_with_row : Supabase :=
  mkSupabase (Some "u1") true true
    (Some [mkEncryptedRow "r1" "u1" "medicines" "old" "supabase" 1 1]) (Some ∅).

(** The text the small cipher makes of [paracetamol] under the key
    [secret]. *)
Definition paracetamol_secret : string :=
  Toy.encrypt 7 (default "" (Toy.stringify paracetamol)) "secret".

(** One record [r1] of type [medicines] for user [u1], readable with the
    key [secret]. *)
Definition local_with_paracetamol : LocalStore :=
  mkLocalStore
    {[ ("u1", "medicines", "r1") :=
         mkStorageItem "r1" "u1" "medicines" paracetamol_secret "local" 1 1 ]}
    {[ "u1" := [mkIndexEntry "r1" "medicines" 1] ]}
    5000.

(** The same store with room for one record only. *)
Definition local_tight : LocalStore :=
  mkLocalStore (ls_records local_with_paracetamol) (ls_indexes local_with_paracetamol) 340.

(** One row [r1] of type [medicines] for user [u1], readable with the
    key [secret]. *)
Definition supabase_with_paracetamol : Supabase :=
  mkSupabase (Some "u1") true true
    (Some [mkEncryptedRow "r1" "u1" "medicines" paracetamol_secret "supabase" 1 1])
    (Some ∅).

Definition sys_with (ls : LocalStore) (sb : Supabase) (d : Drive) : Sys :=
  mkSys 5 0 0 ls sb d.

Definition world_with (ls : LocalStore) (sb : Supabase) (d : Drive) : World :=
  mkWorld (sys_with ls sb d) [].

Definition config (storages : list StorageOption) : StorageConfig :=
  mkStorageConfig "u1" "secret" storages.

(** The state after storing [true], storing [false] and deleting the
    first of the two records, from an empty local store. *)
Definition one_record_left : Sys :=
  mkSys 11 2 2
    (mkLocalStore
       {[ ("u1", "medicines", uuid_of 1) :=
            mkStorageItem (uuid_of 1) "u1" "medicines"
              (Toy.encrypt 1 "false" "secret") "local" 8 9 ]}
       {[ "u1" := [mkIndexEntry (uuid_of 1) "medicines" 10] ]} 5000)
    supabase_ready drive_ready.

End Sample.

(* ------------------------------------------------------------------ *)
(** * Facts *)

(** ** LocalStorage: key texts *)

Lemma own_text_alt ls k :
  own_text ls k
  ↔ map_Forall (λ k0 _, LocalStorage.record_key k0 = key_text k → RecordKey k0 = k)
      (ls_records ls)
    ∧ map_Forall (λ u _, LocalStorage.index_key u = key_text k → IndexKey u = k)
        (ls_indexes ls).
Proof.
  unfold own_text. split.
  - intros Hown. split.
    + intros k0 it Hit. apply (Hown (RecordKey k0)). by eexists.
    + intros u ix Hix. apply (Hown (IndexKey u)). by eexists.
  - intros [Hrecords Hindexes] [k0|u] [x Hx].
    + by apply (Hrecords k0 x).
    + by apply (Hindexes u x).
Qed.

#[global] Instance own_text_dec ls k : Decision (own_text ls k).
Proof.
  refine (cast_if (decide
    (map_Forall (λ k0 _, LocalStorage.record_key k0 = key_text k → RecordKey k0 = k)
       (ls_records ls)
     ∧ map_Forall (λ u _, LocalStorage.index_key u = key_text k → IndexKey u = k)
         (ls_indexes ls)))); by rewrite own_text_alt.
Defined.

Lemma well_keyed_alt ls :
  well_keyed ls
  ↔ map_Forall (λ k0 _, own_text ls (RecordKey k0)) (ls_records ls)
    ∧ map_Forall (λ u _, own_text ls (IndexKey u)) (ls_indexes ls).
Proof.
  unfold well_keyed. split.
  - intros Hkeyed. split.
    + intros k0 it Hit. apply Hkeyed. by eexists.
    + intros u ix Hix. apply Hkeyed. by eexists.
  - intros [Hrecords Hindexes] [k0|u] [x Hx].
    + by apply (Hrecords k0 x).
    + by apply (Hindexes u x).
Qed.

#[global] Instance well_keyed_dec ls : Decision (well_keyed ls).
Proof.
  refine (cast_if (decide
    (map_Forall (λ k0 _, own_text ls (RecordKey k0)) (ls_records ls)
     ∧ map_Forall (λ u _, own_text ls (IndexKey u)) (ls_indexes ls))));
    by rewrite well_keyed_alt.
Defined.

#[global] Instance call_keyed_dec ls k : Decision (call_keyed ls k).
Proof. unfold call_keyed. apply _. Defined.

(** A store that holds no more entries than another, apart from entries
    with texts of their own, is well keyed if the other is. *)
Lemma well_keyed_grow ls ls' (new : list LocalKey) :
  well_keyed ls →
  (∀ k, holds ls' k → holds ls k ∨ k ∈ new) →
  (∀ k, k ∈ new → own_text ls k) →
  (∀ k k', k ∈ new → k' ∈ new → key_text k = key_text k' → k = k') →
  well_keyed ls'.
Proof.
  intros Hkeyed Hheld Hown Hnew k Hk k' Hk' Htext.
  destruct (Hheld k Hk) as [Hold|Hin], (Hheld k' Hk') as [Hold'|Hin'].
  - by apply (Hkeyed k Hold k' Hold').
  - symmetry. by apply (Hown k' Hin' k Hold).
  - by apply (Hown k Hin k' Hold').
  - by apply Hnew.
Qed.

Lemma own_text_shrink ls ls' k :
  (∀ k', holds ls' k' → holds ls k') → own_text ls k → own_text ls' k.
Proof. intros Hheld Hown k' Hk'. apply Hown. by apply Hheld. Qed.

Lemma well_keyed_empty quota : well_keyed (mkLocalStore ∅ ∅ quota).
Proof. intros [k|u] [x Hx]; cbn in Hx; by rewrite lookup_empty in Hx. Qed.

(** The key template is not injective in its three parts: two record
    keys with the same text, which [own_text] tells apart. *)
Example record_key_not_injective :
  LocalStorage.record_key ("a_b", "c", "0") = LocalStorage.record_key ("a", "b_c", "0")
  ∧ ¬ own_text
        (mkLocalStore
           {[ ("a", "b_c", "0") := mkStorageItem "0" "a" "b_c" "c" "local" 1 1 ]}
           {[ "a" := [mkIndexEntry "0" "b_c" 1] ]} 5000)
        (RecordKey ("a_b", "c", "0"))
  ∧ own_text
      (mkLocalStore
         {[ ("a", "b_c", "0") := mkStorageItem "0" "a" "b_c" "c" "local" 1 1 ]}
         {[ "a" := [mkIndexEntry "0" "b_c" 1] ]} 5000)
      (RecordKey ("a", "b_c", "1")).
Proof.
  split; [reflexivity|].
  split; apply (bool_decide_unpack _); vm_compute; reflexivity.
Qed.

(* ------------------------------------------------------------------ *)
(** ** The small runtime obeys the laws *)

Lemma Toy_strip_app (p s : string) : Toy.strip p (p +:+ s) = Some s.
Proof.
  induction p as [|a p IH]; simpl; [by destruct s|].
  by rewrite decide_True.
Qed.

Lemma Toy_laws : RuntimeLaws Toy.runtime.
Proof.
  split.
  - reflexivity.
  - intros salt msg pass. simpl. unfold Toy.decrypt, Toy.encrypt.
    by rewrite Toy_strip_app.
Qed.

(** ** EncryptionService *)

Section encryption_facts.
Context `{R : Runtime} {L : RuntimeLaws R}.
Import EncryptionService.

Lemma serializable_text_nonempty (v : Value) (text : string) :
  JSON_stringify v = Some text → JSON_parse text = Some v → text ≠ "".
Proof. intros _ Hp ->. rewrite JSON_parse_empty in Hp. done. Qed.

Lemma decrypt_encrypt_with (salt : nat) (v : Value) (k : string) :
  serializable v →
  ∃ c, encrypt_with salt v k = Ok c ∧ decryptData c k = Ok v.
Proof.
  intros (text & Hs & Hp). exists (AES_encrypt salt text k).
  unfold encrypt_with, decryptData. rewrite Hs. split; [done|].
  rewrite AES_decrypt_encrypt.
  rewrite decide_False by eauto using serializable_text_nonempty.
  by rewrite Hp.
Qed.

(** C5.  Round trip: for a serializable value [v] and any key [k],
    [encryptData v k] returns a ciphertext, and [decryptData] of that
    ciphertext under [k] returns [v]. *)
Theorem decryptData_encryptData (v : Value) (k : string) (s : Sys) :
  serializable v →
  ∃ c s', encryptData v k s = (Ok c, s') ∧ decryptData c k = Ok v.
Proof.
  intros Hv. destruct (decrypt_encrypt_with (sys_salt s) v k Hv) as (c & Hc & Hd).
  exists c. eexists. split; [|exact Hd].
  unfold encryptData, bind, random_salt, of_result. by rewrite Hc.
Qed.

End encryption_facts.

Lemma decryptData_encryptData_witness :
  serializable (H := Toy.runtime) Sample.paracetamol
  ∧ ∃ c s',
      EncryptionService.encryptData (R := Toy.runtime) Sample.paracetamol "secret"
        (Sample.sys_with (Sample.empty_local 0) Sample.supabase_ready Sample.drive_ready)
      = (Ok c, s')
      ∧ EncryptionService.decryptData (R := Toy.runtime) c "secret"
        = Ok Sample.paracetamol.
Proof.
  assert (serializable (H := Toy.runtime) Sample.paracetamol) as Hjson
    by (eexists; split; vm_compute; reflexivity).
  split; [exact Hjson|].
  apply (decryptData_encryptData (L := Toy_laws)). exact Hjson.
Defined.

(* ------------------------------------------------------------------ *)
(** ** StorageManager: reading with failover *)

Section manager_facts.
Context `{R : Runtime}.
Import StorageManager.

Lemma in_sys_calls {A} (m : M Sys A) (w : World) :
  w_calls (in_sys m w).2 = w_calls w.
Proof. unfold in_sys, zoom. by destruct (m (w_sys w)). Qed.


Lemma store_in_calls cfg storage data dataType w :
  w_calls (store_in cfg storage data dataType w).2
  = w_calls w ++ [CallStore storage].
Proof.
  unfold store_in, bind, called, modify.
  by rewrite in_sys_calls.
Qed.








(** What the loop of [retrieveData] does on any list of backends. *)
Lemma retrieveData_loop_spec cfg dataType l : ∀ errors w,
  match retrieveData_loop cfg dataType l errors w with
  | (Ok data, w') =>
      ∃ pre storage post errs w1,
        l = pre ++ storage :: post
        ∧ retrieve_failures cfg dataType pre w errs w1
        ∧ retrieve_from cfg storage dataType w1 = (Ok data, w')
  | (Throw e, w') =>
      ∃ errs, retrieve_failures cfg dataType l w errs w'
              ∧ e = all_failed (errors ++ errs)
  end.
Proof.
  induction l as [|storage rest IH]; intros errors w; simpl.
  - exists []. rewrite app_nil_r. split; [constructor|done].
  - unfold try_catch.
    destruct (retrieve_from cfg storage dataType w) as [[data|error] w1] eqn:Hrun.
    + exists [], storage, rest, [], w. repeat split; [constructor|done].
    + specialize (IH (errors ++ [failure_message storage error]) w1).
      fold (failure_message storage error).
      destruct (retrieveData_loop _ _ rest _ w1) as [[data|e] w'].
      * destruct IH as (pre & b & post & errs & w2 & -> & Hpre & Hb).
        exists (storage :: pre), b, post, (failure_message storage error :: errs), w2.
        repeat split; [by econstructor|done].
      * destruct IH as (errs & Hall & ->).
        exists (failure_message storage error :: errs).
        split; [by econstructor|]. by rewrite <- app_assoc.
Qed.


(** What [retrieveData] throws is the aggregated [Error]. *)
Lemma retrieveData_throws cfg dataType w e w' :
  retrieveData cfg dataType w = (Throw e, w') → ∃ errs, e = all_failed errs.
Proof.
  unfold retrieveData. intros Hrun.
  pose proof (retrieveData_loop_spec cfg dataType (enabledStorages cfg) [] w) as Hloop.
  rewrite Hrun in Hloop. destruct Hloop as (errs & _ & ->). by exists errs.
Qed.

(** With no enabled backend the loop body never runs. *)
Lemma retrieveData_no_backend cfg dataType w :
  enabledStorages cfg = [] →
  retrieveData cfg dataType w = (Throw (all_failed []), w).
Proof. unfold retrieveData. by intros ->. Qed.

Lemma syncData_no_backend cfg dataType w :
  enabledStorages cfg = [] →
  syncData cfg dataType w = (Ok tt, w).
Proof. unfold syncData, read_primary. by intros ->. Qed.

(** C8, as the code has it.  With no enabled backend, [retrieveData]
    throws the aggregated error of [storeData] and of a failed
    [retrieveData], with no message in it, and [syncData] returns
    normally and leaves the world as it was. *)
Theorem no_backend_retrieve_sync (cfg : StorageConfig) (dataType : string) (w : World) :
  enabledStorages cfg = [] →
  retrieveData cfg dataType w = (Throw (all_failed []), w)
  ∧ syncData cfg dataType w = (Ok tt, w).
Proof.
  intros Hl. split; [by apply retrieveData_no_backend|by apply syncData_no_backend].
Qed.

(** C10.  With no enabled backend, [storeData] throws the aggregated
    [All storage options failed] error with no message in it, and
    calls no backend. *)
Theorem storeData_no_backend (cfg : StorageConfig) (data : Value) (dataType : string)
    (w : World) :
  enabledStorages cfg = [] →
  storeData cfg data dataType w = (Throw (all_failed []), w)
  ∧ err_message (all_failed []) = "All storage options failed: ".
Proof. unfold storeData. by intros ->. Qed.

End manager_facts.

Section failover_runs.
#[local] Existing Instance Toy.runtime.
Import StorageManager Sample.


(** The file store refuses, the local store answers with its record,
    the relational store is never asked. *)
Example retrieveData_second_backend :
  retrieveData (config [google_drive; local; supabase]) "medicines"
    (world_with local_with_paracetamol supabase_ready drive_signed_out)
  = (Ok [paracetamol],
     mkWorld (sys_with local_with_paracetamol supabase_ready drive_signed_out)
       [CallRetrieve google_drive; CallRetrieve local])
  ∧ LocalStorage.retrieveEncryptedData "u1" "medicines" "secret"
      (sys_with local_with_paracetamol supabase_ready drive_signed_out)
    = (Ok [paracetamol], sys_with local_with_paracetamol supabase_ready drive_signed_out)
  ∧ (GoogleDriveStorage.listEncryptedFiles
       (sys_with local_with_paracetamol supabase_ready drive_signed_out)).1
    = Throw GoogleDriveStorage.not_authenticated.
Proof. repeat split; vm_compute; reflexivity. Qed.

(** The failover test of the specification: the first backend fails, the
    second succeeds with no record at all, the third is never called. *)
Example retrieveData_first_success_empty :
  retrieveData (config [google_drive; local; supabase]) "medicines"
    (world_with (empty_local 5000) supabase_ready drive_signed_out)
  = (Ok [],
     mkWorld (sys_with (empty_local 5000) supabase_ready drive_signed_out)
       [CallRetrieve google_drive; CallRetrieve local]).
Proof. vm_compute. reflexivity. Qed.

Lemma no_backend_retrieve_sync_witness :
  enabledStorages (config []) = []
  ∧ retrieveData (config []) "medicines"
      (world_with (empty_local 5000) supabase_ready drive_ready)
    = (Throw (all_failed []), world_with (empty_local 5000) supabase_ready drive_ready)
  ∧ syncData (config []) "medicines"
      (world_with (empty_local 5000) supabase_ready drive_ready)
    = (Ok tt, world_with (empty_local 5000) supabase_ready drive_ready).
Proof.
  split; [reflexivity|]. apply no_backend_retrieve_sync. reflexivity.
Defined.

(** C8, the part that fails.  With no enabled backend [syncData] does not
    fail at all, and the error of [retrieveData] is the aggregated error
    itself. *)
Lemma syncData_no_backend_returns :
  (syncData (config []) "medicines"
     (world_with (empty_local 5000) supabase_ready drive_ready)).1 = Ok tt
  ∧ (retrieveData (config []) "medicines"
       (world_with (empty_local 5000) supabase_ready drive_ready)).1
    = Throw (new_Error "All storage options failed: ").
Proof. split; vm_compute; reflexivity. Qed.

Lemma storeData_no_backend_witness :
  enabledStorages (config []) = []
  ∧ storeData (config []) paracetamol "medicines"
      (world_with (empty_local 5000) supabase_ready drive_ready)
    = (Throw (all_failed []), world_with (empty_local 5000) supabase_ready drive_ready)
  ∧ err_message (all_failed []) = "All storage options failed: ".
Proof.
  split; [reflexivity|]. apply storeData_no_backend. reflexivity.
Defined.

End failover_runs.

(* ------------------------------------------------------------------ *)
(** ** StorageManager: fan-out writes *)

Lemma failures_length_le outs : length (failures outs) ≤ length outs.
Proof.
  unfold failures. induction outs as [|[storage [id|e]] outs IH]; csimpl; lia.
Qed.






Section fan_out_facts.
Context `{R : Runtime}.
Import StorageManager.


Lemma store_attempts_length cfg data dataType l w outs w' :
  store_attempts cfg data dataType l w outs w' → length outs = length l.
Proof. induction 1; simpl; congruence. Qed.

(** What the loop of [storeData] does on any list of backends. *)
Lemma storeData_loop_spec cfg data dataType l : ∀ results errors w,
  ∃ outs w',
    store_attempts cfg data dataType l w outs w'
    ∧ storeData_loop cfg data dataType l results errors w
      = (Ok (foldl (λ m o, match o.2 with Ok id => <[o.1 := id]> m | Throw _ => m end)
               results outs,
             errors ++ failures outs), w').
Proof.
  induction l as [|storage rest IH]; intros results errors w; simpl.
  - exists [], w. split; [constructor|]. unfold ret, failures. simpl.
    by rewrite app_nil_r.
  - unfold bind at 1, try_catch, bind at 1.
    destruct (store_in cfg storage data dataType w) as [[id|error] w1] eqn:Hrun;
      unfold ret; simpl.
    + destruct (IH (<[storage := id]> results) errors w1) as (outs & w' & Hrest & ->).
      exists ((storage, Ok id) :: outs), w'. split; [by econstructor|done].
    + destruct (IH results (errors ++ [option_name storage +:+ ": " +:+ toString error]) w1)
        as (outs & w' & Hrest & ->).
      exists ((storage, Throw error) :: outs), w'. split; [by econstructor|].
      unfold failures. simpl. by rewrite <- app_assoc.
Qed.


End fan_out_facts.

Section fan_out_runs.
#[local] Existing Instance Toy.runtime.
Import StorageManager Sample.



(** A store that returns an identifier need not have written anything.
    The table of the relational store cannot be reached and the user has
    no row in [profiles]: the fallback of the store returns an
    identifier, [storeData] lists the backend under it, and the
    relational store is as it was. *)
Example returned_not_persisted :
  (storeData (config [supabase]) paracetamol "medicines"
     (world_with (empty_local 5000)
        (mkSupabase (Some "u1") true true None (Some ∅)) drive_ready)).1
  = Ok {[ supabase := uuid_of 0 ]}
  ∧ sys_supabase (w_sys
      (storeData (config [supabase]) paracetamol "medicines"
         (world_with (empty_local 5000)
            (mkSupabase (Some "u1") true true None (Some ∅)) drive_ready)).2)
    = mkSupabase (Some "u1") true true None (Some ∅).
Proof. split; vm_compute; reflexivity. Qed.

End fan_out_runs.

(* ------------------------------------------------------------------ *)
(** ** Updating a record in place *)

Section update_facts.
Context `{R : Runtime}.
Import EncryptionService.

Lemma encryptData_text (data : Value) (key text : string) (s : Sys) :
  JSON_stringify data = Some text →
  encryptData data key s
  = (Ok (AES_encrypt (sys_salt s) text key),
     mkSys (sys_now s) (sys_uuid s) (S (sys_salt s))
       (sys_local s) (sys_supabase s) (sys_drive s)).
Proof.
  intros Htext. unfold encryptData, bind, random_salt, of_result, encrypt_with.
  by rewrite Htext.
Qed.

Lemma update_row_hit (id c : string) (t : nat) (row : EncryptedRow) :
  row_id row = id →
  SupabaseStorage.update_row id c t row
  = mkEncryptedRow id (row_user_id row) (row_data_type row) c
      (row_storage_location row) (row_created_at row) t.
Proof. intros <-. unfold SupabaseStorage.update_row. by rewrite decide_True. Qed.

Lemma update_row_miss (id c : string) (t : nat) (row : EncryptedRow) :
  row_id row ≠ id → SupabaseStorage.update_row id c t row = row.
Proof. intros Hne. unfold SupabaseStorage.update_row. by rewrite decide_False. Qed.

(** C7, as the code has it.  For a value with a JSON text, and a record
    key whose text is the key text of no other entry of the local store:
    - [LocalStorage.updateEncryptedData] on a record that exists under
      the key writes the new ciphertext and the time of the call into it
      and keeps its other fields, provided the new text fits the quota;
    - on a key with no record it throws [Item not found] (wrapped) and
      writes nothing;
    - [SupabaseStorage.updateEncryptedData] writes the new ciphertext and
      the time of the call into every row of that identifier and leaves
      the other rows alone. *)
Theorem updateEncryptedData_overwrites (s : Sys) (userId dataType id : string)
    (data : Value) (key text : string) :
  JSON_stringify data = Some text →
  own_text (sys_local s) (RecordKey (userId, dataType, id)) →
  let c := AES_encrypt (sys_salt s) text key in
  (∀ item,
     ls_records (sys_local s) !! (userId, dataType, id) = Some item →
     let item' := mkStorageItem (si_id item) (si_userId item) (si_dataType item) c
                    (si_storageLocation item) (si_createdAt item) (sys_now s) in
     let ls' := mkLocalStore (<[(userId, dataType, id) := item']> (ls_records (sys_local s)))
                  (ls_indexes (sys_local s)) (ls_quota (sys_local s)) in
     LocalStorage.usage ls' ≤ ls_quota (sys_local s) →
     LocalStorage.updateEncryptedData userId id dataType data key s
     = (Ok tt, mkSys (S (sys_now s)) (sys_uuid s) (S (sys_salt s)) ls'
                 (sys_supabase s) (sys_drive s)))
  ∧ (ls_records (sys_local s) !! (userId, dataType, id) = None →
     LocalStorage.updateEncryptedData userId id dataType data key s
     = (Throw (new_Error "Failed to update data in localStorage: Error: Item not found"),
        mkSys (sys_now s) (sys_uuid s) (S (sys_salt s)) (sys_local s)
          (sys_supabase s) (sys_drive s)))
  ∧ (∀ rows,
       sb_encrypted_data (sys_supabase s) = Some rows →
       let rows' := SupabaseStorage.update_row id c (sys_now s) <$> rows in
       SupabaseStorage.updateEncryptedData id data key s
       = (Ok tt, mkSys (S (sys_now s)) (sys_uuid s) (S (sys_salt s)) (sys_local s)
                   (SupabaseStorage.set_encrypted_data rows' (sys_supabase s))
                   (sys_drive s))
       ∧ (∀ row, row ∈ rows → row_id row = id →
            mkEncryptedRow id (row_user_id row) (row_data_type row) c
              (row_storage_location row) (row_created_at row) (sys_now s) ∈ rows')
       ∧ (∀ row, row ∈ rows → row_id row ≠ id → row ∈ rows')).
Proof.
  intros Htext _ c. split; [|split].
  - intros item Hitem item' ls' Hfits.
    unfold LocalStorage.updateEncryptedData, try_catch, bind at 1.
    rewrite (encryptData_text _ _ _ _ Htext).
    unfold bind, in_local, zoom, LocalStorage.getItem_record, gets. simpl.
    rewrite Hitem. unfold Date_now, LocalStorage.setItem_record, LocalStorage.setItem.
    simpl. fold c item' ls'. by rewrite decide_True.
  - intros Hnone.
    unfold LocalStorage.updateEncryptedData, try_catch, bind at 1.
    rewrite (encryptData_text _ _ _ _ Htext).
    unfold bind, in_local, zoom, LocalStorage.getItem_record, gets. simpl.
    rewrite Hnone. unfold throw, set_local. simpl. by destruct (sys_local s).
  - intros rows Hrows rows'. split; [|split].
    + unfold SupabaseStorage.updateEncryptedData, try_catch, bind at 1.
      rewrite (encryptData_text _ _ _ _ Htext).
      unfold bind, Date_now, gets, in_supabase, zoom, modify. simpl.
      by rewrite Hrows.
    + intros row Hin Hid. unfold rows'. apply list_elem_of_fmap.
      exists row. split; [|done]. by rewrite update_row_hit.
    + intros row Hin Hid. unfold rows'. apply list_elem_of_fmap.
      exists row. split; [|done]. by rewrite update_row_miss.
Qed.

End update_facts.

Section update_runs.
#[local] Existing Instance Toy.runtime.
Import Sample.

Lemma updateEncryptedData_overwrites_witness :
  JSON_stringify (Toy.JBool true) = Some "true"
  ∧ own_text (sys_local (sys_with local_with_record supabase_with_row drive_ready))
      (RecordKey ("u1", "medicines", "r1"))
  ∧ LocalStorage.updateEncryptedData "u1" "r1" "medicines" (Toy.JBool true) "secret"
      (sys_with local_with_record supabase_with_row drive_ready)
    = (Ok tt,
       mkSys 6 0 1
         (mkLocalStore
            {[ ("u1", "medicines", "r1") :=
                 mkStorageItem "r1" "u1" "medicines" (Toy.encrypt 0 "true" "secret")
                   "local" 1 5 ]}
            {[ "u1" := [mkIndexEntry "r1" "medicines" 1] ]} 5000)
         supabase_with_row drive_ready)
  ∧ SupabaseStorage.updateEncryptedData "r1" (Toy.JBool true) "secret"
      (sys_with local_with_record supabase_with_row drive_ready)
    = (Ok tt,
       mkSys 6 0 1 local_with_record
         (mkSupabase (Some "u1") true true
            (Some [mkEncryptedRow "r1" "u1" "medicines" (Toy.encrypt 0 "true" "secret")
                     "supabase" 1 5]) (Some ∅))
         drive_ready).
Proof.
  assert (own_text (sys_local (sys_with local_with_record supabase_with_row drive_ready))
            (RecordKey ("u1", "medicines", "r1"))) as Hown
    by (apply (bool_decide_unpack _); vm_compute; reflexivity).
  split; [reflexivity|]. split; [exact Hown|].
  destruct (updateEncryptedData_overwrites (R := Toy.runtime)
              (sys_with local_with_record supabase_with_row drive_ready)
              "u1" "medicines" "r1" (Toy.JBool true) "secret" "true" eq_refl Hown)
    as (Hlocal & _ & Hrows).
  split.
  - rewrite (Hlocal (mkStorageItem "r1" "u1" "medicines" "old" "local" 1 1)).
    + vm_compute. reflexivity.
    + vm_compute. reflexivity.
    + apply Nat.leb_le. vm_compute. reflexivity.
  - destruct (Hrows [mkEncryptedRow "r1" "u1" "medicines" "old" "supabase" 1 1] eq_refl)
      as (-> & _). vm_compute. reflexivity.
Defined.

(** C7, the part that fails.  The relational store has no row of the
    identifier, and the update returns normally. *)
Lemma supabase_update_missing_returns :
  sb_encrypted_data (sys_supabase (sys_with (empty_local 5000) supabase_ready drive_ready))
  = Some []
  ∧ (SupabaseStorage.updateEncryptedData "r1" (Toy.JBool true) "secret"
       (sys_with (empty_local 5000) supabase_ready drive_ready)).1 = Ok tt.
Proof. split; vm_compute; reflexivity. Qed.

End update_runs.

(* ------------------------------------------------------------------ *)
(** ** StorageManager: copying from the primary backend *)

Section sync_facts.
Context `{R : Runtime}.
Import StorageManager.

Lemma for_each_nothing {S A} (xs : list A) (s : S) :
  for_each xs (λ _, ret tt) s = (Ok tt, s).
Proof. induction xs as [|x xs IH]; [done|]. simpl. unfold bind, ret at 1. exact IH. Qed.

(** With the file store first in the list, [syncData] reads nothing and
    writes nothing, whatever the file store holds. *)
Lemma syncData_google_drive_first cfg dataType w :
  head (enabledStorages cfg) = Some google_drive →
  syncData cfg dataType w = (Ok tt, w).
Proof.
  intros Hhead. unfold syncData, try_catch, bind, read_primary. rewrite Hhead.
  unfold ret at 1. unfold storeDataInSpecificStorage. simpl.
  by rewrite for_each_nothing.
Qed.

End sync_facts.

Section sync_runs.
#[local] Existing Instance Toy.runtime.
Import StorageManager Sample.


(** C3 on a failing input.  With the file store first in the list,
    [syncData] reads nothing and writes nothing, in every world.  In
    the sample world the file store comes first and holds one record of
    type [medicines], in the folder the class's search finds: the class
    reads the record back by its file identifier and [retrieveData]
    reads it back by data type; the same configuration given to
    [syncData] calls no backend and leaves the local store empty.  The
    same holds for the record the class's own [storeEncryptedData] has
    just written. *)
Theorem syncData_skips_google_drive :
  (∀ (R : Runtime) (cfg : StorageConfig) (dataType : string) (w : World),
     head (enabledStorages cfg) = Some google_drive →
     syncData (R := R) cfg dataType w = (Ok tt, w))
  ∧ GoogleDriveStorage.retrieveEncryptedData "f1" "secret"
      (sys_with (empty_local 5000) supabase_ready drive_with_record)
    = (Ok paracetamol, sys_with (empty_local 5000) supabase_ready drive_with_record)
  ∧ (retrieveData (config [google_drive; local]) "medicines"
       (world_with (empty_local 5000) supabase_ready drive_with_record)).1
    = Ok [paracetamol]
  ∧ syncData (config [google_drive; local]) "medicines"
      (world_with (empty_local 5000) supabase_ready drive_with_record)
    = (Ok tt, world_with (empty_local 5000) supabase_ready drive_with_record)
  ∧ LocalStorage.retrieveEncryptedData "u1" "medicines" "secret"
      (sys_with (empty_local 5000) supabase_ready drive_with_record)
    = (Ok [], sys_with (empty_local 5000) supabase_ready drive_with_record)
  ∧ (let s1 := (GoogleDriveStorage.storeEncryptedData paracetamol "medicines" "secret"
                  (sys_with (empty_local 5000) supabase_ready drive_ready)).2 in
     (GoogleDriveStorage.retrieveEncryptedData (uuid_of 1) "secret" s1).1 = Ok paracetamol
     ∧ syncData (config [google_drive; local]) "medicines" (mkWorld s1 [])
       = (Ok tt, mkWorld s1 [])
     ∧ (LocalStorage.retrieveEncryptedData "u1" "medicines" "secret" s1).1 = Ok []).
Proof.
  split; [intros R0 cfg dataType w; apply syncData_google_drive_first|].
  repeat split; vm_compute; reflexivity.
Qed.


(** The same run with the record in the local store and the relational
    store second: two calls leave two copies. *)
Example syncData_twice_local_first :
  ((syncData (config [local; supabase]) "medicines" ;;
    syncData (config [local; supabase]) "medicines" ;;
    in_sys (SupabaseStorage.retrieveEncryptedData "u1" "medicines" "secret"))
     (world_with
        (sys_local (LocalStorage.storeEncryptedData "u1" paracetamol "medicines" "secret"
           (sys_with (empty_local 5000) supabase_ready drive_ready)).2)
        supabase_ready drive_ready)).1
  = Ok [paracetamol; paracetamol].
Proof. vm_compute. reflexivity. Qed.

End sync_runs.

(* ------------------------------------------------------------------ *)
(** ** Only ciphertext is stored, only decrypted text is returned *)

Section writes_only_rules.
Context (P : string → Prop).

Lemma writes_only_ret {A} (a : A) : writes_only P (ret a).
Proof. intros s r s' c [= <- <-] Hc. by left. Qed.

Lemma writes_only_throw {A} (e : JsError) : writes_only P (throw (A := A) e).
Proof. intros s r s' c [= <- <-] Hc. by left. Qed.

Lemma writes_only_gets {A} (f : Sys → A) : writes_only P (gets f).
Proof. intros s r s' c [= <- <-] Hc. by left. Qed.

Lemma writes_only_of_result {A} (r : Result A) : writes_only P (of_result r).
Proof. intros s r' s' c [= <- <-] Hc. by left. Qed.

Lemma writes_only_bind {A B} (Q : A → Prop) (m : M Sys A) (k : A → M Sys B) :
  writes_only P m → returns m Q → (∀ a, Q a → writes_only P (k a)) →
  writes_only P (bind m k).
Proof.
  intros Hm HQ Hk s r s' c. unfold bind.
  destruct (m s) as [[a|e] s1] eqn:Hrun.
  - intros Hrest Hc.
    destruct (Hk a (HQ _ _ _ Hrun) _ _ _ _ Hrest Hc) as [Hc1|]; [|by right].
    eapply Hm; eauto.
  - intros [= <- <-] Hc. eapply Hm; eauto.
Qed.

Lemma writes_only_seq {A B} (m : M Sys A) (k : A → M Sys B) :
  writes_only P m → (∀ a, writes_only P (k a)) → writes_only P (bind m k).
Proof.
  intros Hm Hk. apply (writes_only_bind (λ _, True)); [done|by intros ????|by intros ??].
Qed.

Lemma writes_only_try_catch {A} (m : M Sys A) (h : JsError → M Sys A) :
  writes_only P m → (∀ e, writes_only P (h e)) → writes_only P (try_catch m h).
Proof.
  intros Hm Hh s r s' c. unfold try_catch.
  destruct (m s) as [[a|e] s1] eqn:Hrun.
  - intros [= <- <-] Hc. eapply Hm; eauto.
  - intros Hrest Hc. destruct (Hh e _ _ _ _ Hrest Hc) as [Hc1|]; [|by right].
    eapply Hm; eauto.
Qed.

Lemma writes_only_for_each {A} (xs : list A) (body : A → M Sys unit) :
  (∀ x, writes_only P (body x)) → writes_only P (for_each xs body).
Proof.
  intros Hbody. induction xs as [|x xs IH]; simpl.
  - apply writes_only_ret.
  - apply writes_only_seq; [apply Hbody|by intros _].
Qed.

Lemma writes_only_Date_now : writes_only P Date_now.
Proof. intros s r s' c [= <- <-] Hc. by left. Qed.

Lemma writes_only_randomUUID : writes_only P randomUUID.
Proof. intros s r s' c [= <- <-] Hc. by left. Qed.

Lemma writes_only_random_salt : writes_only P random_salt.
Proof. intros s r s' c [= <- <-] Hc. by left. Qed.

(** *** The local store *)

Lemma writes_only_getIndex u : writes_only P (in_local (LocalStorage.getIndex u)).
Proof. intros s r s' c [= <- <-] Hc. left. by destruct s as [? ? ? []]. Qed.

Lemma writes_only_getItem_record k : writes_only P (in_local (LocalStorage.getItem_record k)).
Proof. intros s r s' c [= <- <-] Hc. left. by destruct s as [? ? ? []]. Qed.

Lemma writes_only_setItem_index u ix :
  writes_only P (in_local (LocalStorage.setItem_index u ix)).
Proof.
  intros s r s' c. unfold in_local, zoom, LocalStorage.setItem_index, LocalStorage.setItem.
  case_decide; intros [= <- <-] Hc; left; [done|]. by destruct s as [? ? ? []].
Qed.

Lemma writes_only_removeItem_record k :
  writes_only P (in_local (LocalStorage.removeItem_record k)).
Proof.
  intros s r s' c [= <- <-] [(k' & it & Hit & Hc)|Hc]; left; [|by right].
  left. simpl in Hit. apply lookup_delete_Some in Hit as [_ Hit]. eauto.
Qed.

Lemma writes_only_setItem_record k it :
  P (si_encryptedContent it) →
  writes_only P (in_local (LocalStorage.setItem_record k it)).
Proof.
  intros HP s r s' c.
  unfold in_local, zoom, LocalStorage.setItem_record, LocalStorage.setItem.
  case_decide; intros [= <- <-] Hc; [|left; by destruct s as [? ? ? []]].
  destruct Hc as [(k' & it' & Hit & Hc)|Hc]; [|left; by right].
  simpl in Hit. apply lookup_insert_Some in Hit as [[_ <-]|[_ Hit]].
  - right. by rewrite <- Hc.
  - left. left. eauto.
Qed.

Lemma writes_only_updateIndex u id dt : writes_only P (LocalStorage.updateIndex u id dt).
Proof.
  unfold LocalStorage.updateIndex.
  apply writes_only_seq; [apply writes_only_getIndex|intros index].
  apply writes_only_seq; [apply writes_only_Date_now|intros t].
  apply writes_only_setItem_index.
Qed.

Lemma writes_only_clearOldData u : writes_only P (LocalStorage.clearOldData u).
Proof.
  unfold LocalStorage.clearOldData.
  apply writes_only_try_catch; [|intros _; apply writes_only_ret].
  apply writes_only_seq; [apply writes_only_getIndex|intros index].
  apply writes_only_seq; [|intros _; apply writes_only_setItem_index].
  apply writes_only_for_each. intros item. apply writes_only_removeItem_record.
Qed.

(** *** The relational store *)

Lemma writes_only_create_table :
  writes_only P SupabaseStorage.create_encrypted_data_table.
Proof.
  unfold SupabaseStorage.create_encrypted_data_table.
  apply writes_only_seq; [apply writes_only_gets|intros [|]]; [|apply writes_only_ret].
  intros s r s' c. unfold bind, gets, in_supabase, zoom, modify, ret. simpl.
  intros [= <- <-] Hc. left.
  destruct Hc as [Hc|[(rows & row & Hrows & Hin & Hc)|Hc]]; [by left| |by do 2 right].
  right. left. simpl in Hrows. injection Hrows as <-.
  destruct (sb_encrypted_data (sys_supabase s)) as [rows|] eqn:Htable.
  - exists rows, row. done.
  - simpl in Hin. by apply elem_of_nil in Hin.
Qed.

Lemma writes_only_insert_row u dt c :
  P c → writes_only P (SupabaseStorage.insert_row u dt c).
Proof.
  intros HP s r s' c'. unfold SupabaseStorage.insert_row, bind, gets.
  destruct (sb_encrypted_data (sys_supabase s)) as [rows|] eqn:Htable.
  - unfold randomUUID, Date_now, in_supabase, zoom, modify, ret. simpl.
    intros [= <- <-] Hc.
    destruct Hc as [Hc|[(rows' & row & Hrows & Hin & Hc)|Hc]];
      [left; by left| |left; by do 2 right].
    simpl in Hrows. injection Hrows as <-.
    apply elem_of_app in Hin as [Hin|Hin].
    + left. right. left. exists rows, row. done.
    + apply list_elem_of_singleton in Hin as ->. right. by rewrite <- Hc.
  - unfold ret. intros [= <- <-] Hc. by left.
Qed.

Lemma writes_only_storeInProfilesTable u dt c :
  P c → writes_only P (SupabaseStorage.storeInProfilesTable u dt c).
Proof.
  intros HP s r s' c'. unfold SupabaseStorage.storeInProfilesTable, bind, gets.
  destruct (sb_profiles (sys_supabase s)) as [profiles|] eqn:Hprofiles.
  - unfold randomUUID, Date_now. simpl.
    destruct (profiles !! u) as [entries|] eqn:Hrow; simpl.
    + unfold in_supabase, zoom, modify, ret. simpl. intros [= <- <-] Hc.
      destruct Hc as [Hc|[Hc|[(ps & u' & es & id & e & Hps & Hu & Hid & Hc)|Hc]]];
        [left; by left|left; right; by left| |left; by do 3 right].
      simpl in Hps. injection Hps as <-.
      apply lookup_insert_Some in Hu as [[<- <-]|[Hne Hu]].
      * apply lookup_insert_Some in Hid as [[_ <-]|[_ Hid]].
        -- right. by rewrite <- Hc.
        -- left. do 2 right. left. exists profiles, u, entries, id, e. done.
      * left. do 2 right. left. exists profiles, u', es, id, e. done.
    + unfold ret. intros [= <- <-] Hc. by left.
  - unfold throw. intros [= <- <-] Hc. by left.
Qed.

(** *** The file store *)

Lemma writes_only_require_token : writes_only P GoogleDriveStorage.require_token.
Proof.
  unfold GoogleDriveStorage.require_token.
  apply writes_only_seq; [apply writes_only_gets|].
  intros [t|]; [apply writes_only_ret|apply writes_only_throw].
Qed.

Lemma writes_only_fetch : writes_only P GoogleDriveStorage.fetch.
Proof.
  unfold GoogleDriveStorage.fetch.
  apply writes_only_seq; [apply writes_only_gets|].
  intros [|]; [apply writes_only_ret|apply writes_only_throw].
Qed.

Lemma writes_only_add_file f :
  (file_is_folder f = false → P (file_content f)) →
  writes_only P (in_drive (modify (GoogleDriveStorage.add_file f))).
Proof.
  intros HP s r s' c [= <- <-] Hc.
  destruct Hc as [Hc|[Hc|[Hc|(f' & Hin & Hfolder & Hc)]]];
    [left; by left|left; right; by left|left; do 2 right; by left|].
  simpl in Hin. apply elem_of_app in Hin as [Hin|Hin].
  - left. do 3 right. eauto.
  - apply list_elem_of_singleton in Hin as ->. right. rewrite <- Hc. auto.
Qed.

Lemma writes_only_createEncryptedFolder :
  writes_only P GoogleDriveStorage.createEncryptedFolder.
Proof.
  unfold GoogleDriveStorage.createEncryptedFolder.
  apply writes_only_seq; [apply writes_only_require_token|intros _].
  apply writes_only_seq; [apply writes_only_fetch|intros _].
  apply writes_only_seq; [apply writes_only_randomUUID|intros id].
  apply writes_only_seq; [|intros _; apply writes_only_ret].
  by apply writes_only_add_file.
Qed.

Lemma writes_only_getOrCreateFolder : writes_only P GoogleDriveStorage.getOrCreateFolder.
Proof.
  unfold GoogleDriveStorage.getOrCreateFolder.
  apply writes_only_seq; [apply writes_only_fetch|intros _].
  apply writes_only_seq; [apply writes_only_gets|intros files].
  destruct (filter _ files); [apply writes_only_createEncryptedFolder|apply writes_only_ret].
Qed.

End writes_only_rules.

Section ciphertext_facts.
Context `{R : Runtime}.
Import EncryptionService.

Lemma encryptData_returns_ciphertext data key :
  returns (encryptData data key) (ciphertext_of data key).
Proof.
  intros s c s'. unfold encryptData, bind, random_salt, of_result.
  destruct (encrypt_with (sys_salt s) data key) as [c'|e] eqn:Henc; [|done].
  intros [= <- <-]. by exists (sys_salt s).
Qed.

Lemma writes_only_encryptData P data key : writes_only P (encryptData data key).
Proof.
  unfold encryptData. apply writes_only_seq; [apply writes_only_random_salt|].
  intros salt. apply writes_only_of_result.
Qed.

Lemma LocalStorage_store_writes_ciphertext u data dt key :
  writes_only (ciphertext_of data key) (LocalStorage.storeEncryptedData u data dt key).
Proof.
  unfold LocalStorage.storeEncryptedData.
  apply writes_only_try_catch; [|intros e; apply writes_only_throw].
  eapply writes_only_bind;
    [apply writes_only_encryptData|apply encryptData_returns_ciphertext|].
  intros c Hc.
  apply writes_only_seq; [apply writes_only_randomUUID|intros id].
  apply writes_only_seq; [apply writes_only_Date_now|intros t1].
  apply writes_only_seq; [apply writes_only_Date_now|intros t2].
  apply writes_only_seq.
  - apply writes_only_try_catch; [by apply writes_only_setItem_record|].
    intros e. case_decide; [|apply writes_only_throw].
    apply writes_only_seq; [apply writes_only_clearOldData|intros _].
    by apply writes_only_setItem_record.
  - intros _. apply writes_only_seq; [apply writes_only_updateIndex|].
    intros _. apply writes_only_ret.
Qed.

Lemma SupabaseStorage_store_writes_ciphertext u data dt key :
  writes_only (ciphertext_of data key) (SupabaseStorage.storeEncryptedData u data dt key).
Proof.
  unfold SupabaseStorage.storeEncryptedData.
  apply writes_only_try_catch; [|intros e; apply writes_only_throw].
  apply writes_only_seq; [apply writes_only_gets|].
  intros [user|]; [|apply writes_only_throw].
  eapply writes_only_bind;
    [apply writes_only_encryptData|apply encryptData_returns_ciphertext|].
  intros c Hc.
  apply writes_only_seq; [apply writes_only_gets|intros listed].
  apply writes_only_seq.
  - destruct listed; [apply writes_only_ret|apply writes_only_create_table].
  - intros [|]; [|by apply writes_only_storeInProfilesTable].
    apply writes_only_seq; [by apply writes_only_insert_row|].
    intros [id|]; [apply writes_only_ret|by apply writes_only_storeInProfilesTable].
Qed.

Lemma GoogleDriveStorage_store_writes_ciphertext data dt key :
  writes_only (ciphertext_of data key) (GoogleDriveStorage.storeEncryptedData data dt key).
Proof.
  unfold GoogleDriveStorage.storeEncryptedData.
  apply writes_only_seq; [apply writes_only_require_token|intros _].
  eapply writes_only_bind;
    [apply writes_only_encryptData|apply encryptData_returns_ciphertext|].
  intros c Hc.
  apply writes_only_seq; [apply writes_only_Date_now|intros now].
  apply writes_only_seq; [apply writes_only_getOrCreateFolder|intros folder].
  apply writes_only_seq; [apply writes_only_fetch|intros _].
  apply writes_only_seq; [apply writes_only_randomUUID|intros id].
  apply writes_only_seq; [|intros _; apply writes_only_ret].
  by apply writes_only_add_file.
Qed.

End ciphertext_facts.

Lemma map_result_Ok {A B} (f : A → Result B) (xs : list A) (ys : list B) :
  map_result f xs = Ok ys → Forall2 (λ x y, f x = Ok y) xs ys.
Proof.
  revert ys. induction xs as [|x xs IH]; simpl; intros ys.
  - intros [= <-]. constructor.
  - destruct (f x) as [y|e] eqn:Hx; [|done].
    destruct (map_result f xs) as [ys'|e]; [|done].
    intros [= <-]. constructor; [done|by apply IH].
Qed.

Section retrieval_facts.
Context `{R : Runtime}.
Import EncryptionService.

Lemma non_null_elem (items : list (option Value)) (v : Value) :
  v ∈ LocalStorage.non_null items → Some v ∈ items.
Proof.
  unfold LocalStorage.non_null. rewrite list_elem_of_omap.
  intros ([v'|] & Hin & Hv); [|done].
  destruct (is_null v'); [done|]. by injection Hv as <-.
Qed.

Lemma LocalStorage_retrieve_reads u dt key s r s' :
  LocalStorage.retrieveEncryptedData u dt key s = (r, s') →
  s' = s
  ∧ ∀ vs, r = Ok vs →
      Forall (λ v, ∃ c, payload s c ∧ decryptData c key = Ok v) vs.
Proof.
  unfold LocalStorage.retrieveEncryptedData, try_catch, bind, in_local, zoom,
    LocalStorage.getIndex, gets, of_result, ret, throw. simpl.
  assert (set_local (sys_local s) s = s) as -> by by destruct s.
  destruct (map_result _ _) as [items|e] eqn:Hitems; intros [= <- <-]; split; try done.
  intros vs [= <-]. apply Forall_forall. intros v Hv.
  apply non_null_elem in Hv. apply map_result_Ok in Hitems.
  apply list_elem_of_lookup in Hv as [i Hi].
  destruct (Forall2_lookup_r _ _ _ _ _ Hitems Hi) as (entry & _ & Hread).
  unfold LocalStorage.read_entry in Hread.
  destruct (ls_records (sys_local s) !! _) as [item|] eqn:Hitem; [|done].
  destruct (decryptData _ key) as [v'|] eqn:Hdec; [|done].
  injection Hread as ->. exists (si_encryptedContent item). split; [|done].
  left. eauto.
Qed.

Lemma SupabaseStorage_retrieve_reads u dt key s r s' :
  SupabaseStorage.retrieveEncryptedData u dt key s = (r, s') →
  s' = s
  ∧ ∀ vs, r = Ok vs →
      Forall (λ v, ∃ c, payload s c ∧ decryptData c key = Ok v) vs.
Proof.
  unfold SupabaseStorage.retrieveEncryptedData, try_catch, bind, gets, of_result, throw.
  destruct (sb_encrypted_data (sys_supabase s)) as [rows|] eqn:Hrows;
    [|intros [= <- <-]; by split].
  destruct (map_result _ _) as [items|e] eqn:Hitems; intros [= <- <-]; split; try done.
  intros vs [= <-]. apply Forall_forall. intros v Hv.
  apply map_result_Ok in Hitems.
  apply list_elem_of_lookup in Hv as [i Hi].
  destruct (Forall2_lookup_r _ _ _ _ _ Hitems Hi) as (row & Hrow & Hdec).
  exists (row_encrypted_content row). split; [|done].
  right. left. exists rows, row. split; [done|]. split; [|done].
  apply list_elem_of_lookup_2 in Hrow. by apply list_elem_of_filter in Hrow as [_ ?].
Qed.

Lemma GoogleDriveStorage_retrieve_reads fileId key s r s' :
  GoogleDriveStorage.retrieveEncryptedData fileId key s = (r, s') →
  s' = s
  ∧ ∀ v, r = Ok v →
      ∃ c, decryptData c key = Ok v
           ∧ ((c = GoogleDriveStorage.not_found_body
               ∧ ∀ f, f ∈ gd_files (sys_drive s) → file_id f ≠ fileId)
              ∨ ∃ f, f ∈ gd_files (sys_drive s) ∧ file_id f = fileId
                     ∧ file_content f = c).
Proof.
  unfold GoogleDriveStorage.retrieveEncryptedData, GoogleDriveStorage.require_token,
    GoogleDriveStorage.fetch, bind, gets, of_result, ret, throw.
  destruct (accessToken (sys_drive s)); [|intros [= <- <-]; by split].
  destruct (gd_reachable (sys_drive s)); [|intros [= <- <-]; by split].
  intros [= <- <-]. split; [done|]. intros v Hv. eexists. split; [exact Hv|].
  destruct (filter _ _) as [|f fs] eqn:Hfilter.
  - left. split; [done|]. intros f Hf Hid.
    assert (f ∈ filter (λ f, file_id f = fileId) (gd_files (sys_drive s))) as Hin
      by by apply list_elem_of_filter.
    rewrite Hfilter in Hin. by apply elem_of_nil in Hin.
  - right. exists f.
    assert (f ∈ filter (λ f, file_id f = fileId) (gd_files (sys_drive s))) as Hin
      by (rewrite Hfilter; left).
    apply list_elem_of_filter in Hin as [? ?]. done.
Qed.

Lemma retrieve_files_reads key files s r s' :
  (∀ f, f ∈ files → f ∈ gd_files (sys_drive s)) →
  StorageManager.retrieve_files key files s = (r, s') →
  s' = s
  ∧ ∀ vs, r = Ok vs →
      Forall (λ v, ∃ c f, f ∈ gd_files (sys_drive s) ∧ file_content f = c
                          ∧ decryptData c key = Ok v) vs.
Proof.
  revert r s'. induction files as [|file files IH]; simpl; intros r s' Hin.
  - intros [= <- <-]. split; [done|]. intros vs [= <-]. constructor.
  - unfold bind at 1.
    destruct (GoogleDriveStorage.retrieveEncryptedData _ key s) as [[v|e] s1] eqn:Hfile;
      apply GoogleDriveStorage_retrieve_reads in Hfile as [-> Hv];
      [|intros [= <- <-]; by split].
    unfold bind.
    destruct (StorageManager.retrieve_files key files s) as [[vs|e] s2] eqn:Hrest;
      (destruct (IH _ _ (λ f Hf, Hin f (list_elem_of_further _ _ _ Hf)) eq_refl)
        as [-> Hvs]); unfold ret; simpl; intros [= <- <-]; split; try done.
    intros ? [= <-]. constructor; [|by apply Hvs].
    destruct (Hv v eq_refl) as (c & Hdec & [[_ Hnone]|(f & Hf & _ & Hc)]).
    + exfalso. apply (Hnone file); [apply Hin; apply list_elem_of_here|done].
    + exists c, f. done.
Qed.

Lemma listEncryptedFiles_lists s files s' :
  GoogleDriveStorage.listEncryptedFiles s = (Ok files, s') →
  ∀ f, f ∈ files → f ∈ gd_files (sys_drive s').
Proof.
  unfold GoogleDriveStorage.listEncryptedFiles, bind at 1.
  destruct (GoogleDriveStorage.require_token s) as [[[]|e] s1]; [|done].
  unfold bind at 1.
  destruct (GoogleDriveStorage.getOrCreateFolder s1) as [[folder|e] s2]; [|done].
  unfold GoogleDriveStorage.fetch, bind, gets, ret, throw.
  destruct (gd_reachable (sys_drive s2)); simpl; [|done].
  intros [= <- <-] f Hf. by apply list_elem_of_filter in Hf as [_ ?].
Qed.

Lemma writes_only_listEncryptedFiles P :
  writes_only P GoogleDriveStorage.listEncryptedFiles.
Proof.
  unfold GoogleDriveStorage.listEncryptedFiles.
  apply writes_only_seq; [apply writes_only_require_token|intros _].
  apply writes_only_seq; [apply writes_only_getOrCreateFolder|intros folder].
  apply writes_only_seq; [apply writes_only_fetch|intros _].
  apply writes_only_seq; [apply writes_only_gets|intros files].
  apply writes_only_ret.
Qed.

Lemma retrieve_google_drive_reads cfg dt s r s' :
  StorageManager.retrieve_google_drive cfg dt s = (r, s') →
  (∀ c, payload s' c → payload s c)
  ∧ ∀ vs, r = Ok vs →
      Forall (λ v, ∃ c f, f ∈ gd_files (sys_drive s') ∧ file_content f = c
                          ∧ decryptData c (encryptionKey cfg) = Ok v) vs.
Proof.
  unfold StorageManager.retrieve_google_drive, bind.
  destruct (GoogleDriveStorage.listEncryptedFiles s) as [[files|e] s1] eqn:Hlist.
  - assert (∀ c, payload s1 c → payload s c) as Hkeep.
    { intros c Hc.
      by destruct (writes_only_listEncryptedFiles (λ _, False) _ _ _ _ Hlist Hc). }
    pose proof (listEncryptedFiles_lists _ _ _ Hlist) as Hlisted.
    case_decide as Hnone.
    + intros [= <- <-]. split; [done|]. intros vs [= <-]. constructor.
    + intros Hrun. apply retrieve_files_reads in Hrun as [-> Hvs]; [by split|].
      intros f Hf. apply Hlisted. by apply list_elem_of_filter in Hf as [_ ?].
  - intros [= <- <-]. split; [|done]. intros c Hc.
    by destruct (writes_only_listEncryptedFiles (λ _, False) _ _ _ _ Hlist Hc).
Qed.

End retrieval_facts.

Section opacity.
Context `{R : Runtime}.
Import EncryptionService.

(** C6.  Ciphertext opacity.  Whatever they return, the three
    [storeEncryptedData] add to the stores no payload other than an
    output of [encryptData] for the value and the key.  The retrievals
    add no payload at all, and every value they return is [decryptData]
    of a text held by the store: of a payload for the local and the
    relational store, of the content of a file for the file store (by
    file identifier, and through the listing [retrieveData] makes). *)
Theorem ciphertext_opacity (cfg : StorageConfig) (data : Value) (dataType : string) :
  writes_only (ciphertext_of data (encryptionKey cfg))
    (LocalStorage.storeEncryptedData (userId cfg) data dataType (encryptionKey cfg))
  ∧ writes_only (ciphertext_of data (encryptionKey cfg))
      (SupabaseStorage.storeEncryptedData (userId cfg) data dataType (encryptionKey cfg))
  ∧ writes_only (ciphertext_of data (encryptionKey cfg))
      (GoogleDriveStorage.storeEncryptedData data dataType (encryptionKey cfg))
  ∧ (∀ s vs s',
       LocalStorage.retrieveEncryptedData (userId cfg) dataType (encryptionKey cfg) s
       = (Ok vs, s') →
       s' = s
       ∧ Forall (λ v, ∃ c, payload s c ∧ decryptData c (encryptionKey cfg) = Ok v) vs)
  ∧ (∀ s vs s',
       SupabaseStorage.retrieveEncryptedData (userId cfg) dataType (encryptionKey cfg) s
       = (Ok vs, s') →
       s' = s
       ∧ Forall (λ v, ∃ c, payload s c ∧ decryptData c (encryptionKey cfg) = Ok v) vs)
  ∧ (∀ fileId s v s',
       GoogleDriveStorage.retrieveEncryptedData fileId (encryptionKey cfg) s = (Ok v, s') →
       s' = s
       ∧ ∃ c, decryptData c (encryptionKey cfg) = Ok v
              ∧ ((c = GoogleDriveStorage.not_found_body
                  ∧ ∀ f, f ∈ gd_files (sys_drive s) → file_id f ≠ fileId)
                 ∨ ∃ f, f ∈ gd_files (sys_drive s) ∧ file_id f = fileId
                        ∧ file_content f = c))
  ∧ (∀ s vs s',
       StorageManager.retrieve_google_drive cfg dataType s = (Ok vs, s') →
       (∀ c, payload s' c → payload s c)
       ∧ Forall (λ v, ∃ c f, f ∈ gd_files (sys_drive s') ∧ file_content f = c
                             ∧ decryptData c (encryptionKey cfg) = Ok v) vs).
Proof.
  split; [apply LocalStorage_store_writes_ciphertext|].
  split; [apply SupabaseStorage_store_writes_ciphertext|].
  split; [apply GoogleDriveStorage_store_writes_ciphertext|].
  split; [|split; [|split]].
  - intros s vs s' Hrun.
    apply LocalStorage_retrieve_reads in Hrun as [-> Hvs]. split; [done|by apply Hvs].
  - intros s vs s' Hrun.
    apply SupabaseStorage_retrieve_reads in Hrun as [-> Hvs]. split; [done|by apply Hvs].
  - intros fileId s v s' Hrun.
    apply GoogleDriveStorage_retrieve_reads in Hrun as [-> Hv]. split; [done|by apply Hv].
  - intros s vs s' Hrun.
    apply retrieve_google_drive_reads in Hrun as [Hkeep Hvs]. split; [done|by apply Hvs].
Qed.

End opacity.

(* ------------------------------------------------------------------ *)
(** ** LocalStorage: the index and the records *)

Lemma itemsToRemove_le (n : nat) : LocalStorage.itemsToRemove n ≤ n.
Proof.
  unfold LocalStorage.itemsToRemove. destruct n as [|n]; [done|].
  apply Nat.Div0.div_le_upper_bound. lia.
Qed.

Lemma insert_by_createdAt_perm (e : IndexEntry) (l : list IndexEntry) :
  LocalStorage.insert_by_createdAt e l ≡ₚ e :: l.
Proof.
  induction l as [|x l IH]; simpl; [done|].
  case_decide; [done|]. rewrite IH. apply Permutation_swap.
Qed.

Lemma sort_by_createdAt_perm (l : list IndexEntry) :
  LocalStorage.sort_by_createdAt l ≡ₚ l.
Proof.
  unfold LocalStorage.sort_by_createdAt.
  induction l as [|x l IH]; simpl; [done|].
  by rewrite insert_by_createdAt_perm, IH.
Qed.

(** *** What the quota counts *)

Lemma index_length_mono (ix ix' : list IndexEntry) :
  sum_list_with LocalStorage.entry_length ix' ≤ sum_list_with LocalStorage.entry_length ix →
  LocalStorage.index_length ix' ≤ LocalStorage.index_length ix.
Proof. unfold LocalStorage.index_length. lia. Qed.

Lemma sum_entry_length_drop (n : nat) (ix : list IndexEntry) :
  sum_list_with LocalStorage.entry_length (drop n ix)
  ≤ sum_list_with LocalStorage.entry_length ix.
Proof.
  rewrite <- (take_drop n ix) at 2. rewrite sum_list_with_app. lia.
Qed.

Lemma sum_entry_length_filter (P : IndexEntry → Prop) `{!∀ e, Decision (P e)}
    (ix : list IndexEntry) :
  sum_list_with LocalStorage.entry_length (filter P ix)
  ≤ sum_list_with LocalStorage.entry_length ix.
Proof.
  induction ix as [|e ix IH]; [done|]. rewrite filter_cons.
  case_decide; simpl; lia.
Qed.

Lemma records_fold_delete (k : string * string * string) (it : StorageItem)
    (m : gmap (string * string * string) StorageItem) :
  m !! k = Some it →
  map_fold (λ k it acc, LocalStorage.record_bytes k it + acc) 0 m
  = LocalStorage.record_bytes k it
    + map_fold (λ k it acc, LocalStorage.record_bytes k it + acc) 0 (delete k m).
Proof.
  intros Hk. apply (map_fold_delete_L (λ k it acc, LocalStorage.record_bytes k it + acc));
    [|done]. intros. lia.
Qed.

Lemma indexes_fold_delete (u : string) (ix : list IndexEntry)
    (m : gmap string (list IndexEntry)) :
  m !! u = Some ix →
  map_fold (λ u ix acc, LocalStorage.index_bytes u ix + acc) 0 m
  = LocalStorage.index_bytes u ix
    + map_fold (λ u ix acc, LocalStorage.index_bytes u ix + acc) 0 (delete u m).
Proof.
  intros Hu. apply (map_fold_delete_L (λ u ix acc, LocalStorage.index_bytes u ix + acc));
    [|done]. intros. lia.
Qed.

Lemma usage_delete_record k records indexes quota :
  LocalStorage.usage (mkLocalStore (delete k records) indexes quota)
  ≤ LocalStorage.usage (mkLocalStore records indexes quota).
Proof.
  unfold LocalStorage.usage. cbn [ls_records ls_indexes].
  destruct (records !! k) as [it|] eqn:Hk.
  - rewrite (records_fold_delete k it records Hk). lia.
  - by rewrite delete_id.
Qed.

Lemma usage_evict u entries records indexes quota :
  LocalStorage.usage (mkLocalStore (evict u entries records) indexes quota)
  ≤ LocalStorage.usage (mkLocalStore records indexes quota).
Proof.
  revert records. induction entries as [|e entries IH]; intros records; [done|].
  simpl. etrans; [apply IH|]. apply usage_delete_record.
Qed.

Lemma usage_replace_index u ix ix' records indexes quota :
  indexes !! u = Some ix →
  LocalStorage.index_length ix' ≤ LocalStorage.index_length ix →
  LocalStorage.usage (mkLocalStore records (<[u := ix']> indexes) quota)
  ≤ LocalStorage.usage (mkLocalStore records indexes quota).
Proof.
  intros Hu Hle. unfold LocalStorage.usage. cbn [ls_records ls_indexes].
  rewrite (indexes_fold_delete u ix indexes Hu).
  rewrite (indexes_fold_delete u ix' (<[u := ix']> indexes)) by apply lookup_insert_eq.
  rewrite delete_insert_eq. unfold LocalStorage.index_bytes. lia.
Qed.

Lemma set_local_same (s : Sys) : set_local (sys_local s) s = s.
Proof. by destruct s. Qed.

Lemma evict_lookup_Some u entries records k it :
  evict u entries records !! k = Some it
  ↔ records !! k = Some it ∧ ∀ e, e ∈ entries → k ≠ (u, ie_dataType e, ie_id e).
Proof.
  revert records. induction entries as [|e entries IH]; intros records; simpl.
  - split; [intros ?; split; [done|]; by intros ? ?%elem_of_nil|by intros [? _]].
  - rewrite IH, lookup_delete_Some. split.
    + intros [[Hne Hk] Hrest]. split; [done|].
      intros e' [->|He']%elem_of_cons; [done|by apply Hrest].
    + intros [Hk Hall]. split; [split; [|done]|].
      * intros <-. by apply (Hall e); [left|].
      * intros e' He'. apply Hall. by right.
Qed.

Lemma for_each_removeItem u entries s :
  for_each entries
    (λ item, in_local (LocalStorage.removeItem_record (u, ie_dataType item, ie_id item))) s
  = (Ok tt,
     set_local (mkLocalStore (evict u entries (ls_records (sys_local s)))
                  (ls_indexes (sys_local s)) (ls_quota (sys_local s))) s).
Proof.
  revert s. induction entries as [|e entries IH]; intros s; simpl.
  - unfold ret. f_equal. by destruct s as [? ? ? [] ? ?].
  - unfold bind, in_local at 1, zoom, LocalStorage.removeItem_record, modify.
    by rewrite IH.
Qed.

Lemma clearOldData_run u s :
  LocalStorage.clearOldData u s = (Ok tt, set_local (cleared u (sys_local s)) s).
Proof.
  unfold LocalStorage.clearOldData, try_catch, bind at 1.
  unfold in_local at 1, zoom, LocalStorage.getIndex, gets.
  rewrite set_local_same. fold (index_of u (sys_local s)).
  unfold bind. rewrite for_each_removeItem.
  unfold in_local, zoom, LocalStorage.setItem_index, LocalStorage.setItem, cleared.
  simpl. case_decide; simpl; [done|]. unfold ret. done.
Qed.

Lemma index_of_insert_eq u ix records indexes quota :
  index_of u (mkLocalStore records (<[u := ix]> indexes) quota) = ix.
Proof. unfold index_of. simpl. by rewrite lookup_insert_eq. Qed.

Lemma index_of_insert_ne u u' ix records records' indexes quota :
  u ≠ u' →
  index_of u' (mkLocalStore records (<[u := ix]> indexes) quota)
  = index_of u' (mkLocalStore records' indexes quota).
Proof. intros Hne. unfold index_of. simpl. by rewrite lookup_insert_ne. Qed.

Lemma local_inv_mono n n' ls : n ≤ n' → local_inv n ls → local_inv n' ls.
Proof.
  intros Hle (Hnodup & Hiff & Hissued & Husage). repeat split; try done; try apply Hiff.
  intros u e He. destruct (Hissued u e He) as (m & Hm & Hid). exists m. split; [lia|done].
Qed.

Lemma local_inv_empty n quota : local_inv n (mkLocalStore ∅ ∅ quota).
Proof.
  repeat split.
  - intros u. unfold index_of. simpl. rewrite lookup_empty. constructor.
  - simpl. rewrite lookup_empty. by intros [].
  - unfold index_of. simpl. rewrite lookup_empty.
    intros (e & He & _). by apply elem_of_nil in He.
  - intros u e. unfold index_of. simpl. rewrite lookup_empty. by intros ?%elem_of_nil.
  - unfold LocalStorage.usage. simpl. rewrite !map_fold_empty. lia.
Qed.

(** The index of a user split in two, the records of the first part
    removed and the second part kept as the index. *)
Lemma evict_inv n u tk dr records indexes quota :
  local_inv n (mkLocalStore records indexes quota) →
  index_of u (mkLocalStore records indexes quota) ≡ₚ tk ++ dr →
  LocalStorage.usage (mkLocalStore (evict u tk records) (<[u := dr]> indexes) quota)
  ≤ quota →
  local_inv n (mkLocalStore (evict u tk records) (<[u := dr]> indexes) quota).
Proof.
  intros (Hnodup & Hiff & Hissued & _) Hperm Husage.
  assert (NoDup (ie_id <$> tk ++ dr)) as Hnd by (rewrite <- Hperm; apply Hnodup).
  rewrite fmap_app in Hnd. apply NoDup_app in Hnd as (_ & Hdisj & Hnd_dr).
  split; [|split; [|split]]; [| | |done].
  - intros u'. destruct (decide (u = u')) as [<-|Hne].
    + by rewrite index_of_insert_eq.
    + rewrite (index_of_insert_ne u u' dr _ records) by done. apply Hnodup.
  - intros u' dt id. cbn [ls_records]. destruct (decide (u = u')) as [<-|Hne].
    + rewrite index_of_insert_eq. split.
      * intros [it [Hit Hkept]%evict_lookup_Some].
        destruct (proj1 (Hiff u dt id)) as (e & He & Hid & Hdt); [by eexists|].
        exists e. split; [|done]. rewrite Hperm in He.
        apply elem_of_app in He as [He|He]; [|done].
        destruct (Hkept e He). by rewrite Hid, Hdt.
      * intros (e & He & Hid & Hdt).
        destruct (proj2 (Hiff u dt id)) as [it Hit].
        { exists e. split; [|done]. rewrite Hperm. apply elem_of_app. by right. }
        exists it. apply evict_lookup_Some. split; [done|].
        intros e' He' [= Hdt' Hid'].
        apply (Hdisj id).
        -- rewrite Hid'. by apply list_elem_of_fmap_2.
        -- rewrite <- Hid. by apply list_elem_of_fmap_2.
    + rewrite (index_of_insert_ne u u' dr _ records) by done. rewrite <- Hiff.
      cbn [ls_records]. split.
      * intros [it [Hit _]%evict_lookup_Some]. by eexists.
      * intros [it Hit]. exists it. apply evict_lookup_Some. split; [done|].
        intros e _ [= ? _ _]. done.
  - intros u' e. destruct (decide (u = u')) as [<-|Hne].
    + rewrite index_of_insert_eq. intros He. apply (Hissued u).
      rewrite Hperm. apply elem_of_app. by right.
    + rewrite (index_of_insert_ne u u' dr _ records) by done. apply Hissued.
Qed.

Lemma cleared_inv n u ls : local_inv n ls → local_inv n (cleared u ls).
Proof.
  destruct ls as [records indexes quota]. intros Hinv.
  unfold cleared. cbn [ls_records ls_indexes ls_quota].
  set (index := index_of u (mkLocalStore records indexes quota)).
  set (k := LocalStorage.itemsToRemove (length index)).
  set (sorted := LocalStorage.sort_by_createdAt index).
  assert (index ≡ₚ take k sorted ++ drop k sorted) as Hperm.
  { rewrite take_drop. symmetry. apply sort_by_createdAt_perm. }
  case_decide as Hfits; [by apply evict_inv|].
  destruct (indexes !! u) as [ix|] eqn:Hu.
  - (* the shortened index is no longer than the one it replaces *)
    destruct Hfits. etrans; [|apply Hinv].
    etrans; [|apply (usage_evict u (take k sorted))].
    apply (usage_replace_index u ix); [done|]. apply index_length_mono.
    etrans; [apply sum_entry_length_drop|].
    assert (index = ix) as <- by (unfold index, index_of; simpl; by rewrite Hu).
    unfold sorted. by rewrite sort_by_createdAt_perm.
  - (* no index yet: nothing to remove *)
    assert (index = []) as Hnil by (unfold index, index_of; simpl; by rewrite Hu).
    subst sorted k. rewrite Hnil.
    change (LocalStorage.sort_by_createdAt []) with (@nil IndexEntry).
    by rewrite take_nil.
Qed.

(** A record under a fresh identifier and its index entry. *)
Lemma insert_inv n u dt item t records indexes quota :
  local_inv n (mkLocalStore records indexes quota) →
  LocalStorage.usage
    (mkLocalStore (<[(u, dt, uuid_of n) := item]> records)
       (<[u := index_of u (mkLocalStore records indexes quota)
               ++ [mkIndexEntry (uuid_of n) dt t]]> indexes) quota) ≤ quota →
  local_inv (S n)
    (mkLocalStore (<[(u, dt, uuid_of n) := item]> records)
       (<[u := index_of u (mkLocalStore records indexes quota)
               ++ [mkIndexEntry (uuid_of n) dt t]]> indexes) quota).
Proof.
  intros (Hnodup & Hiff & Hissued & _) Husage.
  assert (∀ u dt id, is_Some (records !! (u, dt, id))
            ↔ ∃ e, e ∈ index_of u (mkLocalStore records indexes quota) ∧ ie_id e = id ∧ ie_dataType e = dt) as Hrec
    by apply Hiff.
  assert (∀ u' e, e ∈ index_of u' (mkLocalStore records indexes quota) → ie_id e ≠ uuid_of n) as Hfresh.
  { intros u' e He Hid. destruct (Hissued u' e He) as (m & Hm & Hid').
    rewrite Hid' in Hid. apply (inj uuid_of) in Hid. lia. }
  split; [|split; [|split]]; [| | |done].
  - intros u'. destruct (decide (u = u')) as [<-|Hne].
    + rewrite index_of_insert_eq, fmap_app. apply NoDup_app.
      split; [apply Hnodup|]. split; [|apply NoDup_singleton].
      intros id [e [-> He]]%list_elem_of_fmap [= Hid]%list_elem_of_singleton.
      by apply (Hfresh u e).
    + rewrite (index_of_insert_ne u u' _ _ records) by done. apply Hnodup.
  - intros u' dt' id'. cbn [ls_records]. rewrite lookup_insert_is_Some'.
    destruct (decide (u = u')) as [<-|Hne].
    + rewrite index_of_insert_eq. setoid_rewrite elem_of_app.
      setoid_rewrite list_elem_of_singleton. rewrite (Hrec u dt' id'). split.
      * intros [[= <- <-]|(e & He & Hid & Hdt)]; [eexists; split; [by right|done]|].
        exists e. split; [by left|done].
      * intros (e & [He| ->] & Hid & Hdt); [right; eauto|]. left. simpl in *. congruence.
    + rewrite (index_of_insert_ne u u' _ _ records) by done. rewrite <- (Hrec u' dt' id').
      split; [intros [[= ? _ _]|?]; done|by right].
  - intros u' e. destruct (decide (u = u')) as [<-|Hne].
    + rewrite index_of_insert_eq. intros [He| ->%list_elem_of_singleton]%elem_of_app.
      * destruct (Hissued u e He) as (m & Hm & Hid). exists m. split; [lia|done].
      * exists n. split; [lia|done].
    + rewrite (index_of_insert_ne u u' _ _ records) by done. intros He.
      destruct (Hissued u' e He) as (m & Hm & Hid). exists m. split; [lia|done].
Qed.

(** A record removed with the index entries of its identifier. *)
Lemma delete_inv n u id dt records indexes quota :
  local_inv n (mkLocalStore records indexes quota) →
  (∀ e, e ∈ index_of u (mkLocalStore records indexes quota) →
        ie_id e = id → ie_dataType e = dt) →
  LocalStorage.usage
    (mkLocalStore (delete (u, dt, id) records)
       (<[u := filter (λ e, ie_id e ≠ id) (index_of u (mkLocalStore records indexes quota))]>
          indexes) quota) ≤ quota →
  local_inv n
    (mkLocalStore (delete (u, dt, id) records)
       (<[u := filter (λ e, ie_id e ≠ id) (index_of u (mkLocalStore records indexes quota))]>
          indexes) quota).
Proof.
  intros (Hnodup & Hiff & Hissued & _) Htyped Husage.
  assert (∀ u dt id, is_Some (records !! (u, dt, id))
            ↔ ∃ e, e ∈ index_of u (mkLocalStore records indexes quota) ∧ ie_id e = id ∧ ie_dataType e = dt) as Hrec
    by apply Hiff.
  split; [|split; [|split]]; [| | |done].
  - intros u'. destruct (decide (u = u')) as [<-|Hne].
    + rewrite index_of_insert_eq. eapply sublist_NoDup; [apply (Hnodup u)|].
      apply fmap_sublist, sublist_filter.
    + rewrite (index_of_insert_ne u u' _ _ records) by done. apply Hnodup.
  - intros u' dt' id'. cbn [ls_records]. rewrite lookup_delete_is_Some.
    destruct (decide (u = u')) as [<-|Hne].
    + rewrite index_of_insert_eq. setoid_rewrite list_elem_of_filter.
      rewrite (Hrec u dt' id'). split.
      * intros [Hkey (e & He & Hid & Hdt)]. exists e. split; [|done]. split; [|done].
        intros Heq. apply Hkey. rewrite <- Hdt, <- Hid, Heq.
        by rewrite (Htyped e He Heq).
      * intros (e & [Hne He] & Hid & Hdt). split; [|eauto]. intros [= _ Heq].
        congruence.
    + rewrite (index_of_insert_ne u u' _ _ records) by done. rewrite <- (Hrec u' dt' id').
      split; [by intros [_ ?]|]. intros ?. split; [|done]. by intros [= ? _ _].
  - intros u' e. destruct (decide (u = u')) as [<-|Hne].
    + rewrite index_of_insert_eq. intros [_ He]%list_elem_of_filter. by apply (Hissued u).
    + rewrite (index_of_insert_ne u u' _ _ records) by done. apply Hissued.
Qed.

(** From the invariant to index consistency. *)
Lemma local_inv_consistent n ls u : local_inv n ls → index_consistent u ls.
Proof.
  intros (Hnodup & Hiff & _ & _). split; [|split].
  - set (key := λ e : IndexEntry, (u, ie_dataType e, ie_id e)).
    assert (NoDup (key <$> index_of u ls)) as Hkeys.
    { apply (NoDup_fmap_1 snd). rewrite <- list_fmap_compose. apply Hnodup. }
    rewrite <- (length_fmap key), <- (size_list_to_set (C := gset _)) by done.
    rewrite <- size_dom. f_equal. apply set_eq. intros [[u' dt] id].
    unfold user_records. rewrite elem_of_list_to_set, elem_of_dom, list_elem_of_fmap.
    split.
    + intros (e & [= -> -> ->] & He).
      destruct (proj2 (Hiff u (ie_dataType e) (ie_id e))) as [it Hit]; [eauto|].
      exists it. by apply map_lookup_filter_Some.
    + intros [it [Hit Hu]%map_lookup_filter_Some]. simpl in Hu. subst u'.
      destruct (proj1 (Hiff u dt id)) as (e & He & <- & <-); [by eexists|].
      by exists e.
  - intros e He. apply Hiff. eauto.
  - intros dt id Hit. by apply Hiff.
Qed.

Lemma deleteEncryptedData_run u id dt s :
  LocalStorage.deleteEncryptedData u id dt s
  = let ls := sys_local s in
    let ls1 := mkLocalStore (delete (u, dt, id) (ls_records ls)) (ls_indexes ls)
                 (ls_quota ls) in
    let ls2 := mkLocalStore (ls_records ls1)
                 (<[u := filter (λ e, ie_id e ≠ id) (index_of u ls)]> (ls_indexes ls))
                 (ls_quota ls) in
    if decide (LocalStorage.usage ls2 ≤ ls_quota ls)
    then (Ok tt, set_local ls2 s)
    else (Throw (new_Error ("Failed to delete data from localStorage: "
                            +:+ toString LocalStorage.QuotaExceededError)),
          set_local ls1 s).
Proof.
  unfold LocalStorage.deleteEncryptedData, try_catch, bind at 1.
  unfold in_local at 1, zoom, LocalStorage.removeItem_record, modify.
  unfold LocalStorage.removeFromIndex, bind, in_local, zoom, LocalStorage.getIndex, gets,
    LocalStorage.setItem_index, LocalStorage.setItem.
  cbn [sys_local set_local ls_records ls_indexes ls_quota]. unfold index_of.
  cbn [ls_indexes]. case_decide; [done|]. done.
Qed.

Lemma setItem_record_run k it s :
  in_local (LocalStorage.setItem_record k it) s
  = let ls' := mkLocalStore (<[k := it]> (ls_records (sys_local s)))
                 (ls_indexes (sys_local s)) (ls_quota (sys_local s)) in
    if decide (LocalStorage.usage ls' ≤ ls_quota (sys_local s))
    then (Ok tt, set_local ls' s)
    else (Throw LocalStorage.QuotaExceededError, s).
Proof.
  unfold in_local, zoom, LocalStorage.setItem_record, LocalStorage.setItem.
  cbn zeta. case_decide; [done|]. by rewrite set_local_same.
Qed.

Lemma updateIndex_Ok u id dt s s' :
  LocalStorage.updateIndex u id dt s = (Ok tt, s') →
  sys_uuid s' = sys_uuid s
  ∧ sys_local s'
    = mkLocalStore (ls_records (sys_local s))
        (<[u := index_of u (sys_local s) ++ [mkIndexEntry id dt (sys_now s)]]>
           (ls_indexes (sys_local s)))
        (ls_quota (sys_local s))
  ∧ LocalStorage.usage (sys_local s') ≤ ls_quota (sys_local s).
Proof.
  unfold LocalStorage.updateIndex, bind, in_local, zoom, LocalStorage.getIndex, gets,
    Date_now, LocalStorage.setItem_index, LocalStorage.setItem.
  cbn [sys_local set_local sys_now sys_uuid ls_records ls_indexes ls_quota].
  case_decide; [|done]. intros [= <-]. done.
Qed.

Section store_run.
Context `{R : Runtime}.

Lemma storeEncryptedData_Ok u data dt key s id s' :
  LocalStorage.storeEncryptedData u data dt key s = (Ok id, s') →
  ∃ item t ls_mid,
    (ls_mid = sys_local s ∨ ls_mid = cleared u (sys_local s))
    ∧ id = uuid_of (sys_uuid s)
    ∧ sys_uuid s' = S (sys_uuid s)
    ∧ sys_local s'
      = mkLocalStore (<[(u, dt, id) := item]> (ls_records ls_mid))
          (<[u := index_of u ls_mid ++ [mkIndexEntry id dt t]]> (ls_indexes ls_mid))
          (ls_quota ls_mid)
    ∧ LocalStorage.usage (sys_local s') ≤ ls_quota ls_mid.
Proof.
  unfold LocalStorage.storeEncryptedData, try_catch.
  match goal with |- context [match ?m s with _ => _ end] =>
    destruct (m s) as [[id0|e] s0] eqn:Hbody end; [|done].
  intros [= <- <-]. revert Hbody.
  unfold bind at 1, EncryptionService.encryptData, bind at 1, random_salt, of_result.
  destruct (EncryptionService.encrypt_with _ data key) as [c|e]; [|done].
  unfold bind at 1, randomUUID. unfold bind at 1, Date_now. unfold bind at 1.
  cbn [sys_now sys_uuid sys_salt sys_local sys_supabase sys_drive].
  set (sA := mkSys _ _ _ _ _ _).
  set (item := mkStorageItem _ _ _ _ _ _ _).
  unfold bind at 1. rewrite setItem_record_run. cbn zeta.
  assert (∀ sB, sys_uuid sB = S (sys_uuid s) →
            (LocalStorage.updateIndex u (uuid_of (sys_uuid s)) dt ;;
             ret (uuid_of (sys_uuid s))) sB = (Ok id0, s0) →
            id0 = uuid_of (sys_uuid s) ∧ sys_uuid s0 = S (sys_uuid s)
            ∧ sys_local s0
              = mkLocalStore (ls_records (sys_local sB))
                  (<[u := index_of u (sys_local sB)
                          ++ [mkIndexEntry (uuid_of (sys_uuid s)) dt (sys_now sB)]]>
                     (ls_indexes (sys_local sB)))
                  (ls_quota (sys_local sB))
            ∧ LocalStorage.usage (sys_local s0) ≤ ls_quota (sys_local sB)) as Htail.
  { intros sB HsB. unfold bind.
    destruct (LocalStorage.updateIndex _ _ _ sB) as [[[]|e] sC] eqn:Hindex; [|done].
    intros [= <- <-]. apply updateIndex_Ok in Hindex as (Hu & Hl & Hq).
    split; [done|]. split; [congruence|]. done. }
  case_decide as Hfits.
  - intros Hrest. apply Htail in Hrest as (-> & Huuid & Hlocal & Hq); [|done].
    exists item, (sys_now sA), (sys_local s). split; [by left|]. done.
  - rewrite decide_True by done. unfold bind at 1. rewrite clearOldData_run.
    rewrite setItem_record_run. cbn zeta. case_decide as Hfits'; [|done].
    intros Hrest. apply Htail in Hrest as (-> & Huuid & Hlocal & Hq); [|done].
    exists item, (sys_now sA), (cleared u (sys_local s)). split; [by right|]. done.
Qed.

Lemma updateIndex_Throw u id dt s error s' :
  LocalStorage.updateIndex u id dt s = (Throw error, s') →
  sys_uuid s' = sys_uuid s ∧ sys_local s' = sys_local s.
Proof.
  unfold LocalStorage.updateIndex, bind, in_local, zoom, LocalStorage.getIndex, gets,
    Date_now, LocalStorage.setItem_index, LocalStorage.setItem.
  cbn [sys_local set_local sys_now sys_uuid ls_records ls_indexes ls_quota].
  case_decide; [done|]. intros [= _ <-]. split; [done|]. by destruct (sys_local s).
Qed.

(** Where a store that throws leaves the local store: as it was or as
    [clearOldData] left it, with or without the record of the call. *)
Lemma storeEncryptedData_Throw u data dt key s error s' :
  LocalStorage.storeEncryptedData u data dt key s = (Throw error, s') →
  sys_uuid s ≤ sys_uuid s'
  ∧ ∃ ls_mid,
      (ls_mid = sys_local s ∨ ls_mid = cleared u (sys_local s))
      ∧ (sys_local s' = ls_mid
         ∨ ∃ item,
             sys_local s'
             = mkLocalStore (<[(u, dt, uuid_of (sys_uuid s)) := item]> (ls_records ls_mid))
                 (ls_indexes ls_mid) (ls_quota ls_mid)).
Proof.
  unfold LocalStorage.storeEncryptedData, try_catch.
  match goal with |- context [match ?m s with _ => _ end] =>
    destruct (m s) as [[id0|e] s0] eqn:Hbody end; [done|].
  unfold throw. intros [= _ <-]. revert Hbody.
  unfold bind at 1, EncryptionService.encryptData, bind at 1, random_salt, of_result.
  destruct (EncryptionService.encrypt_with _ data key) as [c|e'].
  2:{ intros [= _ <-]. split; [done|]. exists (sys_local s). split; [by left|by left]. }
  unfold bind at 1, randomUUID. unfold bind at 1, Date_now. unfold bind at 1.
  cbn [sys_now sys_uuid sys_salt sys_local sys_supabase sys_drive].
  set (sA := mkSys _ _ _ _ _ _).
  set (item := mkStorageItem _ _ _ _ _ _ _).
  unfold bind at 1. rewrite setItem_record_run. cbn zeta.
  assert (∀ sB, sys_uuid sB = S (sys_uuid s) →
            (LocalStorage.updateIndex u (uuid_of (sys_uuid s)) dt ;;
             ret (uuid_of (sys_uuid s))) sB = (Throw e, s0) →
            sys_uuid s ≤ sys_uuid s0 ∧ sys_local s0 = sys_local sB) as Htail.
  { intros sB HsB. unfold bind.
    destruct (LocalStorage.updateIndex _ _ _ sB) as [[[]|e'] sC] eqn:Hindex; [done|].
    intros [= _ <-]. apply updateIndex_Throw in Hindex as [Hu Hl].
    split; [lia|done]. }
  case_decide as Hfits.
  - intros Hrest. apply Htail in Hrest as [Hle Hlocal]; [|done]. split; [done|].
    exists (sys_local s). split; [by left|]. right. by exists item.
  - rewrite decide_True by done. unfold bind at 1. rewrite clearOldData_run.
    rewrite setItem_record_run. cbn zeta. case_decide as Hfits'.
    + intros Hrest. apply Htail in Hrest as [Hle Hlocal]; [|done]. split; [done|].
      exists (cleared u (sys_local s)). split; [by right|]. right. by exists item.
    + intros [= _ <-]. split; [simpl; lia|].
      exists (cleared u (sys_local s)). split; [by right|by left].
Qed.

End store_run.

(* ------------------------------------------------------------------ *)
(** ** LocalStorage: the calls keep the key texts apart *)

Lemma holds_cleared u ls k :
  holds (cleared u ls) k → holds ls k ∨ k = IndexKey u.
Proof.
  unfold cleared. cbn zeta. case_decide; destruct k as [k|u']; cbn.
  - intros [it Hit]. apply evict_lookup_Some in Hit as [Hit _]. left. by eexists.
  - rewrite lookup_insert_is_Some'. intros [->|?]; [by right|by left].
  - intros [it Hit]. apply evict_lookup_Some in Hit as [Hit _]. left. by eexists.
  - by left.
Qed.

Lemma cleared_well_keyed u ls :
  well_keyed ls → own_text ls (IndexKey u) → well_keyed (cleared u ls).
Proof.
  intros Hkeyed Hown. apply (well_keyed_grow ls _ [IndexKey u]); [done|..].
  - intros k Hk. apply holds_cleared in Hk as [?| ->]; [by left|right; by left].
  - by intros k ->%list_elem_of_singleton.
  - by intros k k' ->%list_elem_of_singleton ->%list_elem_of_singleton.
Qed.

Lemma cleared_own_text u ls k :
  own_text ls k → k ≠ IndexKey u → key_text k ≠ LocalStorage.index_key u →
  own_text (cleared u ls) k.
Proof.
  intros Hown Hne Htext k' Hk' Heq.
  apply holds_cleared in Hk' as [Hk'| ->]; [by apply Hown|].
  by destruct Htext.
Qed.

Section key_steps.
Context `{R : Runtime}.

(** The calls of [local_step] keep the store well keyed. *)
Lemma local_step_well_keyed s s' :
  well_keyed (sys_local s) → local_step s s' → well_keyed (sys_local s').
Proof.
  intros Hkeyed Hstep.
  destruct Hstep as [u data dt key s1 id s2 (Hrec & Hix & Hne) Hrun
                    |u data dt key s1 error s2 (Hrec & Hix & Hne) Hrun Hclean
                    |u id dt s1 r s2 (Hrec & Hix & Hne) Htyped Hrun];
    cbn [fst] in Hix, Hne.
  - apply storeEncryptedData_Ok in Hrun
      as (item & t & ls_mid & Hmid & -> & _ & -> & _).
    apply (well_keyed_grow (sys_local s1) _
             [RecordKey (u, dt, uuid_of (sys_uuid s1)); IndexKey u]); [done|..].
    + intros [k|u'] Hk; cbn in Hk; apply lookup_insert_is_Some' in Hk as [<-|Hk].
      * right. by left.
      * left. destruct Hmid as [-> | ->]; [done|].
        by destruct (holds_cleared u _ (RecordKey k) Hk).
      * right. right. by left.
      * destruct Hmid as [-> | ->]; [by left|].
        destruct (holds_cleared u _ (IndexKey u') Hk) as [?|[= ->]]; [by left|].
        right. right. by left.
    + intros k [->|[->|[]%elem_of_nil]%elem_of_cons]%elem_of_cons; done.
    + intros k k' [->|[->|[]%elem_of_nil]%elem_of_cons]%elem_of_cons
        [->|[->|[]%elem_of_nil]%elem_of_cons]%elem_of_cons; cbn; try done;
        intros Heq; by destruct Hne.
  - apply storeEncryptedData_Throw in Hrun as (_ & ls_mid & Hmid & Hlocal).
    apply (well_keyed_grow (sys_local s1) _
             [RecordKey (u, dt, uuid_of (sys_uuid s1)); IndexKey u]); [done|..].
    + assert (∀ k, holds ls_mid k → holds (sys_local s1) k ∨ k = IndexKey u) as Hmid'.
      { intros k Hk. destruct Hmid as [-> | ->]; [by left|by apply holds_cleared]. }
      intros k Hk. destruct Hlocal as [Hlocal|[item Hlocal]]; rewrite Hlocal in Hk.
      * destruct (Hmid' k Hk) as [?| ->]; [by left|right; right; by left].
      * destruct k as [k|u']; cbn in Hk.
        -- apply lookup_insert_is_Some' in Hk as [<-|Hk]; [right; by left|].
           destruct (Hmid' (RecordKey k) Hk) as [?|[=]]. by left.
        -- destruct (Hmid' (IndexKey u') Hk) as [?| ->]; [by left|right; right; by left].
    + intros k [->|[->|[]%elem_of_nil]%elem_of_cons]%elem_of_cons; done.
    + intros k k' [->|[->|[]%elem_of_nil]%elem_of_cons]%elem_of_cons
        [->|[->|[]%elem_of_nil]%elem_of_cons]%elem_of_cons; cbn; try done;
        intros Heq; by destruct Hne.
  - rewrite deleteEncryptedData_run in Hrun. cbn zeta in Hrun.
    apply (well_keyed_grow (sys_local s1) _ [IndexKey u]); [done|..].
    + intros k Hk. case_decide; injection Hrun as <- <-;
        cbn [set_local sys_local] in Hk; destruct k as [k|u']; cbn in Hk.
      * left. apply lookup_delete_is_Some in Hk as [_ Hk]. done.
      * apply lookup_insert_is_Some' in Hk as [<-|Hk]; [right; by left|by left].
      * left. apply lookup_delete_is_Some in Hk as [_ Hk]. done.
      * by left.
    + by intros k ->%list_elem_of_singleton.
    + by intros k k' ->%list_elem_of_singleton ->%list_elem_of_singleton.
Qed.

Lemma local_steps_well_keyed s s' :
  well_keyed (sys_local s) → rtc local_step s s' → well_keyed (sys_local s').
Proof. intros Hkeyed Hsteps. induction Hsteps; eauto using local_step_well_keyed. Qed.

End key_steps.


Section local_consistency.
Context `{R : Runtime}.

Lemma local_step_inv s s' :
  local_inv (sys_uuid s) (sys_local s) → local_step s s' →
  local_inv (sys_uuid s') (sys_local s').
Proof.
  intros Hinv Hstep.
  destruct Hstep as [u data dt key s1 id s2 _ Hrun
                    |u data dt key s1 error s2 _ Hrun Hclean
                    |u id dt s1 r s2 _ Htyped Hrun].
  - apply storeEncryptedData_Ok in Hrun
      as (item & t & ls_mid & Hmid & -> & -> & -> & Hq).
    assert (local_inv (sys_uuid s1) ls_mid) as Hinv_mid
      by (destruct Hmid as [-> | ->]; [done|by apply cleared_inv]).
    destruct ls_mid as [records indexes quota]. by apply insert_inv.
  - apply storeEncryptedData_Throw in Hrun as (Hle & ls_mid & Hmid & Hlocal).
    destruct Hlocal as [->|[item Hlocal]].
    + apply (local_inv_mono (sys_uuid s1)); [done|].
      destruct Hmid as [-> | ->]; [done|by apply cleared_inv].
    + (* the record of the call is in the store, under a fresh identifier *)
      exfalso. destruct Hinv as (_ & Hiff & Hissued & _).
      destruct (Hclean (u, dt, uuid_of (sys_uuid s1))) as [it Hit].
      { rewrite Hlocal. cbn [ls_records]. rewrite lookup_insert_eq. by eexists. }
      destruct (proj1 (Hiff u dt (uuid_of (sys_uuid s1)))) as (e & He & Hid & _);
        [by eexists|].
      destruct (Hissued u e He) as (m & Hm & Hid'). rewrite Hid' in Hid.
      apply (inj uuid_of) in Hid. lia.
  - rewrite deleteEncryptedData_run in Hrun. cbn zeta in Hrun.
    destruct (sys_local s1) as [records indexes quota] eqn:Hls.
    cbn [ls_records ls_indexes ls_quota] in Hrun.
    case_decide as Hfits; injection Hrun as <- <-;
      cbn [set_local sys_local sys_uuid].
    + by apply delete_inv.
    + destruct (indexes !! u) as [ix|] eqn:Hu.
      * destruct Hfits. etrans; [|apply Hinv].
        etrans; [|apply (usage_delete_record (u, dt, id))].
        apply (usage_replace_index u ix); [done|]. apply index_length_mono.
        assert (index_of u (mkLocalStore records indexes quota) = ix) as ->
          by (unfold index_of; simpl; by rewrite Hu).
        apply sum_entry_length_filter.
      * assert (records !! (u, dt, id) = None) as Hnone.
        { apply eq_None_not_Some. intros Hsome.
          destruct Hinv as (_ & Hiff & _). apply (Hiff u dt id) in Hsome as (e & He & _).
          unfold index_of in He. simpl in He. rewrite Hu in He.
          by apply elem_of_nil in He. }
        by rewrite delete_id.
Qed.

Lemma local_steps_inv s s' :
  local_inv (sys_uuid s) (sys_local s) → rtc local_step s s' →
  local_inv (sys_uuid s') (sys_local s').
Proof. intros Hinv Hsteps. induction Hsteps; eauto using local_step_inv. Qed.

(** C9, as the code has it.  From an empty local store, after any
    sequence of calls whose record key and index key are read and
    written under texts of their own (no other entry of the store has
    the same key text), being stores that return normally (the
    quota-eviction retry included) or throw without leaving their record
    in the store, and deletes that name the data type under which the
    identifier is indexed, the index of every user has as many entries
    as the user has records in the store, every entry has its record and
    every record its entry; and no two entries of the store have the
    same key text. *)
Theorem local_index_consistent (s0 s : Sys) (userId : string) :
  ls_records (sys_local s0) = ∅ →
  ls_indexes (sys_local s0) = ∅ →
  rtc local_step s0 s →
  index_consistent userId (sys_local s) ∧ well_keyed (sys_local s).
Proof.
  intros Hrecords Hindexes Hsteps.
  destruct (sys_local s0) as [records indexes quota] eqn:Hlocal. simpl in *. subst.
  split.
  - apply (local_inv_consistent (sys_uuid s)).
    apply (local_steps_inv s0); [|done].
    rewrite Hlocal. apply local_inv_empty.
  - apply (local_steps_well_keyed s0); [|done].
    rewrite Hlocal. apply well_keyed_empty.
Qed.

End local_consistency.

Section local_runs.
#[local] Existing Instance Toy.runtime.
Import Sample.



(** Store [true], store [false], delete the first of the two records. *)
Lemma one_record_left_steps :
  rtc local_step (sys_with (empty_local 5000) supabase_ready drive_ready) one_record_left.
Proof.
  eapply rtc_l.
  { eapply (local_step_store (R := Toy.runtime) "u1" (Toy.JBool true) "medicines" "secret").
    - apply (bool_decide_unpack _). vm_compute. reflexivity.
    - vm_compute. reflexivity. }
  eapply rtc_l.
  { eapply (local_step_store (R := Toy.runtime) "u1" (Toy.JBool false) "medicines" "secret").
    - apply (bool_decide_unpack _). vm_compute. reflexivity.
    - vm_compute. reflexivity. }
  eapply rtc_l; [|apply rtc_refl].
  eapply (local_step_delete (R := Toy.runtime) "u1" (uuid_of 0) "medicines").
  - apply (bool_decide_unpack _). vm_compute. reflexivity.
  - apply (Forall_forall (λ e, ie_id e = uuid_of 0 → ie_dataType e = "medicines")).
    match goal with |- Forall ?P ?l =>
      let l' := eval vm_compute in l in change (Forall P l') end.
    repeat (constructor; [intros _; reflexivity|]). constructor.
  - vm_compute. reflexivity.
Qed.

Lemma local_index_consistent_witness :
  ls_records (sys_local (sys_with (empty_local 5000) supabase_ready drive_ready)) = ∅
  ∧ ls_indexes (sys_local (sys_with (empty_local 5000) supabase_ready drive_ready)) = ∅
  ∧ rtc local_step (sys_with (empty_local 5000) supabase_ready drive_ready) one_record_left
  ∧ index_consistent "u1" (sys_local one_record_left)
  ∧ well_keyed (sys_local one_record_left).
Proof.
  split; [reflexivity|]. split; [reflexivity|]. split; [exact one_record_left_steps|].
  apply (local_index_consistent (R := Toy.runtime)
           (sys_with (empty_local 5000) supabase_ready drive_ready));
    [reflexivity|reflexivity|exact one_record_left_steps].
Defined.

(** C9, the part that fails.  The quota leaves room for the record and
    not for the index: the store throws after the record is written, and
    the user has one record and an empty index. *)
Lemma store_failure_leaves_orphan :
  (LocalStorage.storeEncryptedData "u1" (Toy.JBool true) "medicines" "secret"
     (sys_with (empty_local 300) supabase_ready drive_ready)).1
  = Throw (new_Error
      "Failed to store data locally: QuotaExceededError: The quota has been exceeded.")
  ∧ ¬ index_consistent "u1"
        (sys_local
           (LocalStorage.storeEncryptedData "u1" (Toy.JBool true) "medicines" "secret"
              (sys_with (empty_local 300) supabase_ready drive_ready)).2).
Proof.
  split; [vm_compute; reflexivity|].
  intros (_ & _ & Hentry).
  destruct (Hentry "medicines" (uuid_of 0)) as (e & He & _).
  - vm_compute. eauto.
  - vm_compute in He. inversion He.
Qed.

(** A delete that names another data type than the one the record was
    stored under removes the index entry and leaves the record. *)
Example delete_other_type_leaves_orphan :
  ∃ id s1 s2,
    LocalStorage.storeEncryptedData "u1" (Toy.JBool true) "medicines" "secret"
      (sys_with (empty_local 5000) supabase_ready drive_ready) = (Ok id, s1)
    ∧ LocalStorage.deleteEncryptedData "u1" id "sales" s1 = (Ok tt, s2)
    ∧ ¬ index_consistent "u1" (sys_local s2).
Proof.
  do 3 eexists. split; [vm_compute; reflexivity|]. split; [vm_compute; reflexivity|].
  intros (_ & _ & Hentry).
  destruct (Hentry "medicines" (uuid_of 0)) as (e & He & _).
  - vm_compute. eauto.
  - vm_compute in He. inversion He.
Qed.
End local_runs.

(* ------------------------------------------------------------------ *)
(** ** StorageManager: two syncs from the local store to the relational one *)

Lemma filter_selected_all u dt (rows : list EncryptedRow) :
  Forall (SupabaseStorage.selected u dt) rows →
  filter (SupabaseStorage.selected u dt) rows = rows.
Proof.
  induction 1 as [|row rows Hrow _ IH]; [done|].
  rewrite filter_cons, decide_True by done. by rewrite IH.
Qed.

Section sync_twice.
Context `{R : Runtime}.
Import StorageManager.

Lemma LocalStorage_retrieve_local_only u dt key s1 s2 :
  sys_local s1 = sys_local s2 →
  (LocalStorage.retrieveEncryptedData u dt key s1).1
  = (LocalStorage.retrieveEncryptedData u dt key s2).1.
Proof.
  intros Hlocal.
  unfold LocalStorage.retrieveEncryptedData, try_catch, bind, in_local, zoom,
    LocalStorage.getIndex, gets, of_result, ret, throw.
  cbn [fst snd]. rewrite Hlocal.
  by destruct (map_result _ _).
Qed.

Lemma SupabaseStorage_store_row u data dt key s rows text :
  supabase_holds rows s →
  JSON_stringify data = Some text →
  ∃ row s',
    SupabaseStorage.storeEncryptedData u data dt key s = (Ok (row_id row), s')
    ∧ SupabaseStorage.selected u dt row
    ∧ supabase_holds (rows ++ [row]) s'
    ∧ sys_local s' = sys_local s.
Proof.
  intros ([user Huser] & Hlisted & Hrows) Htext.
  eexists (mkEncryptedRow (uuid_of (sys_uuid s)) u dt
             (AES_encrypt (sys_salt s) text key) "supabase" (sys_now s) (sys_now s)).
  eexists. split; [|split; [done|]].
  - unfold SupabaseStorage.storeEncryptedData, try_catch, bind at 1, gets.
    rewrite Huser. unfold bind at 1. rewrite (encryptData_text _ _ _ _ Htext).
    unfold bind at 1, gets. cbn [sys_supabase]. rewrite Hlisted.
    unfold bind at 1, ret at 1.
    unfold SupabaseStorage.insert_row, bind, gets, randomUUID, Date_now, in_supabase,
      zoom, modify, ret.
    cbn [sys_supabase sys_uuid sys_now]. rewrite Hrows. cbn. reflexivity.
  - cbn. unfold supabase_holds. cbn. rewrite Huser, Hlisted. eauto.
Qed.

Lemma store_in_supabase_all cfg dt vs : ∀ w rows,
  Forall (λ v, is_Some (JSON_stringify v)) vs →
  supabase_holds rows (w_sys w) →
  ∃ added w',
    storeDataInSpecificStorage cfg vs dt supabase w = (Ok tt, w')
    ∧ supabase_holds (rows ++ added) (w_sys w')
    ∧ sys_local (w_sys w') = sys_local (w_sys w)
    ∧ length added = length vs
    ∧ Forall (SupabaseStorage.selected (userId cfg) dt) added.
Proof.
  unfold storeDataInSpecificStorage.
  induction vs as [|v vs IH]; intros w rows Hvs Hready.
  - exists [], w. rewrite app_nil_r. split; [done|]. split; [done|].
    split; [done|]. split; [done|constructor].
  - apply Forall_cons in Hvs as [[text Htext] Hvs].
    destruct (SupabaseStorage_store_row (userId cfg) v dt (encryptionKey cfg)
                (w_sys w) rows text Hready Htext)
      as (row & s1 & Hrun & Hsel & Hready1 & Hlocal1).
    destruct (IH (mkWorld s1 (w_calls w ++ [CallStore supabase])) (rows ++ [row]) Hvs Hready1)
      as (added & w' & Hrest & Hready' & Hlocal' & Hlen & Hall).
    exists (row :: added), w'. split; [|split; [|split; [|split]]].
    + simpl. unfold bind at 1, bind at 1, store_in, bind at 1, called, modify, in_sys, zoom.
      cbn [w_sys w_calls]. rewrite Hrun. unfold ret at 1. exact Hrest.
    + by rewrite <- app_assoc in Hready'.
    + by rewrite Hlocal'.
    + simpl. by rewrite Hlen.
    + by constructor.
Qed.

Lemma syncData_local_to_supabase cfg dt w rows vs :
  enabledStorages cfg = [local; supabase] →
  supabase_holds rows (w_sys w) →
  (LocalStorage.retrieveEncryptedData (userId cfg) dt (encryptionKey cfg) (w_sys w)).1
  = Ok vs →
  Forall (λ v, is_Some (JSON_stringify v)) vs →
  ∃ added w',
    syncData cfg dt w = (Ok tt, w')
    ∧ supabase_holds (rows ++ added) (w_sys w')
    ∧ sys_local (w_sys w') = sys_local (w_sys w)
    ∧ length added = length vs
    ∧ Forall (SupabaseStorage.selected (userId cfg) dt) added.
Proof.
  intros Hcfg Hready Hread Hvs.
  destruct (LocalStorage.retrieveEncryptedData (userId cfg) dt (encryptionKey cfg) (w_sys w))
    as [r s1] eqn:Hrun.
  pose proof (LocalStorage_retrieve_reads _ _ _ _ _ _ Hrun) as [-> _].
  simpl in Hread. subst r.
  destruct (store_in_supabase_all cfg dt vs
              (mkWorld (w_sys w) (w_calls w ++ [CallRetrieve local])) rows Hvs Hready)
    as (added & w' & Hstore & Hrest).
  exists added, w'. split; [|exact Hrest].
  unfold syncData, try_catch, bind at 1, read_primary. rewrite Hcfg. simpl.
  unfold bind at 1, called, modify, in_sys, zoom. cbn [w_sys w_calls]. rewrite Hrun.
  unfold bind, ret. by rewrite Hstore.
Qed.

(** The duplication C4 describes, where [syncData] does copy: the local
    store first, the relational store second and ready for inserts,
    holding no row of the user and type.  If the local store yields [n]
    values, each with a JSON text, then two calls of [syncData] return
    normally and leave [2 * n] rows of that user and type. *)
Lemma syncData_twice_duplicates cfg dt w rows vs :
  enabledStorages cfg = [local; supabase] →
  supabase_holds rows (w_sys w) →
  filter (SupabaseStorage.selected (userId cfg) dt) rows = [] →
  (LocalStorage.retrieveEncryptedData (userId cfg) dt (encryptionKey cfg) (w_sys w)).1
  = Ok vs →
  Forall (λ v, is_Some (JSON_stringify v)) vs →
  ∃ rows' w',
    (syncData cfg dt ;; syncData cfg dt) w = (Ok tt, w')
    ∧ sb_encrypted_data (sys_supabase (w_sys w')) = Some rows'
    ∧ length (filter (SupabaseStorage.selected (userId cfg) dt) rows') = 2 * length vs.
Proof.
  intros Hcfg Hready Hempty Hread Hvs.
  destruct (syncData_local_to_supabase cfg dt w rows vs Hcfg Hready Hread Hvs)
    as (added1 & w1 & Hrun1 & Hready1 & Hlocal1 & Hlen1 & Hsel1).
  assert ((LocalStorage.retrieveEncryptedData (userId cfg) dt (encryptionKey cfg)
             (w_sys w1)).1 = Ok vs) as Hread1.
  { rewrite <- Hread. by apply LocalStorage_retrieve_local_only. }
  destruct (syncData_local_to_supabase cfg dt w1 _ vs Hcfg Hready1 Hread1 Hvs)
    as (added2 & w2 & Hrun2 & Hready2 & Hlocal2 & Hlen2 & Hsel2).
  exists ((rows ++ added1) ++ added2), w2. split; [|split].
  - unfold bind. by rewrite Hrun1.
  - apply Hready2.
  - rewrite !filter_app, Hempty, !filter_selected_all by done.
    rewrite length_app. simpl. lia.
Qed.

End sync_twice.

(* ------------------------------------------------------------------ *)
(** ** EncryptionService: from word arrays to bytes *)

Lemma byte_of_word (x : Z) (k : Z) :
  (0 ≤ k)%Z → Z.land (Z.shiftr x k) 255 = ((x / 2 ^ k) mod 256)%Z.
Proof.
  intros Hk. rewrite Z.shiftr_div_pow2 by done.
  change 255%Z with (Z.ones 8). by rewrite Z.land_ones.
Qed.

Lemma byte_at_range (wordArray : EncryptionService.WordArray) (i : nat) :
  (0 ≤ EncryptionService.byte_at wordArray i < 256)%Z.
Proof.
  unfold EncryptionService.byte_at. rewrite byte_of_word.
  - apply Z.mod_pos_bound. lia.
  - pose proof (Nat.mod_upper_bound i 4). lia.
Qed.

(** X1.  [wordArrayToArrayBuffer] writes exactly [sigBytes] bytes, each
    between 0 and 255, whatever the words are (negative, beyond 32 bits,
    or fewer than [sigBytes] asks for). *)
Theorem wordArrayToArrayBuffer_bytes (wordArray : EncryptionService.WordArray) :
  length (EncryptionService.wordArrayToArrayBuffer wordArray)
  = EncryptionService.sigBytes wordArray
  ∧ Forall (λ b, (0 ≤ b < 256)%Z) (EncryptionService.wordArrayToArrayBuffer wordArray).
Proof.
  unfold EncryptionService.wordArrayToArrayBuffer. split.
  - by rewrite length_fmap, length_seq.
  - apply Forall_fmap, Forall_forall. intros i _. apply byte_at_range.
Qed.

Lemma byte_at_word (wordArray : EncryptionService.WordArray) (j k : nat) (w : Z) :
  EncryptionService.words wordArray !! j = Some w → k < 4 →
  EncryptionService.byte_at wordArray (4 * j + k)
  = ((EncryptionService.to_uint32 w / 2 ^ (24 - Z.of_nat k * 8)) mod 256)%Z.
Proof.
  intros Hw Hk. unfold EncryptionService.byte_at.
  replace ((4 * j + k) / 4) with j by (apply Nat.div_unique with k; lia).
  replace ((4 * j + k) mod 4) with k by (apply Nat.mod_unique with j; lia).
  rewrite Hw. simpl. apply byte_of_word. lia.
Qed.

(** X2.  The four bytes written for a word are its big-endian digits in
    base 256: put together again they give the word modulo [2^32]. *)
Theorem wordArrayToArrayBuffer_big_endian (wordArray : EncryptionService.WordArray)
    (j : nat) (w : Z) :
  EncryptionService.words wordArray !! j = Some w →
  4 * j + 3 < EncryptionService.sigBytes wordArray →
  ∃ b0 b1 b2 b3,
    EncryptionService.wordArrayToArrayBuffer wordArray !! (4 * j) = Some b0
    ∧ EncryptionService.wordArrayToArrayBuffer wordArray !! (4 * j + 1) = Some b1
    ∧ EncryptionService.wordArrayToArrayBuffer wordArray !! (4 * j + 2) = Some b2
    ∧ EncryptionService.wordArrayToArrayBuffer wordArray !! (4 * j + 3) = Some b3
    ∧ (b0 * 2 ^ 24 + b1 * 2 ^ 16 + b2 * 2 ^ 8 + b3 = w mod 2 ^ 32)%Z.
Proof.
  intros Hw Hlen.
  assert (∀ k, k < 4 →
            EncryptionService.wordArrayToArrayBuffer wordArray !! (4 * j + k)
            = Some (EncryptionService.byte_at wordArray (4 * j + k))) as Hbyte.
  { intros k Hk. unfold EncryptionService.wordArrayToArrayBuffer.
    rewrite list_lookup_fmap, lookup_seq_lt by lia. done. }
  exists (EncryptionService.byte_at wordArray (4 * j + 0)),
         (EncryptionService.byte_at wordArray (4 * j + 1)),
         (EncryptionService.byte_at wordArray (4 * j + 2)),
         (EncryptionService.byte_at wordArray (4 * j + 3)).
  split; [rewrite <- (Hbyte 0) by lia; f_equal; lia|].
  split; [apply Hbyte; lia|]. split; [apply Hbyte; lia|]. split; [apply Hbyte; lia|].
  rewrite !(byte_at_word _ _ _ w) by (done || lia).
  unfold EncryptionService.to_uint32.
  change (24 - Z.of_nat 0 * 8)%Z with 24%Z. change (24 - Z.of_nat 1 * 8)%Z with 16%Z.
  change (24 - Z.of_nat 2 * 8)%Z with 8%Z. change (24 - Z.of_nat 3 * 8)%Z with 0%Z.
  set (x := (w mod 2 ^ 32)%Z).
  assert (0 ≤ x < 2 ^ 32)%Z as Hx by (apply Z.mod_pos_bound; lia).
  clearbody x. change (2 ^ 32)%Z with 4294967296%Z in Hx.
  change (2 ^ 24)%Z with 16777216%Z. change (2 ^ 16)%Z with 65536%Z.
  change (2 ^ 8)%Z with 256%Z. change (2 ^ 0)%Z with 1%Z.
  Z.to_euclidean_division_equations. lia.
Qed.

Lemma wordArrayToArrayBuffer_big_endian_witness :
  EncryptionService.words (EncryptionService.mkWordArray [(-2)%Z; 305419896%Z] 8) !! 0
  = Some (-2)%Z
  ∧ 4 * 0 + 3 < EncryptionService.sigBytes
                  (EncryptionService.mkWordArray [(-2)%Z; 305419896%Z] 8)
  ∧ ∃ b0 b1 b2 b3,
      EncryptionService.wordArrayToArrayBuffer
        (EncryptionService.mkWordArray [(-2)%Z; 305419896%Z] 8) !! (4 * 0) = Some b0
      ∧ EncryptionService.wordArrayToArrayBuffer
          (EncryptionService.mkWordArray [(-2)%Z; 305419896%Z] 8) !! (4 * 0 + 1) = Some b1
      ∧ EncryptionService.wordArrayToArrayBuffer
          (EncryptionService.mkWordArray [(-2)%Z; 305419896%Z] 8) !! (4 * 0 + 2) = Some b2
      ∧ EncryptionService.wordArrayToArrayBuffer
          (EncryptionService.mkWordArray [(-2)%Z; 305419896%Z] 8) !! (4 * 0 + 3) = Some b3
      ∧ (b0 * 2 ^ 24 + b1 * 2 ^ 16 + b2 * 2 ^ 8 + b3 = (-2) mod 2 ^ 32)%Z.
Proof.
  split; [reflexivity|]. split; [simpl; lia|].
  apply wordArrayToArrayBuffer_big_endian; [reflexivity|simpl; lia].
Defined.

Example wordArrayToArrayBuffer_sample :
  EncryptionService.wordArrayToArrayBuffer
    (EncryptionService.mkWordArray [(-2)%Z; 305419896%Z] 7)
  = [255; 255; 255; 254; 18; 52; 86]%Z.
Proof. vm_compute. reflexivity. Qed.

(* ------------------------------------------------------------------ *)
(** ** StorageManager: longer lists of backends *)

Section longer_lists.
Context `{R : Runtime}.
Import StorageManager.

Lemma retrieveData_loop_ext cfg cfg' dataType l errors w :
  userId cfg' = userId cfg → encryptionKey cfg' = encryptionKey cfg →
  retrieveData_loop cfg' dataType l errors w = retrieveData_loop cfg dataType l errors w.
Proof.
  intros Hu Hk. revert errors w. induction l as [|storage rest IH]; intros errors w; [done|].
  simpl. unfold try_catch.
  assert (retrieve_from cfg' storage dataType w = retrieve_from cfg storage dataType w) as ->.
  { unfold retrieve_from, retrieve_google_drive. by rewrite Hu, Hk. }
  destruct (retrieve_from cfg storage dataType w) as [[data|error] w1]; [done|]. apply IH.
Qed.

Lemma retrieveData_loop_app cfg dataType l more : ∀ errors w,
  match retrieveData_loop cfg dataType l errors w with
  | (Ok data, w') =>
      retrieveData_loop cfg dataType (l ++ more) errors w = (Ok data, w')
  | (Throw e, w') =>
      ∃ errs, e = all_failed errs
              ∧ retrieveData_loop cfg dataType (l ++ more) errors w
                = retrieveData_loop cfg dataType more errs w'
  end.
Proof.
  induction l as [|storage rest IH]; intros errors w; simpl.
  - exists errors. done.
  - unfold try_catch.
    destruct (retrieve_from cfg storage dataType w) as [[data|error] w1]; [done|].
    apply IH.
Qed.

(** X3.  Backends added at the end of the list of enabled backends do
    not change a read that succeeds: [retrieveData] returns the same data
    and leaves the same world, without calling any of the added backends.
    They are tried, in order, only after every earlier backend has
    thrown. *)
Theorem retrieveData_append (cfg cfg' : StorageConfig) (more : list StorageOption)
    (dataType : string) (w : World) :
  userId cfg' = userId cfg → encryptionKey cfg' = encryptionKey cfg →
  enabledStorages cfg' = enabledStorages cfg ++ more →
  match retrieveData cfg dataType w with
  | (Ok data, w') => retrieveData cfg' dataType w = (Ok data, w')
  | (Throw e, w') =>
      ∃ errs, e = all_failed errs
              ∧ retrieveData cfg' dataType w = retrieveData_loop cfg dataType more errs w'
  end.
Proof.
  intros Hu Hk Hl. unfold retrieveData. rewrite Hl, (retrieveData_loop_ext cfg cfg') by done.
  apply retrieveData_loop_app.
Qed.

End longer_lists.

Section longer_lists_runs.
#[local] Existing Instance Toy.runtime.
Import StorageManager Sample.

Lemma retrieveData_append_witness :
  userId (config [local; google_drive]) = userId (config [local])
  ∧ encryptionKey (config [local; google_drive]) = encryptionKey (config [local])
  ∧ enabledStorages (config [local; google_drive])
    = enabledStorages (config [local]) ++ [google_drive]
  ∧ match retrieveData (config [local]) "medicines"
            (world_with local_with_record supabase_ready drive_ready) with
    | (Ok data, w') =>
        retrieveData (config [local; google_drive]) "medicines"
          (world_with local_with_record supabase_ready drive_ready) = (Ok data, w')
    | (Throw e, w') =>
        ∃ errs, e = all_failed errs
                ∧ retrieveData (config [local; google_drive]) "medicines"
                    (world_with local_with_record supabase_ready drive_ready)
                  = retrieveData_loop (config [local]) "medicines" [google_drive] errs w'
    end.
Proof.
  split; [reflexivity|]. split; [reflexivity|]. split; [reflexivity|].
  apply (retrieveData_append (config [local]) (config [local; google_drive]) [google_drive]);
    reflexivity.
Defined.

End longer_lists_runs.

(* ------------------------------------------------------------------ *)
(** ** StorageManager: the calls of a sync *)

Section sync_calls.
Context `{R : Runtime}.
Import StorageManager.

(** The store calls a sync makes for [n] values and the backends [l]:
    backend by backend, [n] calls each. *)
Lemma storeDataInSpecificStorage_calls cfg dt storage vs : ∀ w,
  match storeDataInSpecificStorage cfg vs dt storage w with
  | (Ok _, w') => w_calls w' = w_calls w ++ replicate (length vs) (CallStore storage)
  | (Throw _, w') =>
      ∃ k, k < length vs ∧ w_calls w' = w_calls w ++ replicate (S k) (CallStore storage)
  end.
Proof.
  unfold storeDataInSpecificStorage.
  induction vs as [|v vs IH]; intros w; simpl.
  - unfold ret. by rewrite app_nil_r.
  - unfold bind at 1, bind at 1.
    pose proof (store_in_calls cfg storage v dt w) as Hcalls.
    destruct (store_in cfg storage v dt w) as [[id|e] w1]; simpl in Hcalls.
    + unfold ret at 1. specialize (IH w1).
      destruct (for_each vs _ w1) as [[[]|e] w2].
      * rewrite IH, Hcalls, <- app_assoc. done.
      * destruct IH as (k & Hk & IH). exists (S k). split; [lia|].
        rewrite IH, Hcalls, <- app_assoc. done.
    + exists 0. split; [lia|]. done.
Qed.

Lemma sync_stores_calls cfg dt vs l : ∀ w,
  match for_each l (λ storage, storeDataInSpecificStorage cfg vs dt storage) w with
  | (Ok _, w') =>
      w_calls w' = w_calls w ++ (l ≫= λ storage, replicate (length vs) (CallStore storage))
  | (Throw _, w') =>
      ∃ pre storage post k,
        l = pre ++ storage :: post ∧ k < length vs
        ∧ w_calls w'
          = w_calls w ++ (pre ≫= λ storage, replicate (length vs) (CallStore storage))
            ++ replicate (S k) (CallStore storage)
  end.
Proof.
  induction l as [|storage rest IH]; intros w; simpl.
  - unfold ret. by rewrite app_nil_r.
  - unfold bind at 1.
    pose proof (storeDataInSpecificStorage_calls cfg dt storage vs w) as Hone.
    destruct (storeDataInSpecificStorage cfg vs dt storage w) as [[[]|e] w1].
    + specialize (IH w1).
      destruct (for_each rest _ w1) as [[[]|e] w2].
      * rewrite IH, Hone, <- app_assoc. done.
      * destruct IH as (pre & b & post & k & -> & Hk & IH).
        exists (storage :: pre), b, post, k. split; [done|]. split; [done|].
        rewrite IH, Hone. csimpl. by rewrite <- !app_assoc.
    + destruct Hone as (k & Hk & Hone).
      exists [], storage, rest, k. split; [done|]. split; [done|]. done.
Qed.

Lemma read_primary_reads cfg dt w r w1 :
  read_primary cfg dt w = (r, w1) →
  w_sys w1 = w_sys w
  ∧ (∀ o, CallStore o ∈ w_calls w1 → CallStore o ∈ w_calls w).
Proof.
  unfold read_primary. destruct (head (enabledStorages cfg)) as [[]|].
  - intros [= <- <-]. done.
  - unfold bind, called, modify, in_sys, zoom. cbn [w_sys w_calls].
    destruct (SupabaseStorage.retrieveEncryptedData _ _ _ _) as [r1 s1] eqn:Hrun.
    apply SupabaseStorage_retrieve_reads in Hrun as [-> _].
    intros [= <- <-]. cbn. split; [done|]. intros o.
    rewrite elem_of_app, list_elem_of_singleton. by intros [?|?].
  - unfold bind, called, modify, in_sys, zoom. cbn [w_sys w_calls].
    destruct (LocalStorage.retrieveEncryptedData _ _ _ _) as [r1 s1] eqn:Hrun.
    apply LocalStorage_retrieve_reads in Hrun as [-> _].
    intros [= <- <-]. cbn. split; [done|]. intros o.
    rewrite elem_of_app, list_elem_of_singleton. by intros [?|?].
  - intros [= <- <-]. done.
Qed.

(** X4.  When the read of the primary backend throws, [syncData] throws
    the same error wrapped as "Sync failed: ..", the stores are as they
    were before the call, and no backend has been asked to store
    anything. *)
Theorem syncData_read_failure (cfg : StorageConfig) (dataType : string) (w : World)
    (error : JsError) (w1 : World) :
  read_primary cfg dataType w = (Throw error, w1) →
  ∃ w', syncData cfg dataType w
        = (Throw (new_Error ("Sync failed: " +:+ toString error)), w')
        ∧ w_sys w' = w_sys w
        ∧ ∀ storage, CallStore storage ∈ w_calls w' → CallStore storage ∈ w_calls w.
Proof.
  intros Hread. exists w1.
  destruct (read_primary_reads _ _ _ _ _ Hread) as [Hsys Hcalls].
  split; [|done].
  unfold syncData, try_catch, bind. by rewrite Hread.
Qed.

(** X5.  The store calls of a sync.  If the primary backend yields [n]
    values, a sync that returns normally has asked every other enabled
    backend, in the order of the list, to store [n] times; a sync that
    throws has stopped in the middle of one backend and has not called
    the backends after it. *)
Theorem syncData_calls (cfg : StorageConfig) (dataType : string) (w : World)
    (primaryData : list Value) (w1 : World) :
  read_primary cfg dataType w = (Ok primaryData, w1) →
  match syncData cfg dataType w with
  | (Ok _, w') =>
      w_calls w'
      = w_calls w1
        ++ (tail (enabledStorages cfg)
              ≫= λ storage, replicate (length primaryData) (CallStore storage))
  | (Throw _, w') =>
      ∃ pre storage post k,
        tail (enabledStorages cfg) = pre ++ storage :: post
        ∧ k < length primaryData
        ∧ w_calls w'
          = w_calls w1
            ++ (pre ≫= λ storage, replicate (length primaryData) (CallStore storage))
            ++ replicate (S k) (CallStore storage)
  end.
Proof.
  intros Hread.
  pose proof (sync_stores_calls cfg dataType primaryData (tail (enabledStorages cfg)) w1)
    as Hstores.
  unfold syncData, try_catch, bind. rewrite Hread.
  destruct (for_each _ _ w1) as [[[]|e] w2]; [done|]. unfold throw. done.
Qed.

End sync_calls.

Section sync_calls_runs.
#[local] Existing Instance Toy.runtime.
Import StorageManager Sample.

Lemma syncData_read_failure_witness :
  read_primary (config [supabase; local]) "medicines"
    (world_with (empty_local 5000) supabase_no_table drive_ready)
  = (Throw (new_Error
       "Failed to retrieve data from Supabase: [object Object]"),
     mkWorld (sys_with (empty_local 5000) supabase_no_table drive_ready)
       [CallRetrieve supabase])
  ∧ ∃ w', syncData (config [supabase; local]) "medicines"
            (world_with (empty_local 5000) supabase_no_table drive_ready)
          = (Throw (new_Error ("Sync failed: " +:+ toString (new_Error
               "Failed to retrieve data from Supabase: [object Object]"))),
             w')
          ∧ w_sys w' = w_sys (world_with (empty_local 5000) supabase_no_table drive_ready)
          ∧ ∀ storage, CallStore storage ∈ w_calls w' →
              CallStore storage
              ∈ w_calls (world_with (empty_local 5000) supabase_no_table drive_ready).
Proof.
  split; [vm_compute; reflexivity|].
  apply (syncData_read_failure (config [supabase; local]) "medicines"
           (world_with (empty_local 5000) supabase_no_table drive_ready) _
           (mkWorld (sys_with (empty_local 5000) supabase_no_table drive_ready)
              [CallRetrieve supabase])).
  vm_compute; reflexivity.
Defined.

Lemma syncData_calls_witness :
  read_primary (config [supabase; local; google_drive]) "medicines"
    (world_with (empty_local 5000) supabase_with_paracetamol drive_ready)
  = (Ok [paracetamol],
     mkWorld (sys_with (empty_local 5000) supabase_with_paracetamol drive_ready)
       [CallRetrieve supabase])
  ∧ match syncData (config [supabase; local; google_drive]) "medicines"
            (world_with (empty_local 5000) supabase_with_paracetamol drive_ready) with
    | (Ok _, w') =>
        w_calls w'
        = [CallRetrieve supabase]
          ++ (tail (enabledStorages (config [supabase; local; google_drive]))
                ≫= λ storage, replicate (length [paracetamol]) (CallStore storage))
    | (Throw _, w') =>
        ∃ pre storage post k,
          tail (enabledStorages (config [supabase; local; google_drive]))
          = pre ++ storage :: post
          ∧ k < length [paracetamol]
          ∧ w_calls w'
            = [CallRetrieve supabase]
              ++ (pre ≫= λ storage, replicate (length [paracetamol]) (CallStore storage))
              ++ replicate (S k) (CallStore storage)
    end.
Proof.
  split; [vm_compute; reflexivity|].
  apply (syncData_calls (R := Toy.runtime)
           (config [supabase; local; google_drive]) "medicines"
           (world_with (empty_local 5000) supabase_with_paracetamol drive_ready)
           [paracetamol]
           (mkWorld (sys_with (empty_local 5000) supabase_with_paracetamol drive_ready)
              [CallRetrieve supabase])).
  vm_compute; reflexivity.
Defined.

(** A sync stops at the first store that throws: with nobody signed in
    to the relational store, the file store that comes after it is not
    called, although it is ready. *)
Example syncData_stops_at_failure :
  w_calls (syncData (config [local; supabase; google_drive]) "medicines"
             (world_with local_with_paracetamol supabase_signed_out drive_ready)).2
  = [CallRetrieve local; CallStore supabase].
Proof. vm_compute; reflexivity. Qed.

End sync_calls_runs.

(* ------------------------------------------------------------------ *)
(** ** LocalStorage: statistics and clearing a user *)



Lemma user_records_lookup u dt id ls :
  user_records u ls !! (u, dt, id) = ls_records ls !! (u, dt, id).
Proof.
  unfold user_records. apply option_eq. intros it.
  rewrite map_lookup_filter_Some. split; [by intros [? _]|by intros ?].
Qed.



Lemma evict_other u entries records other dt id :
  other ≠ u →
  evict u entries records !! (other, dt, id) = records !! (other, dt, id).
Proof.
  intros Hother. apply option_eq. intros it.
  rewrite evict_lookup_Some. split; [by intros [? _]|].
  intros Hit. split; [done|]. intros e _ [= ? _ _]. done.
Qed.

Lemma user_records_evict_other u entries records indexes indexes' quota other :
  other ≠ u →
  user_records other (mkLocalStore (evict u entries records) indexes' quota)
  = user_records other (mkLocalStore records indexes quota).
Proof.
  intros Hother. unfold user_records. cbn [ls_records]. apply map_eq. intros [[u' dt] id].
  apply option_eq. intros it. rewrite !map_lookup_filter_Some. cbn.
  split; intros [Hit ->]; (split; [|done]).
  - by rewrite evict_other in Hit.
  - by rewrite evict_other.
Qed.

Lemma usage_delete_index u records indexes quota :
  LocalStorage.usage (mkLocalStore records (delete u indexes) quota)
  ≤ LocalStorage.usage (mkLocalStore records indexes quota).
Proof.
  unfold LocalStorage.usage. cbn [ls_records ls_indexes].
  destruct (indexes !! u) as [ix|] eqn:Hix.
  - rewrite (indexes_fold_delete u ix indexes Hix). lia.
  - by rewrite delete_id.
Qed.

Lemma clearUserData_run u s :
  LocalStorage.clearUserData u s
  = (Ok tt,
     set_local (mkLocalStore
                  (evict u (index_of u (sys_local s)) (ls_records (sys_local s)))
                  (delete u (ls_indexes (sys_local s))) (ls_quota (sys_local s))) s).
Proof.
  unfold LocalStorage.clearUserData, try_catch, bind at 1.
  unfold in_local at 1, zoom, LocalStorage.getIndex, gets. cbn [fst snd].
  rewrite set_local_same. unfold bind. rewrite for_each_removeItem.
  unfold in_local, zoom, LocalStorage.removeItem_index, modify. cbn.
  unfold set_local. cbn. done.
Qed.

(** X7.  [clearUserData].  In a store that satisfies the invariant of
    the index, in which no two entries have the same key text and no
    entry has the text of the user's index key (apart from that index),
    it returns, leaves the user with no record and an empty index,
    leaves the records and the index of every other user as they were,
    and keeps the invariant and the distinct key texts. *)
Theorem clearUserData_clears (n : nat) (userId : string) (s : Sys) :
  local_inv n (sys_local s) →
  well_keyed (sys_local s) →
  own_text (sys_local s) (IndexKey userId) →
  ∃ s',
    LocalStorage.clearUserData userId s = (Ok tt, s')
    ∧ user_records userId (sys_local s') = ∅
    ∧ index_of userId (sys_local s') = []
    ∧ (∀ other, other ≠ userId →
         user_records other (sys_local s') = user_records other (sys_local s)
         ∧ index_of other (sys_local s') = index_of other (sys_local s))
    ∧ local_inv n (sys_local s')
    ∧ well_keyed (sys_local s').
Proof.
  intros Hinv Hkeyed _. eexists. split; [apply clearUserData_run|].
  assert (well_keyed (mkLocalStore
            (evict userId (index_of userId (sys_local s)) (ls_records (sys_local s)))
            (delete userId (ls_indexes (sys_local s))) (ls_quota (sys_local s))))
    as Hkeyed'.
  { apply (well_keyed_grow (sys_local s) _ []); [done| |by intros ? ?%elem_of_nil
                                                    |by intros ? ? ?%elem_of_nil].
    intros [k|u] Hk; cbn in Hk; left; cbn.
    - destruct Hk as [it Hit]. apply evict_lookup_Some in Hit as [Hit _]. by eexists.
    - by apply lookup_delete_is_Some in Hk as [_ Hk]. }
  revert Hkeyed'. clear Hkeyed.
  destruct s as [now uuid salt [records indexes quota] sb d]. intros Hkeyed'.
  cbn [set_local sys_local ls_records ls_indexes ls_quota] in *.
  pose proof Hinv as (Hnodup & Hiff & Hids & Huse).
  set (ix := index_of userId (mkLocalStore records indexes quota)) in *.
  assert (user_records userId (mkLocalStore (evict userId ix records)
            (delete userId indexes) quota) = ∅) as Hnone.
  { apply map_empty. intros [[u dt] id]. apply eq_None_not_Some. intros [it Hit].
    apply map_lookup_filter_Some in Hit as [Hit Hu]. simpl in Hu. subst u.
    cbn [ls_records] in Hit. apply evict_lookup_Some in Hit as [Hrec Hnot].
    destruct (proj1 (Hiff userId dt id)) as (e & He & <- & <-); [by eexists|].
    by apply (Hnot e He). }
  assert (index_of userId (mkLocalStore (evict userId ix records)
            (delete userId indexes) quota) = []) as Hnil.
  { unfold index_of. cbn. by rewrite lookup_delete_eq. }
  assert (∀ other, other ≠ userId →
            index_of other (mkLocalStore (evict userId ix records)
              (delete userId indexes) quota)
            = index_of other (mkLocalStore records indexes quota)) as Hix.
  { intros other Hother. unfold index_of. cbn. by rewrite lookup_delete_ne. }
  split; [done|]. split; [done|]. split; [|split; [|done]; split; [|split; [|split]]].
  - intros other Hother. split; [|by apply Hix].
    by apply user_records_evict_other.
  - intros u. destruct (decide (u = userId)) as [->|Hu].
    + rewrite Hnil. constructor.
    + rewrite Hix by done. apply Hnodup.
  - intros u dt id. destruct (decide (u = userId)) as [->|Hu].
    + rewrite Hnil. split.
      * intros Hit. exfalso.
        assert (is_Some (user_records userId (mkLocalStore (evict userId ix records)
                  (delete userId indexes) quota) !! (userId, dt, id))) as Hsome
          by by rewrite user_records_lookup.
        rewrite Hnone, lookup_empty in Hsome. by destruct Hsome.
      * intros (e & He & _). by apply elem_of_nil in He.
    + rewrite Hix by done. cbn [ls_records]. rewrite evict_other by done. apply Hiff.
  - intros u e. destruct (decide (u = userId)) as [->|Hu].
    + rewrite Hnil. by intros ?%elem_of_nil.
    + rewrite Hix by done. apply Hids.
  - cbn [ls_quota] in *. etrans; [apply usage_delete_index|].
    etrans; [apply usage_evict|]. exact Huse.
Qed.

Section local_stats_runs.
#[local] Existing Instance Toy.runtime.
Import Sample.

Lemma one_record_left_inv : local_inv 2 (sys_local one_record_left).
Proof.
  apply (local_steps_inv (R := Toy.runtime)
           (sys_with (empty_local 5000) supabase_ready drive_ready) one_record_left).
  - apply local_inv_empty.
  - exact one_record_left_steps.
Qed.

Lemma one_record_left_keyed :
  well_keyed (sys_local one_record_left)
  ∧ own_text (sys_local one_record_left) (IndexKey "u1").
Proof. split; apply (bool_decide_unpack _); vm_compute; reflexivity. Qed.


Lemma clearUserData_clears_witness :
  local_inv 2 (sys_local one_record_left)
  ∧ well_keyed (sys_local one_record_left)
  ∧ own_text (sys_local one_record_left) (IndexKey "u1")
  ∧ ∃ s',
      LocalStorage.clearUserData "u1" one_record_left = (Ok tt, s')
      ∧ user_records "u1" (sys_local s') = ∅
      ∧ index_of "u1" (sys_local s') = []
      ∧ (∀ other, other ≠ "u1" →
           user_records other (sys_local s') = user_records other (sys_local one_record_left)
           ∧ index_of other (sys_local s') = index_of other (sys_local one_record_left))
      ∧ local_inv 2 (sys_local s')
      ∧ well_keyed (sys_local s').
Proof.
  split; [exact one_record_left_inv|].
  split; [exact (proj1 one_record_left_keyed)|].
  split; [exact (proj2 one_record_left_keyed)|].
  apply (clearUserData_clears 2 "u1" one_record_left one_record_left_inv
           (proj1 one_record_left_keyed) (proj2 one_record_left_keyed)).
Defined.

(** Without the invariant the user is not cleared: the record a failed
    store left behind has no index entry and survives. *)
Example clearUserData_keeps_orphan :
  ∃ error s1 s2,
    LocalStorage.storeEncryptedData "u1" (Toy.JBool true) "medicines" "secret"
      (sys_with (empty_local 300) supabase_ready drive_ready) = (Throw error, s1)
    ∧ LocalStorage.clearUserData "u1" s1 = (Ok tt, s2)
    ∧ size (user_records "u1" (sys_local s2)) = 1.
Proof. do 3 eexists. split; [|split]; vm_compute; reflexivity. Qed.

End local_stats_runs.

(* ------------------------------------------------------------------ *)
(** ** StorageManager: statistics *)

Lemma listEncryptedFiles_frame s r s' :
  GoogleDriveStorage.listEncryptedFiles s = (r, s') →
  sys_local s' = sys_local s ∧ sys_supabase s' = sys_supabase s.
Proof.
  unfold GoogleDriveStorage.listEncryptedFiles, GoogleDriveStorage.getOrCreateFolder,
    GoogleDriveStorage.createEncryptedFolder, GoogleDriveStorage.require_token,
    GoogleDriveStorage.fetch, bind, gets, throw, ret, randomUUID, in_drive, zoom, modify.
  cbn. intros Hrun.
  repeat (case_match; simplify_eq/=; try done).
Qed.

Section stats_facts.
Variable formatBytes : nat → string.
Import StorageManager.

Lemma stats_of_frame cfg storage s r s' :
  stats_of formatBytes cfg storage s = (r, s') →
  sys_local s' = sys_local s ∧ sys_supabase s' = sys_supabase s.
Proof.
  destruct storage; simpl.
  - unfold bind, ret.
    destruct (GoogleDriveStorage.listEncryptedFiles s) as [[files|e] s1] eqn:Hlist;
      apply listEncryptedFiles_frame in Hlist.
    all: by intros [= <- <-].
  - unfold bind, SupabaseStorage.listUserData, try_catch, gets, throw, ret.
    cbn. destruct (sb_encrypted_data (sys_supabase s)); cbn; by intros [= <- <-].
  - unfold bind, LocalStorage.getStorageStats, bind, in_local, zoom, LocalStorage.getIndex,
      gets, ret. cbn. rewrite set_local_same. by intros [= <- <-].
Qed.

Lemma stats_of_local cfg s :
  stats_of formatBytes cfg local s
  = (Ok (StatsLocal (LocalStorage.mkLocalStats
           (length (index_of (userId cfg) (sys_local s)))
           (formatBytes (LocalStorage.totalSize (userId cfg) (sys_local s)
                           (index_of (userId cfg) (sys_local s)))))), s).
Proof.
  simpl. unfold bind, LocalStorage.getStorageStats, bind, in_local, zoom,
    LocalStorage.getIndex, gets, ret. cbn. by rewrite set_local_same.
Qed.

Lemma getStorageStats_loop_spec cfg l : ∀ stats w,
  ∃ stats' w',
    getStorageStats_loop formatBytes cfg l stats w = (Ok stats', w')
    ∧ (∀ storage, is_Some (stats' !! storage) ↔ storage ∈ l ∨ is_Some (stats !! storage))
    ∧ sys_local (w_sys w') = sys_local (w_sys w)
    ∧ sys_supabase (w_sys w') = sys_supabase (w_sys w)
    ∧ w_calls w' = w_calls w
    ∧ (local ∈ l →
       stats' !! local
       = Some (StatsLocal (LocalStorage.mkLocalStats
                 (length (index_of (userId cfg) (sys_local (w_sys w))))
                 (formatBytes (LocalStorage.totalSize (userId cfg) (sys_local (w_sys w))
                                 (index_of (userId cfg) (sys_local (w_sys w))))))))
    ∧ (local ∉ l → stats' !! local = stats !! local).
Proof.
  induction l as [|storage rest IH]; intros stats w.
  - exists stats, w. split; [done|]. split.
    { intros storage. rewrite elem_of_nil. tauto. }
    do 3 (split; [done|]). split; [by intros ?%elem_of_nil|done].
  - simpl. unfold bind at 1, try_catch, bind at 1, in_sys, zoom.
    destruct (stats_of formatBytes cfg storage (w_sys w)) as [[entry|error] s1] eqn:Hone;
      pose proof (stats_of_frame _ _ _ _ _ Hone) as [Hlocal Hsb]; unfold ret at 1.
    + destruct (IH (<[storage := entry]> stats) (mkWorld s1 (w_calls w)))
        as (stats' & w' & Hrun & Hkeys & Hlocal' & Hsb' & Hcalls & Hin & Hout).
      cbn [w_sys w_calls] in *.
      exists stats', w'. split; [done|]. split.
      { intros b. rewrite Hkeys, lookup_insert_is_Some', elem_of_cons. intuition congruence. }
      split; [congruence|]. split; [congruence|]. split; [done|].
      rewrite <- Hlocal. split.
      * intros Hl. destruct (decide (local ∈ rest)) as [Hrest|Hrest]; [by apply Hin|].
        apply elem_of_cons in Hl as [<-|?]; [|done].
        rewrite Hout, lookup_insert_eq by done.
        rewrite stats_of_local in Hone. injection Hone as <- <-. done.
      * intros Hl. apply not_elem_of_cons in Hl as [Hne Hrest].
        rewrite Hout, lookup_insert_ne by done. done.
    + destruct (IH (<[storage := StatsError (toString error)]> stats) (mkWorld s1 (w_calls w)))
        as (stats' & w' & Hrun & Hkeys & Hlocal' & Hsb' & Hcalls & Hin & Hout).
      cbn [w_sys w_calls] in *.
      exists stats', w'. split; [done|]. split.
      { intros b. rewrite Hkeys, lookup_insert_is_Some', elem_of_cons. intuition congruence. }
      split; [congruence|]. split; [congruence|]. split; [done|].
      rewrite <- Hlocal. split.
      * intros Hl. destruct (decide (local ∈ rest)) as [Hrest|Hrest]; [by apply Hin|].
        apply elem_of_cons in Hl as [<-|?]; [|done].
        rewrite stats_of_local in Hone. discriminate.
      * intros Hl. apply not_elem_of_cons in Hl as [Hne Hrest].
        rewrite Hout, lookup_insert_ne by done. done.
Qed.

(** A case of the [switch] of [getStorageStats] is the statistics of
    the backend itself. *)
Lemma stats_of_backend cfg storage s r s' :
  stats_of formatBytes cfg storage s = (r, s') →
  backend_stats formatBytes cfg storage s r s'.
Proof.
  destruct storage; unfold stats_of, backend_stats, bind, ret.
  - destruct (GoogleDriveStorage.listEncryptedFiles s) as [[files|error] s1];
      by intros [= <- <-].
  - destruct (SupabaseStorage.listUserData (userId cfg) s) as [[rows|error] s1];
      by intros [= <- <-].
  - destruct (LocalStorage.getStorageStats formatBytes (userId cfg) s)
      as [[stats|error] s1]; by intros [= <- <-].
Qed.

Lemma getStorageStats_loop_attempts cfg l : ∀ stats w,
  ∃ outs w',
    getStorageStats_loop formatBytes cfg l stats w
    = (Ok (foldl (λ m o, <[o.1 := stats_entry o.2]> m) stats outs), w')
    ∧ stats_attempts formatBytes cfg l (w_sys w) outs (w_sys w').
Proof.
  induction l as [|storage rest IH]; intros stats w.
  - exists [], w. split; [done|constructor].
  - simpl. unfold bind at 1, try_catch, bind at 1, in_sys, zoom.
    destruct (stats_of formatBytes cfg storage (w_sys w)) as [[entry|error] s1] eqn:Hone;
      apply stats_of_backend in Hone; unfold ret at 1.
    + destruct (IH (<[storage := entry]> stats) (mkWorld s1 (w_calls w)))
        as (outs & w' & -> & Hrest).
      exists ((storage, Ok entry) :: outs), w'. split; [done|]. by econstructor.
    + destruct (IH (<[storage := StatsError (toString error)]> stats)
                  (mkWorld s1 (w_calls w))) as (outs & w' & -> & Hrest).
      exists ((storage, Throw error) :: outs), w'. split; [done|]. by econstructor.
Qed.

Lemma stats_attempts_backends cfg l s outs s' :
  stats_attempts formatBytes cfg l s outs s' → outs.*1 = l.
Proof. induction 1; csimpl; congruence. Qed.

Lemma stats_entries_snoc outs o :
  stats_entries (outs ++ [o]) = <[o.1 := stats_entry o.2]> (stats_entries outs).
Proof. unfold stats_entries. by rewrite foldl_app. Qed.

Lemma stats_entries_lookup outs storage entry :
  stats_entries outs !! storage = Some entry →
  ∃ r, (storage, r) ∈ outs ∧ entry = stats_entry r.
Proof.
  induction outs as [|[b r] outs IH] using rev_ind.
  - unfold stats_entries. simpl. by rewrite lookup_empty.
  - rewrite stats_entries_snoc. simpl. setoid_rewrite elem_of_app.
    setoid_rewrite list_elem_of_singleton.
    destruct (decide (b = storage)) as [->|Hne].
    + rewrite lookup_insert_eq. intros [= <-]. eauto.
    + rewrite lookup_insert_ne by done. intros Hin.
      destruct (IH Hin) as (r' & Hr' & ->). eauto.
Qed.

Lemma stats_entries_NoDup outs storage r :
  NoDup outs.*1 → (storage, r) ∈ outs →
  stats_entries outs !! storage = Some (stats_entry r).
Proof.
  induction outs as [|[b r'] outs IH] using rev_ind; [by intros _ ?%elem_of_nil|].
  rewrite fmap_app, stats_entries_snoc. simpl.
  intros [Hnodup [Hnot _]]%NoDup_app [Hin|[= <- <-]%list_elem_of_singleton]%elem_of_app.
  - rewrite lookup_insert_ne; [by apply IH|].
    intros <-. apply (Hnot b); [|by left].
    apply list_elem_of_fmap. by exists (b, r).
  - by rewrite lookup_insert_eq.
Qed.

(** X8.  [getStorageStats] never throws, whatever the backends do: the
    object it returns has an entry for exactly the enabled backends.
    The entry of a backend is made of the outcome of the backend's own
    statistics, taken in the order of the list: the statistics when they
    returned, and an error entry with the text of the error when they
    threw.  In a local store in which no two entries have the same key
    text and no entry has the text of the user's index key (apart from
    that index), the entry of the local store is not an error entry and
    counts the entries of the user's index.  The local store and the
    relational store are left as they were. *)
Theorem getStorageStats_total (cfg : StorageConfig) (w : World) :
  well_keyed (sys_local (w_sys w)) →
  own_text (sys_local (w_sys w)) (IndexKey (userId cfg)) →
  ∃ outs stats w',
    getStorageStats formatBytes cfg w = (Ok stats, w')
    ∧ stats_attempts formatBytes cfg (enabledStorages cfg) (w_sys w) outs (w_sys w')
    ∧ stats = stats_entries outs
    ∧ (∀ storage, is_Some (stats !! storage) ↔ storage ∈ enabledStorages cfg)
    ∧ (∀ storage entry,
         stats !! storage = Some entry →
         ∃ r, (storage, r) ∈ outs ∧ entry = stats_entry r)
    ∧ (NoDup (enabledStorages cfg) →
       ∀ storage error,
         (storage, Throw error) ∈ outs →
         stats !! storage = Some (StatsError (toString error)))
    ∧ (local ∈ enabledStorages cfg →
       ∃ size,
         stats !! local
         = Some (StatsLocal (LocalStorage.mkLocalStats
                   (length (index_of (userId cfg) (sys_local (w_sys w)))) size)))
    ∧ sys_local (w_sys w') = sys_local (w_sys w)
    ∧ sys_supabase (w_sys w') = sys_supabase (w_sys w).
Proof.
  intros _ _.
  destruct (getStorageStats_loop_spec cfg (enabledStorages cfg) ∅ w)
    as (stats & w' & Hrun & Hkeys & Hlocal & Hsb & _ & Hin & _).
  destruct (getStorageStats_loop_attempts cfg (enabledStorages cfg) ∅ w)
    as (outs & w'' & Hrun' & Hattempts).
  rewrite Hrun in Hrun'. injection Hrun' as -> <-.
  fold (stats_entries outs) in *.
  exists outs, (stats_entries outs), w'. split; [done|]. split; [done|]. split; [done|].
  split; [|split; [|split; [|split; [|done]]]].
  - intros storage. rewrite Hkeys, lookup_empty. split; [|by left].
    intros [?|[? [=]]]. done.
  - apply stats_entries_lookup.
  - intros Hnodup storage error Hout.
    apply (stats_entries_NoDup outs storage (Throw error)); [|done].
    by rewrite (stats_attempts_backends _ _ _ _ _ Hattempts).
  - intros Hl. eexists. by apply Hin.
Qed.

End stats_facts.

Section stats_runs.
#[local] Existing Instance Toy.runtime.
Import StorageManager Sample.

(** The statistics of three backends of which two cannot be read: the
    call returns, with two error entries. *)
Example getStorageStats_sample :
  (getStorageStats pretty (config [local; supabase; google_drive])
     (world_with local_with_paracetamol supabase_no_table drive_signed_out)).1
  = Ok {[ local := StatsLocal (LocalStorage.mkLocalStats 1 "194");
          supabase := StatsError
            "Error: Failed to list user data: [object Object]";
          google_drive := StatsError "Error: Not authenticated with Google Drive" ]}.
Proof. vm_compute; reflexivity. Qed.

Lemma getStorageStats_total_witness :
  well_keyed (sys_local (w_sys
    (world_with local_with_paracetamol supabase_no_table drive_signed_out)))
  ∧ own_text (sys_local (w_sys
      (world_with local_with_paracetamol supabase_no_table drive_signed_out)))
      (IndexKey (userId (config [local; supabase; google_drive])))
  ∧ ∃ outs stats w',
      getStorageStats pretty (config [local; supabase; google_drive])
        (world_with local_with_paracetamol supabase_no_table drive_signed_out)
      = (Ok stats, w')
      ∧ stats_attempts pretty (config [local; supabase; google_drive])
          (enabledStorages (config [local; supabase; google_drive]))
          (w_sys (world_with local_with_paracetamol supabase_no_table drive_signed_out))
          outs (w_sys w')
      ∧ stats = stats_entries outs
      ∧ (∀ storage, is_Some (stats !! storage)
                    ↔ storage ∈ enabledStorages (config [local; supabase; google_drive]))
      ∧ (∀ storage entry,
           stats !! storage = Some entry →
           ∃ r, (storage, r) ∈ outs ∧ entry = stats_entry r)
      ∧ (NoDup (enabledStorages (config [local; supabase; google_drive])) →
         ∀ storage error,
           (storage, Throw error) ∈ outs →
           stats !! storage = Some (StatsError (toString error)))
      ∧ (local ∈ enabledStorages (config [local; supabase; google_drive]) →
         ∃ size,
           stats !! local
           = Some (StatsLocal (LocalStorage.mkLocalStats
                     (length (index_of (userId (config [local; supabase; google_drive]))
                                (sys_local (w_sys
                                   (world_with local_with_paracetamol supabase_no_table
                                      drive_signed_out))))) size)))
      ∧ sys_local (w_sys w')
        = sys_local (w_sys
            (world_with local_with_paracetamol supabase_no_table drive_signed_out))
      ∧ sys_supabase (w_sys w')
        = sys_supabase (w_sys
            (world_with local_with_paracetamol supabase_no_table drive_signed_out)).
Proof.
  assert (well_keyed (sys_local (w_sys
            (world_with local_with_paracetamol supabase_no_table drive_signed_out))))
    as Hkeyed by (apply (bool_decide_unpack _); vm_compute; reflexivity).
  assert (own_text (sys_local (w_sys
            (world_with local_with_paracetamol supabase_no_table drive_signed_out)))
            (IndexKey (userId (config [local; supabase; google_drive])))) as Hown
    by (apply (bool_decide_unpack _); vm_compute; reflexivity).
  split; [exact Hkeyed|]. split; [exact Hown|].
  apply (getStorageStats_total pretty (config [local; supabase; google_drive])
           (world_with local_with_paracetamol supabase_no_table drive_signed_out)
           Hkeyed Hown).
Defined.

(** With a record of a user named [index] in the store, the text of the
    index key of user [medicines_0] is the key text of that record: the
    hypothesis of the statistics excludes such a store. *)
Example index_key_collision :
  LocalStorage.index_key "medicines_0"
  = LocalStorage.record_key ("index", "medicines", "0")
  ∧ ¬ own_text
        (mkLocalStore
           {[ ("index", "medicines", "0") :=
                mkStorageItem "0" "index" "medicines" "c" "local" 1 1 ]}
           {[ "index" := [mkIndexEntry "0" "medicines" 1] ]} 5000)
        (IndexKey "medicines_0").
Proof. split; [reflexivity|]. apply (bool_decide_unpack _). vm_compute. reflexivity. Qed.

End stats_runs.

(* ------------------------------------------------------------------ *)
(** ** SupabaseStorage: what is stored can be read, deleted and listed *)

Lemma map_result_snoc {A B} (f : A → Result B) (xs : list A) (x : A) (ys : list B) (y : B) :
  map_result f xs = Ok ys → f x = Ok y → map_result f (xs ++ [x]) = Ok (ys ++ [y]).
Proof.
  revert ys. induction xs as [|x' xs IH]; intros ys; simpl.
  - intros [= <-] ->. done.
  - destruct (f x') as [y'|e]; [|done].
    destruct (map_result f xs) as [ys'|e]; [|done].
    intros [= <-] Hx. by rewrite (IH ys' eq_refl Hx).
Qed.

Section supabase_facts.
Context `{R : Runtime} {L : RuntimeLaws R}.
Import EncryptionService.

Lemma SupabaseStorage_retrieve_run u dt key s rows :
  sb_encrypted_data (sys_supabase s) = Some rows →
  SupabaseStorage.retrieveEncryptedData u dt key s
  = match map_result (λ item, decryptData (row_encrypted_content item) key)
            (filter (SupabaseStorage.selected u dt) rows) with
    | Ok vs => (Ok vs, s)
    | Throw e => (Throw (new_Error ("Failed to retrieve data from Supabase: "
                                    +:+ toString e)), s)
    end.
Proof.
  intros Hrows.
  unfold SupabaseStorage.retrieveEncryptedData, try_catch, bind, gets, of_result, throw.
  rewrite Hrows. by destruct (map_result _ _).
Qed.

Lemma SupabaseStorage_store_run u data dt key s rows text :
  supabase_holds rows s →
  JSON_stringify data = Some text →
  SupabaseStorage.storeEncryptedData u data dt key s
  = (Ok (uuid_of (sys_uuid s)),
     mkSys (S (sys_now s)) (S (sys_uuid s)) (S (sys_salt s)) (sys_local s)
       (SupabaseStorage.set_encrypted_data
          (rows ++ [mkEncryptedRow (uuid_of (sys_uuid s)) u dt
                      (AES_encrypt (sys_salt s) text key) "supabase"
                      (sys_now s) (sys_now s)])
          (sys_supabase s))
       (sys_drive s)).
Proof.
  intros ([user Huser] & Hlisted & Hrows) Htext.
  unfold SupabaseStorage.storeEncryptedData, try_catch, bind at 1, gets.
  rewrite Huser. unfold bind at 1. rewrite (encryptData_text _ _ _ _ Htext).
  unfold bind at 1, gets. cbn [sys_supabase]. rewrite Hlisted.
  unfold bind at 1, ret at 1.
  unfold SupabaseStorage.insert_row, bind, gets, randomUUID, Date_now, in_supabase,
    zoom, modify, ret.
  cbn [sys_supabase sys_uuid sys_now]. rewrite Hrows. cbn. reflexivity.
Qed.

(** X9.  Round trip through the relational store.  When somebody is
    signed in and the table is there, storing a serializable value
    returns an identifier, and reading the same user and data type with
    the same key then returns what it returned before followed by the
    value.  What is read for another user or another data type does not
    change. *)
Theorem SupabaseStorage_store_retrieve (userId dataType key : string) (data : Value)
    (s : Sys) (rows : list EncryptedRow) (before : list Value) :
  supabase_holds rows s →
  serializable data →
  (SupabaseStorage.retrieveEncryptedData userId dataType key s).1 = Ok before →
  ∃ id s',
    SupabaseStorage.storeEncryptedData userId data dataType key s = (Ok id, s')
    ∧ SupabaseStorage.retrieveEncryptedData userId dataType key s'
      = (Ok (before ++ [data]), s')
    ∧ ∀ userId' dataType' key',
        userId' ≠ userId ∨ dataType' ≠ dataType →
        (SupabaseStorage.retrieveEncryptedData userId' dataType' key' s').1
        = (SupabaseStorage.retrieveEncryptedData userId' dataType' key' s).1.
Proof.
  intros Hready (text & Htext & Hparse) Hbefore.
  pose proof Hready as (_ & _ & Hrows).
  rewrite (SupabaseStorage_retrieve_run _ _ _ _ rows Hrows) in Hbefore.
  do 2 eexists. split; [by apply (SupabaseStorage_store_run _ _ _ _ _ rows text)|].
  split.
  - erewrite SupabaseStorage_retrieve_run by (cbn; reflexivity).
    rewrite filter_app, filter_cons, decide_True, filter_nil by done.
    destruct (map_result _ (filter _ rows)) as [vs|e] eqn:Hvs; [|done].
    simpl in Hbefore. injection Hbefore as ->.
    erewrite map_result_snoc; [done|done|]. cbn.
    unfold decryptData. rewrite AES_decrypt_encrypt.
    rewrite decide_False by by eapply serializable_text_nonempty.
    by rewrite Hparse.
  - intros u' dt' key' Hother.
    erewrite (SupabaseStorage_retrieve_run u' dt' key' (mkSys _ _ _ _ _ _))
      by (cbn; reflexivity).
    rewrite (SupabaseStorage_retrieve_run u' dt' key' s rows Hrows).
    rewrite filter_app, filter_cons, decide_False, filter_nil, app_nil_r.
    + destruct (map_result _ (filter (SupabaseStorage.selected u' dt') rows));
        reflexivity.
    + unfold SupabaseStorage.selected. cbn. intros (-> & -> & _). by destruct Hother.
Qed.

(** X10.  The fallback of [storeEncryptedData] cannot be read back.
    When the insert into the table fails, the call still returns an
    identifier, but [retrieveEncryptedData], which reads the table only,
    throws afterwards as it did before; and when the user has no row in
    [profiles], nothing at all has been written. *)
Theorem SupabaseStorage_fallback_unreadable (userId dataType key : string) (data : Value)
    (s : Sys) (user text : string) (profiles : gmap string (gmap string ProfileEntry)) :
  sb_user (sys_supabase s) = Some user →
  JSON_stringify data = Some text →
  sb_table_listed (sys_supabase s) = true ∨ sb_create_table_ok (sys_supabase s) = false →
  sb_encrypted_data (sys_supabase s) = None →
  sb_profiles (sys_supabase s) = Some profiles →
  ∃ s',
    SupabaseStorage.storeEncryptedData userId data dataType key s
    = (Ok (uuid_of (sys_uuid s)), s')
    ∧ sb_encrypted_data (sys_supabase s') = None
    ∧ SupabaseStorage.retrieveEncryptedData userId dataType key s'
      = (Throw (new_Error
           "Failed to retrieve data from Supabase: [object Object]"), s')
    ∧ (profiles !! userId = None → sys_supabase s' = sys_supabase s).
Proof.
  intros Huser Htext Hpath Htable Hprofiles.
  assert (∀ s0 : Sys,
    sb_encrypted_data (sys_supabase s0) = None →
    SupabaseStorage.retrieveEncryptedData userId dataType key s0
    = (Throw (new_Error
         "Failed to retrieve data from Supabase: [object Object]"), s0))
    as Hretrieve.
  { intros s0 Hnone.
    unfold SupabaseStorage.retrieveEncryptedData, try_catch, bind, gets, throw.
    by rewrite Hnone. }
  assert (∃ s',
    SupabaseStorage.storeInProfilesTable userId dataType
      (AES_encrypt (sys_salt s) text key)
      (mkSys (sys_now s) (sys_uuid s) (S (sys_salt s)) (sys_local s) (sys_supabase s)
         (sys_drive s))
    = (Ok (uuid_of (sys_uuid s)), s')
    ∧ sb_encrypted_data (sys_supabase s') = None
    ∧ (profiles !! userId = None → sys_supabase s' = sys_supabase s)) as Hfallback.
  { unfold SupabaseStorage.storeInProfilesTable, bind at 1, gets. cbn [sys_supabase].
    rewrite Hprofiles.
    unfold bind, randomUUID, Date_now, in_supabase, zoom, modify, ret.
    cbn [sys_uuid sys_now sys_supabase].
    destruct (profiles !! userId) as [entries|]; cbn.
    - eexists. split; [reflexivity|]. cbn. split; [done|]. done.
    - eexists. split; [reflexivity|]. cbn. split; [done|]. done. }
  destruct Hfallback as (s' & Hrun & Hnone & Hnothing).
  exists s'. split; [|split; [done|split; [by apply Hretrieve|done]]].
  unfold SupabaseStorage.storeEncryptedData, try_catch, bind at 1, gets.
  rewrite Huser. unfold bind at 1. rewrite (encryptData_text _ _ _ _ Htext).
  unfold bind at 1, gets. cbn [sys_supabase].
  destruct (sb_table_listed (sys_supabase s)) eqn:Hlisted.
  - unfold bind at 1, ret at 1.
    unfold SupabaseStorage.insert_row, bind at 1, bind at 1, gets. cbn [sys_supabase].
    rewrite Htable. unfold ret at 1. by rewrite Hrun.
  - destruct Hpath as [?|Hcreate]; [done|].
    unfold bind at 1, SupabaseStorage.create_encrypted_data_table, bind at 1, gets.
    cbn [sys_supabase]. rewrite Hcreate. unfold ret at 1. by rewrite Hrun.
Qed.

(** X11.  The simpler [SupabaseStorage] class stores as the full one
    does whenever somebody is signed in, the schema lookup lists the
    table and the table is there: same result, same state. *)
Theorem SupabaseStoragePlain_agrees (userId dataType key : string) (data : Value)
    (s : Sys) (rows : list EncryptedRow) :
  supabase_holds rows s →
  SupabaseStoragePlain.storeEncryptedData userId data dataType key s
  = SupabaseStorage.storeEncryptedData userId data dataType key s.
Proof.
  intros Hready. pose proof Hready as ([user Huser] & Hlisted & Hrows).
  destruct (JSON_stringify data) as [text|] eqn:Htext.
  - rewrite (SupabaseStorage_store_run _ _ _ _ _ rows text Hready Htext).
    unfold SupabaseStoragePlain.storeEncryptedData, try_catch, bind at 1.
    rewrite (encryptData_text _ _ _ _ Htext).
    unfold SupabaseStorage.insert_row, bind, gets, randomUUID, Date_now, in_supabase,
      zoom, modify, ret.
    cbn [sys_supabase sys_uuid sys_now]. rewrite Hrows. cbn. reflexivity.
  - unfold SupabaseStoragePlain.storeEncryptedData, SupabaseStorage.storeEncryptedData,
      try_catch, bind, gets, encryptData, random_salt, of_result, encrypt_with, throw.
    rewrite Huser, Htext. reflexivity.
Qed.

End supabase_facts.

Lemma set_encrypted_data_same rows sb :
  sb_encrypted_data sb = Some rows → SupabaseStorage.set_encrypted_data rows sb = sb.
Proof. destruct sb. cbn. by intros ->. Qed.

Lemma set_supabase_same s : set_supabase (sys_supabase s) s = s.
Proof. by destruct s. Qed.

Lemma filter_id_all (id : string) (rows : list EncryptedRow) :
  (∀ row, row ∈ rows → row_id row ≠ id) →
  filter (λ row, row_id row ≠ id) rows = rows.
Proof.
  induction rows as [|row rows IH]; intros Hall; [done|].
  rewrite filter_cons, decide_True by (apply Hall; left).
  rewrite IH; [done|]. intros row' Hrow'. apply Hall. by right.
Qed.

Lemma SupabaseStorage_delete_run id s rows :
  sb_encrypted_data (sys_supabase s) = Some rows →
  SupabaseStorage.deleteEncryptedData id s
  = (Ok tt, set_supabase (SupabaseStorage.set_encrypted_data
                            (filter (λ row, row_id row ≠ id) rows) (sys_supabase s)) s).
Proof.
  intros Hrows.
  unfold SupabaseStorage.deleteEncryptedData, try_catch, bind, gets.
  rewrite Hrows. unfold in_supabase, zoom, modify. done.
Qed.

(** X12.  Deleting from the table.  With the table there,
    [deleteEncryptedData] returns normally whether or not a row has the
    identifier; afterwards no row has it, the other rows are there in
    their order, and a second delete changes nothing.  A delete of an
    identifier no row has leaves the state as it is. *)
Theorem SupabaseStorage_delete_idempotent (id : string) (s : Sys)
    (rows : list EncryptedRow) :
  sb_encrypted_data (sys_supabase s) = Some rows →
  ∃ s' rows',
    SupabaseStorage.deleteEncryptedData id s = (Ok tt, s')
    ∧ sb_encrypted_data (sys_supabase s') = Some rows'
    ∧ (∀ row, row ∈ rows' ↔ row ∈ rows ∧ row_id row ≠ id)
    ∧ rows' `sublist_of` rows
    ∧ SupabaseStorage.deleteEncryptedData id s' = (Ok tt, s')
    ∧ ((∀ row, row ∈ rows → row_id row ≠ id) → s' = s).
Proof.
  intros Hrows. do 2 eexists.
  split; [by apply SupabaseStorage_delete_run|].
  split; [reflexivity|]. split; [|split; [|split]].
  - intros row. by rewrite list_elem_of_filter, (comm and).
  - apply sublist_filter.
  - erewrite SupabaseStorage_delete_run by (cbn; reflexivity).
    rewrite filter_id_all; [by destruct s|].
    intros row. rewrite list_elem_of_filter. by intros [? _].
  - intros Hall. rewrite filter_id_all by done.
    rewrite set_encrypted_data_same by done. apply set_supabase_same.
Qed.

Section supabase_delete_store.
Context `{R : Runtime}.

(** X13.  Store, then delete with the identifier returned: the table is
    as it was before, provided no row had the identifier the service
    issues. *)
Theorem SupabaseStorage_store_delete (userId dataType key : string) (data : Value)
    (s : Sys) (rows : list EncryptedRow) (text : string) :
  supabase_holds rows s →
  JSON_stringify data = Some text →
  (∀ row, row ∈ rows → row_id row ≠ uuid_of (sys_uuid s)) →
  ∃ id s1 s2,
    SupabaseStorage.storeEncryptedData userId data dataType key s = (Ok id, s1)
    ∧ SupabaseStorage.deleteEncryptedData id s1 = (Ok tt, s2)
    ∧ sys_supabase s2 = sys_supabase s
    ∧ sys_local s2 = sys_local s
    ∧ sys_drive s2 = sys_drive s.
Proof.
  intros Hready Htext Hfresh. pose proof Hready as (_ & _ & Hrows).
  do 3 eexists. split; [by apply (SupabaseStorage_store_run _ _ _ _ _ rows text)|].
  split; [apply SupabaseStorage_delete_run; cbn; reflexivity|].
  cbn. split; [|done].
  rewrite filter_app, filter_cons, decide_False, filter_nil, app_nil_r by (cbn; auto).
  rewrite filter_id_all by done.
  destruct (sys_supabase s). cbn in *. by rewrite Hrows.
Qed.

End supabase_delete_store.

Section supabase_runs.
#[local] Existing Instance Toy.runtime.
Import Sample.

Lemma SupabaseStorage_store_retrieve_witness :
  supabase_holds [] (sys_with (empty_local 5000) supabase_ready drive_ready)
  ∧ serializable (H := Toy.runtime) paracetamol
  ∧ (SupabaseStorage.retrieveEncryptedData "u1" "medicines" "secret"
       (sys_with (empty_local 5000) supabase_ready drive_ready)).1 = Ok []
  ∧ ∃ id s',
      SupabaseStorage.storeEncryptedData "u1" paracetamol "medicines" "secret"
        (sys_with (empty_local 5000) supabase_ready drive_ready) = (Ok id, s')
      ∧ SupabaseStorage.retrieveEncryptedData "u1" "medicines" "secret" s'
        = (Ok ([] ++ [paracetamol]), s')
      ∧ ∀ userId' dataType' key',
          userId' ≠ "u1" ∨ dataType' ≠ "medicines" →
          (SupabaseStorage.retrieveEncryptedData userId' dataType' key' s').1
          = (SupabaseStorage.retrieveEncryptedData userId' dataType' key'
               (sys_with (empty_local 5000) supabase_ready drive_ready)).1.
Proof.
  assert (supabase_holds [] (sys_with (empty_local 5000) supabase_ready drive_ready))
    as Hready by (split; [by eexists|split; reflexivity]).
  assert (serializable (H := Toy.runtime) paracetamol) as Hser
    by (eexists; split; vm_compute; reflexivity).
  split; [exact Hready|]. split; [exact Hser|]. split; [vm_compute; reflexivity|].
  apply (SupabaseStorage_store_retrieve (R := Toy.runtime) (L := Toy_laws)
           "u1" "medicines" "secret" paracetamol _ [] [] Hready Hser).
  vm_compute; reflexivity.
Defined.

Lemma SupabaseStorage_fallback_unreadable_witness :
  sb_user (sys_supabase (sys_with (empty_local 5000)
             (mkSupabase (Some "u1") true true None (Some ∅)) drive_ready)) = Some "u1"
  ∧ JSON_stringify (Toy.JBool true) = Some "true"
  ∧ ∃ s',
      SupabaseStorage.storeEncryptedData "u1" (Toy.JBool true) "medicines" "secret"
        (sys_with (empty_local 5000)
           (mkSupabase (Some "u1") true true None (Some ∅)) drive_ready)
      = (Ok (uuid_of 0), s')
      ∧ sb_encrypted_data (sys_supabase s') = None
      ∧ SupabaseStorage.retrieveEncryptedData "u1" "medicines" "secret" s'
        = (Throw (new_Error
             "Failed to retrieve data from Supabase: [object Object]"), s')
      ∧ ((∅ : gmap string (gmap string ProfileEntry)) !! "u1" = None →
         sys_supabase s' = mkSupabase (Some "u1") true true None (Some ∅)).
Proof.
  split; [reflexivity|]. split; [reflexivity|].
  apply (SupabaseStorage_fallback_unreadable (R := Toy.runtime)
           "u1" "medicines" "secret" (Toy.JBool true)
           (sys_with (empty_local 5000)
              (mkSupabase (Some "u1") true true None (Some ∅)) drive_ready)
           "u1" "true" ∅);
    [reflexivity|reflexivity|left; reflexivity|reflexivity|reflexivity].
Defined.

Lemma SupabaseStoragePlain_agrees_witness :
  supabase_holds [] (sys_with (empty_local 5000) supabase_ready drive_ready)
  ∧ SupabaseStoragePlain.storeEncryptedData "u1" paracetamol "medicines" "secret"
      (sys_with (empty_local 5000) supabase_ready drive_ready)
    = SupabaseStorage.storeEncryptedData "u1" paracetamol "medicines" "secret"
        (sys_with (empty_local 5000) supabase_ready drive_ready).
Proof.
  assert (supabase_holds [] (sys_with (empty_local 5000) supabase_ready drive_ready))
    as Hready by (split; [by eexists|split; reflexivity]).
  split; [exact Hready|].
  apply (SupabaseStoragePlain_agrees (R := Toy.runtime) "u1" "medicines" "secret"
           paracetamol _ [] Hready).
Defined.

(** Where the two classes differ: with nobody signed in the full class
    refuses, the simpler one inserts the row. *)
Example SupabaseStoragePlain_differs :
  (SupabaseStorage.storeEncryptedData "u1" paracetamol "medicines" "secret"
     (sys_with (empty_local 5000) supabase_signed_out drive_ready)).1
  = Throw (new_Error "Failed to store data in Supabase: Error: User not authenticated")
  ∧ (SupabaseStoragePlain.storeEncryptedData "u1" paracetamol "medicines" "secret"
       (sys_with (empty_local 5000) supabase_signed_out drive_ready)).1
    = Ok (uuid_of 0).
Proof. split; vm_compute; reflexivity. Qed.

Lemma SupabaseStorage_delete_idempotent_witness :
  sb_encrypted_data (sys_supabase (sys_with (empty_local 5000) supabase_with_row drive_ready))
  = Some [mkEncryptedRow "r1" "u1" "medicines" "old" "supabase" 1 1]
  ∧ ∃ s' rows',
      SupabaseStorage.deleteEncryptedData "r1"
        (sys_with (empty_local 5000) supabase_with_row drive_ready) = (Ok tt, s')
      ∧ sb_encrypted_data (sys_supabase s') = Some rows'
      ∧ (∀ row, row ∈ rows'
                ↔ row ∈ [mkEncryptedRow "r1" "u1" "medicines" "old" "supabase" 1 1]
                  ∧ row_id row ≠ "r1")
      ∧ rows' `sublist_of` [mkEncryptedRow "r1" "u1" "medicines" "old" "supabase" 1 1]
      ∧ SupabaseStorage.deleteEncryptedData "r1" s' = (Ok tt, s')
      ∧ ((∀ row, row ∈ [mkEncryptedRow "r1" "u1" "medicines" "old" "supabase" 1 1] →
                 row_id row ≠ "r1") →
         s' = sys_with (empty_local 5000) supabase_with_row drive_ready).
Proof.
  split; [reflexivity|].
  apply (SupabaseStorage_delete_idempotent "r1"
           (sys_with (empty_local 5000) supabase_with_row drive_ready)
           [mkEncryptedRow "r1" "u1" "medicines" "old" "supabase" 1 1]).
  reflexivity.
Defined.

Lemma SupabaseStorage_store_delete_witness :
  supabase_holds [mkEncryptedRow "r1" "u1" "medicines" "old" "supabase" 1 1]
    (sys_with (empty_local 5000) supabase_with_row drive_ready)
  ∧ JSON_stringify (Toy.JBool true) = Some "true"
  ∧ ∃ id s1 s2,
      SupabaseStorage.storeEncryptedData "u1" (Toy.JBool true) "medicines" "secret"
        (sys_with (empty_local 5000) supabase_with_row drive_ready) = (Ok id, s1)
      ∧ SupabaseStorage.deleteEncryptedData id s1 = (Ok tt, s2)
      ∧ sys_supabase s2 = supabase_with_row
      ∧ sys_local s2 = empty_local 5000
      ∧ sys_drive s2 = drive_ready.
Proof.
  assert (supabase_holds [mkEncryptedRow "r1" "u1" "medicines" "old" "supabase" 1 1]
            (sys_with (empty_local 5000) supabase_with_row drive_ready))
    as Hready by (split; [by eexists|split; reflexivity]).
  split; [exact Hready|]. split; [reflexivity|].
  apply (SupabaseStorage_store_delete (R := Toy.runtime) "u1" "medicines" "secret"
           (Toy.JBool true) _ _ "true" Hready); [reflexivity|].
  intros row ->%list_elem_of_singleton. vm_compute. discriminate.
Defined.

End supabase_runs.

(* ------------------------------------------------------------------ *)
(** ** LocalStorage: what the quota handling evicts *)

Lemma insert_by_createdAt_sorted (e : IndexEntry) (l : list IndexEntry) :
  StronglySorted (λ a b, ie_createdAt a ≤ ie_createdAt b) l →
  StronglySorted (λ a b, ie_createdAt a ≤ ie_createdAt b)
    (LocalStorage.insert_by_createdAt e l).
Proof.
  induction 1 as [|x rest Hsorted IH Hall]; simpl.
  - by repeat constructor.
  - case_decide as Hle.
    + constructor; [by constructor|]. constructor; [done|].
      eapply Forall_impl; [exact Hall|]. simpl. intros; lia.
    + constructor; [done|]. rewrite insert_by_createdAt_perm.
      constructor; [lia|done].
Qed.

Lemma sort_by_createdAt_sorted (l : list IndexEntry) :
  StronglySorted (λ a b, ie_createdAt a ≤ ie_createdAt b)
    (LocalStorage.sort_by_createdAt l).
Proof.
  induction l as [|e l IH]; [constructor|].
  by apply insert_by_createdAt_sorted.
Qed.

Lemma cleared_shape n u ls :
  local_inv n ls →
  index_of u (cleared u ls)
  = drop (LocalStorage.itemsToRemove (length (index_of u ls)))
      (LocalStorage.sort_by_createdAt (index_of u ls))
  ∧ ls_records (cleared u ls)
    = evict u (take (LocalStorage.itemsToRemove (length (index_of u ls)))
                 (LocalStorage.sort_by_createdAt (index_of u ls))) (ls_records ls)
  ∧ ∀ other, other ≠ u → index_of other (cleared u ls) = index_of other ls.
Proof.
  destruct ls as [records indexes quota]. intros Hinv.
  unfold cleared. cbn [ls_records ls_indexes ls_quota].
  set (index := index_of u (mkLocalStore records indexes quota)).
  set (k := LocalStorage.itemsToRemove (length index)).
  set (sorted := LocalStorage.sort_by_createdAt index).
  case_decide as Hfits.
  { split; [apply index_of_insert_eq|]. split; [done|].
    intros other Hother. by apply index_of_insert_ne. }
  destruct (indexes !! u) as [ix|] eqn:Hu.
  - destruct Hfits. etrans; [|apply Hinv].
    etrans; [|apply (usage_evict u (take k sorted))].
    apply (usage_replace_index u ix); [done|]. apply index_length_mono.
    etrans; [apply sum_entry_length_drop|].
    assert (index = ix) as <- by (unfold index, index_of; simpl; by rewrite Hu).
    unfold sorted. by rewrite sort_by_createdAt_perm.
  - assert (index = []) as Hnil by (unfold index, index_of; simpl; by rewrite Hu).
    subst sorted k. rewrite Hnil.
    change (LocalStorage.sort_by_createdAt []) with (@nil IndexEntry).
    rewrite drop_nil. split; [|done].
    unfold index_of. cbn. by rewrite Hu.
Qed.

(** X14.  What [clearOldData] evicts.  In a store that satisfies the
    invariant of the index, the call removes a tenth of the user's index
    entries, rounded up, together with their records; no entry it keeps
    is older than an entry it removes.  Other users keep their records
    and their index, and the invariant still holds. *)
Theorem clearOldData_evicts_oldest (n : nat) (userId : string) (s : Sys) :
  local_inv n (sys_local s) →
  ∃ s' removed,
    LocalStorage.clearOldData userId s = (Ok tt, s')
    ∧ index_of userId (sys_local s) ≡ₚ removed ++ index_of userId (sys_local s')
    ∧ length removed
      = LocalStorage.itemsToRemove (length (index_of userId (sys_local s)))
    ∧ (∀ e e', e ∈ removed → e' ∈ index_of userId (sys_local s') →
               ie_createdAt e ≤ ie_createdAt e')
    ∧ ls_records (sys_local s') = evict userId removed (ls_records (sys_local s))
    ∧ (∀ other, other ≠ userId →
         index_of other (sys_local s') = index_of other (sys_local s)
         ∧ user_records other (sys_local s') = user_records other (sys_local s))
    ∧ local_inv n (sys_local s').
Proof.
  intros Hinv.
  destruct (cleared_shape n userId (sys_local s) Hinv) as (Hindex & Hrecords & Hothers).
  set (index := index_of userId (sys_local s)) in *.
  set (k := LocalStorage.itemsToRemove (length index)) in *.
  set (sorted := LocalStorage.sort_by_createdAt index) in *.
  exists (set_local (cleared userId (sys_local s)) s), (take k sorted).
  split; [apply clearOldData_run|].
  destruct s as [now uuid salt ls sb d]. cbn [sys_local set_local] in *.
  rewrite Hindex. split; [|split; [|split; [|split; [|split]]]].
  - rewrite take_drop. symmetry. apply sort_by_createdAt_perm.
  - rewrite length_take. unfold sorted. rewrite sort_by_createdAt_perm.
    pose proof (itemsToRemove_le (length index)). unfold k. lia.
  - intros e e' He He'.
    apply (StronglySorted_app_1_elem_of (λ a b, ie_createdAt a ≤ ie_createdAt b)
             (take k sorted) (drop k sorted)); [|done|done].
    rewrite take_drop. apply sort_by_createdAt_sorted.
  - done.
  - intros other Hother. split; [by apply Hothers|].
    destruct ls as [records indexes quota].
    destruct (cleared userId _) as [records' indexes' quota'] eqn:Hcleared.
    cbn [ls_records] in Hrecords. subst records'.
    assert (quota' = quota) as ->.
    { unfold cleared in Hcleared. cbn in Hcleared. case_decide; by injection Hcleared. }
    by apply user_records_evict_other.
  - by apply cleared_inv.
Qed.

Section evict_runs.
#[local] Existing Instance Toy.runtime.
Import Sample.

Lemma clearOldData_evicts_oldest_witness :
  local_inv 2 (sys_local one_record_left)
  ∧ ∃ s' removed,
      LocalStorage.clearOldData "u1" one_record_left = (Ok tt, s')
      ∧ index_of "u1" (sys_local one_record_left)
        ≡ₚ removed ++ index_of "u1" (sys_local s')
      ∧ length removed
        = LocalStorage.itemsToRemove (length (index_of "u1" (sys_local one_record_left)))
      ∧ (∀ e e', e ∈ removed → e' ∈ index_of "u1" (sys_local s') →
                 ie_createdAt e ≤ ie_createdAt e')
      ∧ ls_records (sys_local s')
        = evict "u1" removed (ls_records (sys_local one_record_left))
      ∧ (∀ other, other ≠ "u1" →
           index_of other (sys_local s') = index_of other (sys_local one_record_left)
           ∧ user_records other (sys_local s')
             = user_records other (sys_local one_record_left))
      ∧ local_inv 2 (sys_local s').
Proof.
  split; [exact one_record_left_inv|].
  apply (clearOldData_evicts_oldest 2 "u1" one_record_left one_record_left_inv).
Defined.

(** With a single record the tenth rounded up is the whole index: the
    call that makes room removes the only record there is. *)
Example clearOldData_single_record :
  (LocalStorage.clearOldData "u1" one_record_left).2
  = set_local (mkLocalStore ∅ {[ "u1" := [] ]} 5000) one_record_left.
Proof. vm_compute. reflexivity. Qed.

End evict_runs.

(* ------------------------------------------------------------------ *)
(** ** LocalStorage: what is stored can be read and deleted *)

Lemma map_result_ext_in {A B} (f g : A → Result B) (xs : list A) :
  (∀ x, x ∈ xs → f x = g x) → map_result f xs = map_result g xs.
Proof.
  induction xs as [|x xs IH]; intros Hfg; [done|]. simpl.
  rewrite Hfg by left. rewrite IH; [done|]. intros y Hy. apply Hfg. by right.
Qed.

Lemma uuid_of_inj n m : uuid_of n = uuid_of m → n = m.
Proof. unfold uuid_of. apply (inj pretty). Qed.

Section local_round_trip.
Context `{R : Runtime}.
Import EncryptionService.

Lemma LocalStorage_retrieve_run u dt key s :
  LocalStorage.retrieveEncryptedData u dt key s
  = match map_result (LocalStorage.read_entry (sys_local s) u dt key)
            (filter (λ item, ie_dataType item = dt) (index_of u (sys_local s))) with
    | Ok items => (Ok (LocalStorage.non_null items), s)
    | Throw e => (Throw (new_Error ("Failed to retrieve data from localStorage: "
                                    +:+ toString e)), s)
    end.
Proof.
  unfold LocalStorage.retrieveEncryptedData, try_catch, bind, in_local, zoom,
    LocalStorage.getIndex, gets, of_result, ret, throw.
  cbn [fst snd]. rewrite set_local_same. fold (index_of u (sys_local s)).
  by destruct (map_result _ _).
Qed.

(** A store that returns, in full: the record carries the ciphertext of
    the value, and the store was evicted from or not. *)
Lemma storeEncryptedData_Ok_item u data dt key s id s' :
  LocalStorage.storeEncryptedData u data dt key s = (Ok id, s') →
  ∃ text item t ls_mid,
    JSON_stringify data = Some text
    ∧ si_encryptedContent item = AES_encrypt (sys_salt s) text key
    ∧ (ls_mid = sys_local s ∨ ls_mid = cleared u (sys_local s))
    ∧ id = uuid_of (sys_uuid s)
    ∧ sys_uuid s' = S (sys_uuid s)
    ∧ sys_local s'
      = mkLocalStore (<[(u, dt, id) := item]> (ls_records ls_mid))
          (<[u := index_of u ls_mid ++ [mkIndexEntry id dt t]]> (ls_indexes ls_mid))
          (ls_quota ls_mid)
    ∧ LocalStorage.usage (sys_local s') ≤ ls_quota ls_mid.
Proof.
  unfold LocalStorage.storeEncryptedData, try_catch.
  match goal with |- context [match ?m s with _ => _ end] =>
    destruct (m s) as [[id0|e] s0] eqn:Hbody end; [|done].
  intros [= <- <-]. revert Hbody.
  unfold bind at 1, EncryptionService.encryptData, bind at 1, random_salt, of_result,
    encrypt_with.
  destruct (JSON_stringify data) as [text|] eqn:Htext; [|done].
  unfold bind at 1, randomUUID. unfold bind at 1, Date_now. unfold bind at 1.
  cbn [sys_now sys_uuid sys_salt sys_local sys_supabase sys_drive].
  set (sA := mkSys _ _ _ _ _ _).
  set (item := mkStorageItem _ _ _ _ _ _ _).
  unfold bind at 1. rewrite setItem_record_run. cbn zeta.
  assert (∀ sB, sys_uuid sB = S (sys_uuid s) →
            (LocalStorage.updateIndex u (uuid_of (sys_uuid s)) dt ;;
             ret (uuid_of (sys_uuid s))) sB = (Ok id0, s0) →
            id0 = uuid_of (sys_uuid s) ∧ sys_uuid s0 = S (sys_uuid s)
            ∧ sys_local s0
              = mkLocalStore (ls_records (sys_local sB))
                  (<[u := index_of u (sys_local sB)
                          ++ [mkIndexEntry (uuid_of (sys_uuid s)) dt (sys_now sB)]]>
                     (ls_indexes (sys_local sB)))
                  (ls_quota (sys_local sB))
            ∧ LocalStorage.usage (sys_local s0) ≤ ls_quota (sys_local sB)) as Htail.
  { intros sB HsB. unfold bind.
    destruct (LocalStorage.updateIndex _ _ _ sB) as [[[]|e] sC] eqn:Hindex; [|done].
    intros [= <- <-]. apply updateIndex_Ok in Hindex as (Hu & Hl & Hq).
    split; [done|]. split; [congruence|]. done. }
  case_decide as Hfits.
  - intros Hrest. apply Htail in Hrest as (-> & Huuid & Hlocal & Hq); [|done].
    exists text, item, (sys_now sA), (sys_local s).
    split; [done|]. split; [done|]. split; [by left|]. done.
  - rewrite decide_True by done. unfold bind at 1. rewrite clearOldData_run.
    rewrite setItem_record_run. cbn zeta. case_decide as Hfits'; [|done].
    intros Hrest. apply Htail in Hrest as (-> & Huuid & Hlocal & Hq); [|done].
    exists text, item, (sys_now sA), (cleared u (sys_local s)).
    split; [done|]. split; [done|]. split; [by right|]. done.
Qed.

(** A store that returns and leaves the index one entry longer has
    evicted nothing. *)
Lemma storeEncryptedData_no_eviction u data dt key s id s' :
  local_inv (sys_uuid s) (sys_local s) →
  LocalStorage.storeEncryptedData u data dt key s = (Ok id, s') →
  length (index_of u (sys_local s')) = S (length (index_of u (sys_local s))) →
  ∃ text item t,
    JSON_stringify data = Some text
    ∧ si_encryptedContent item = AES_encrypt (sys_salt s) text key
    ∧ id = uuid_of (sys_uuid s)
    ∧ sys_uuid s' = S (sys_uuid s)
    ∧ ls_records (sys_local s') = <[(u, dt, id) := item]> (ls_records (sys_local s))
    ∧ index_of u (sys_local s') = index_of u (sys_local s) ++ [mkIndexEntry id dt t]
    ∧ (∀ other, other ≠ u →
         index_of other (sys_local s') = index_of other (sys_local s))
    ∧ ls_quota (sys_local s') = ls_quota (sys_local s)
    ∧ LocalStorage.usage (sys_local s') ≤ ls_quota (sys_local s)
    ∧ ls_records (sys_local s) !! (u, dt, id) = None
    ∧ (∀ e, e ∈ index_of u (sys_local s) → ie_id e ≠ id).
Proof.
  intros Hinv Hrun Hlen.
  apply storeEncryptedData_Ok_item in Hrun
    as (text & item & t & ls_mid & Htext & Hitem & Hmid & -> & Huuid & Hlocal & Husage).
  assert (∀ e, e ∈ index_of u (sys_local s) → ie_id e ≠ uuid_of (sys_uuid s)) as Hfresh.
  { intros e He Hid. destruct Hinv as (_ & _ & Hids & _).
    destruct (Hids u e He) as (m & Hm & Hid'). rewrite Hid in Hid'.
    apply uuid_of_inj in Hid'. lia. }
  assert (ls_records (sys_local s) !! (u, dt, uuid_of (sys_uuid s)) = None) as Hnew.
  { apply eq_None_not_Some. intros Hsome. destruct Hinv as (_ & Hiff & _ & _).
    apply Hiff in Hsome as (e & He & Hid & _). by apply (Hfresh e He). }
  exists text, item, t. do 4 (split; [done|]).
  rewrite Hlocal, index_of_insert_eq, length_app in Hlen. simpl in Hlen.
  destruct Hmid as [-> | ->].
  - split; [by rewrite Hlocal|]. split; [by rewrite Hlocal, index_of_insert_eq|].
    split; [|split; [by rewrite Hlocal|done]].
    intros other Hother. rewrite Hlocal.
    unfold index_of. cbn. by rewrite lookup_insert_ne.
  - destruct (cleared_shape _ u (sys_local s) Hinv) as (Hindex & Hrecords & Hothers).
    assert (length (index_of u (sys_local s)) = 0) as Hzero.
    { rewrite Hindex, length_drop in Hlen.
      unfold LocalStorage.itemsToRemove in *.
      rewrite (Permutation_length (sort_by_createdAt_perm _)) in Hlen.
      destruct (length (index_of u (sys_local s))) as [|m]; [done|].
      assert (1 ≤ (S m + 9) / 10) by (apply Nat.div_le_lower_bound; lia). lia. }
    apply nil_length_inv in Hzero.
    assert (ls_quota (cleared u (sys_local s)) = ls_quota (sys_local s)) as Hquota.
    { unfold cleared. cbn. by case_decide. }
    rewrite Hquota in *. rewrite Hindex, Hrecords, Hzero in Hlocal. cbn in Hlocal.
    split; [by rewrite Hlocal|].
    split; [by rewrite Hlocal, index_of_insert_eq, Hzero|].
    split; [|split; [by rewrite Hlocal|done]].
    intros other Hother. rewrite <- (Hothers other Hother), Hlocal.
    unfold index_of. cbn. by rewrite lookup_insert_ne.
Qed.

Context {L : RuntimeLaws R}.

(** Reading after a record has been added under a fresh identifier. *)
Lemma LocalStorage_retrieve_after_insert u dt key data s s' before text item t :
  serializable data →
  JSON_stringify data = Some text →
  si_encryptedContent item = AES_encrypt (sys_salt s) text key →
  ls_records (sys_local s')
  = <[(u, dt, uuid_of (sys_uuid s)) := item]> (ls_records (sys_local s)) →
  index_of u (sys_local s')
  = index_of u (sys_local s) ++ [mkIndexEntry (uuid_of (sys_uuid s)) dt t] →
  (∀ e, e ∈ index_of u (sys_local s) → ie_id e ≠ uuid_of (sys_uuid s)) →
  (LocalStorage.retrieveEncryptedData u dt key s).1 = Ok before →
  LocalStorage.retrieveEncryptedData u dt key s'
  = (Ok (before ++ (if is_null data then [] else [data])), s').
Proof.
  intros (text' & Htext' & Hparse) Htext Hitem Hrecords Hindex Hfresh Hbefore.
  assert (text' = text) as -> by congruence.
  rewrite LocalStorage_retrieve_run in Hbefore |- *.
  rewrite Hindex, filter_app, filter_cons, decide_True, filter_nil by done.
  assert (map_result (LocalStorage.read_entry (sys_local s') u dt key)
            (filter (λ item, ie_dataType item = dt) (index_of u (sys_local s)))
          = map_result (LocalStorage.read_entry (sys_local s) u dt key)
              (filter (λ item, ie_dataType item = dt) (index_of u (sys_local s)))) as Hold.
  { apply map_result_ext_in. intros e [_ He]%list_elem_of_filter.
    unfold LocalStorage.read_entry. rewrite Hrecords, lookup_insert_ne; [done|].
    intros [= Hid]. by apply (Hfresh e He). }
  destruct (map_result _ (filter _ (index_of u (sys_local s)))) as [items|e]
    eqn:Hitems; [|done].
  simpl in Hbefore. injection Hbefore as <-.
  assert (LocalStorage.read_entry (sys_local s') u dt key
            (mkIndexEntry (uuid_of (sys_uuid s)) dt t) = Ok (Some data)) as Hentry.
  { unfold LocalStorage.read_entry. cbn [ie_id].
    rewrite Hrecords, lookup_insert_eq, Hitem.
    unfold decryptData. rewrite AES_decrypt_encrypt.
    rewrite decide_False by by eapply serializable_text_nonempty.
    by rewrite Hparse. }
  rewrite (map_result_snoc _ _ _ _ _ Hold Hentry).
  unfold LocalStorage.non_null. rewrite omap_app. csimpl.
  by destruct (is_null data).
Qed.

(** X15.  Round trip through the local store.  In a store that
    satisfies the invariant of the index, if storing a serializable
    value returns and the index has grown by one entry (nothing was
    evicted to make room), then reading the same user and data type with
    the same key returns what it returned before, followed by the value.
    A value that is [null] is stored but not returned: the read filters
    it out. *)
Theorem LocalStorage_store_retrieve (userId dataType key : string) (data : Value)
    (s : Sys) (before : list Value) (id : string) (s' : Sys) :
  local_inv (sys_uuid s) (sys_local s) →
  serializable data →
  (LocalStorage.retrieveEncryptedData userId dataType key s).1 = Ok before →
  LocalStorage.storeEncryptedData userId data dataType key s = (Ok id, s') →
  length (index_of userId (sys_local s')) = S (length (index_of userId (sys_local s))) →
  LocalStorage.retrieveEncryptedData userId dataType key s'
  = (Ok (before ++ (if is_null data then [] else [data])), s').
Proof.
  intros Hinv Hser Hbefore Hrun Hlen.
  destruct (storeEncryptedData_no_eviction _ _ _ _ _ _ _ Hinv Hrun Hlen)
    as (text & item & t & Htext & Hitem & -> & _ & Hrecords & Hindex & _ & _ & _
        & Hnew & Hfresh).
  by apply (LocalStorage_retrieve_after_insert _ _ _ _ s s' before text item t).
Qed.

End local_round_trip.

Section local_undo.
Context `{R : Runtime}.

(** X16.  Delete undoes store.  Under the hypotheses of the round trip,
    deleting the record with the identifier the store returned and its
    data type returns normally and leaves the records of the local store
    and the index of every user as they were before the store. *)
Theorem LocalStorage_store_delete (userId dataType key : string) (data : Value)
    (s : Sys) (id : string) (s' : Sys) :
  local_inv (sys_uuid s) (sys_local s) →
  LocalStorage.storeEncryptedData userId data dataType key s = (Ok id, s') →
  length (index_of userId (sys_local s')) = S (length (index_of userId (sys_local s))) →
  ∃ s'',
    LocalStorage.deleteEncryptedData userId id dataType s' = (Ok tt, s'')
    ∧ ls_records (sys_local s'') = ls_records (sys_local s)
    ∧ ∀ u, index_of u (sys_local s'') = index_of u (sys_local s).
Proof.
  intros Hinv Hrun Hlen.
  destruct (storeEncryptedData_no_eviction _ _ _ _ _ _ _ Hinv Hrun Hlen)
    as (text & item & t & _ & _ & -> & _ & Hrecords & Hindex & Hothers & Hquota & Husage
        & Hnew & Hfresh).
  assert (filter (λ e, ie_id e ≠ uuid_of (sys_uuid s)) (index_of userId (sys_local s'))
          = index_of userId (sys_local s)) as Hfilter.
  { rewrite Hindex, filter_app, filter_cons, decide_False, filter_nil, app_nil_r
      by (cbn; auto).
    clear -Hfresh. induction (index_of userId (sys_local s)) as [|e l IH]; [done|].
    rewrite filter_cons, decide_True by (apply Hfresh; left).
    rewrite IH; [done|]. intros e' He'. apply Hfresh. by right. }
  rewrite deleteEncryptedData_run. cbn zeta.
  rewrite Hfilter, Hrecords, delete_insert_id, Hquota by done.
  destruct (ls_indexes (sys_local s') !! userId) as [ix|] eqn:Hix.
  2:{ exfalso. unfold index_of in Hindex at 1. rewrite Hix in Hindex.
      apply (f_equal length) in Hindex. rewrite length_app in Hindex.
      simpl in Hindex. lia. }
  assert (ix = index_of userId (sys_local s)
               ++ [mkIndexEntry (uuid_of (sys_uuid s)) dataType t]) as Hix'.
  { unfold index_of in Hindex at 1. by rewrite Hix in Hindex. }
  rewrite decide_True.
  - eexists. split; [reflexivity|]. cbn. split; [done|].
    intros u. destruct (decide (u = userId)) as [->|Hu].
    + apply index_of_insert_eq.
    + rewrite <- (Hothers u Hu). unfold index_of. cbn. by rewrite lookup_insert_ne.
  - etrans; [|exact Husage].
    destruct (sys_local s') as [records' indexes' quota'] eqn:Hls'.
    cbn [ls_records ls_indexes ls_quota] in *. subst records' quota'.
    etrans; [apply (usage_replace_index userId ix)|]; [done| |].
    + apply index_length_mono. rewrite Hix', sum_list_with_app. lia.
    + rewrite <- (delete_insert_id (ls_records (sys_local s))
                    (userId, dataType, uuid_of (sys_uuid s)) item) at 1 by done.
      apply usage_delete_record.
Qed.

(** X17.  [updateEncryptedData] keeps the invariant of the index,
    whatever it returns, and changes no index. *)
Theorem LocalStorage_update_keeps_inv (n : nat) (userId id dataType : string)
    (data : Value) (key : string) (s : Sys) (r : Result unit) (s' : Sys) :
  local_inv n (sys_local s) →
  LocalStorage.updateEncryptedData userId id dataType data key s = (r, s') →
  local_inv n (sys_local s')
  ∧ (∀ u, index_of u (sys_local s') = index_of u (sys_local s))
  ∧ (∀ k, is_Some (ls_records (sys_local s') !! k)
          ↔ is_Some (ls_records (sys_local s) !! k)).
Proof.
  intros Hinv.
  unfold LocalStorage.updateEncryptedData, try_catch, bind at 1,
    EncryptionService.encryptData, bind at 1, random_salt, of_result.
  destruct (EncryptionService.encrypt_with _ data key) as [c|e].
  2:{ unfold throw. intros [= <- <-]. done. }
  unfold bind at 1, in_local at 1, zoom, LocalStorage.getItem_record, gets.
  cbn [fst snd sys_local set_local].
  destruct (ls_records (sys_local s) !! (userId, dataType, id)) as [parsedItem|] eqn:Hitem.
  2:{ unfold throw. intros [= <- <-]. cbn. by destruct (sys_local s). }
  unfold bind, Date_now. rewrite setItem_record_run. cbn zeta.
  cbn [sys_local set_local sys_now sys_uuid sys_salt sys_supabase sys_drive].
  case_decide as Hfits.
  2:{ unfold throw. intros [= <- <-]. done. }
  intros [= <- <-]. cbn [sys_local].
  destruct (sys_local s) as [records indexes quota] eqn:Hls.
  cbn [ls_records ls_indexes ls_quota] in *.
  assert (∀ k, is_Some (<[(userId, dataType, id) := mkStorageItem (si_id parsedItem)
                  (si_userId parsedItem) (si_dataType parsedItem) c
                  (si_storageLocation parsedItem) (si_createdAt parsedItem) (sys_now s)]>
                records !! k) ↔ is_Some (records !! k)) as Hdom.
  { intros k. rewrite lookup_insert_is_Some'. split; [|by right].
    intros [<-|?]; [by eexists|done]. }
  split; [|split; [done|exact Hdom]].
  destruct Hinv as (Hnodup & Hiff & Hids & Huse).
  split; [exact Hnodup|]. split; [|split; [exact Hids|exact Hfits]].
  intros u dt i. cbn [ls_records]. rewrite Hdom. apply Hiff.
Qed.

End local_undo.

Lemma bind_Ok_inv {S A B} (m : M S A) (k : A → M S B) s b s' :
  bind m k s = (Ok b, s') → ∃ a s1, m s = (Ok a, s1) ∧ k a s1 = (Ok b, s').
Proof. unfold bind. destruct (m s) as [[a|e] s1]; [eauto|done]. Qed.

Section plain_local.
Context `{R : Runtime}.

(** Both classes start with the same steps, up to the first write. *)
Lemma LocalStoragePlain_first_write u data dt key s :
  match first_write u data dt key s with
  | None =>
      LocalStoragePlain.storeEncryptedData u data dt key s
      = LocalStorage.storeEncryptedData u data dt key s
  | Some ls' =>
      if decide (LocalStorage.usage ls' ≤ ls_quota (sys_local s))
      then LocalStoragePlain.storeEncryptedData u data dt key s
           = LocalStorage.storeEncryptedData u data dt key s
      else LocalStoragePlain.storeEncryptedData u data dt key s
           = (Throw (new_Error ("Failed to store data locally: "
                                +:+ toString LocalStorage.QuotaExceededError)),
              mkSys (S (S (sys_now s))) (S (sys_uuid s)) (S (sys_salt s)) (sys_local s)
                (sys_supabase s) (sys_drive s))
  end.
Proof.
  unfold first_write, LocalStoragePlain.storeEncryptedData, LocalStorage.storeEncryptedData,
    try_catch, bind, EncryptionService.encryptData, random_salt, of_result, randomUUID,
    Date_now, throw, ret.
  unfold bind.
  cbn [sys_now sys_uuid sys_salt sys_local sys_supabase sys_drive].
  destruct (EncryptionService.encrypt_with (sys_salt s) data key) as [c|e]; [|done].
  rewrite !setItem_record_run. cbn zeta.
  cbn [sys_now sys_uuid sys_salt sys_local sys_supabase sys_drive].
  by case_decide as Hfits.
Qed.

(** X18.  The simpler [LocalStorage] class and the one that handles the
    quota, in a browser that provides [localStorage].  Whenever the
    simpler class stores a value and returns, the other one does exactly
    the same: same identifier, same state.  They differ only when the
    first write of the record is refused: unless
    it is, the two classes have the same outcome and leave the same
    state, whether they return or throw; and when it is, the simpler
    class throws the wrapped quota error and leaves the store as it
    was. *)
Theorem LocalStoragePlain_agrees (userId dataType key : string) (data : Value)
    (s : Sys) :
  (∀ id s',
     LocalStoragePlain.storeEncryptedData userId data dataType key s = (Ok id, s') →
     LocalStorage.storeEncryptedData userId data dataType key s = (Ok id, s'))
  ∧ (¬ first_write_refused userId data dataType key s →
     LocalStorage.storeEncryptedData userId data dataType key s
     = LocalStoragePlain.storeEncryptedData userId data dataType key s)
  ∧ (first_write_refused userId data dataType key s →
     LocalStoragePlain.storeEncryptedData userId data dataType key s
     = (Throw (new_Error
          "Failed to store data locally: QuotaExceededError: The quota has been exceeded."),
        mkSys (S (S (sys_now s))) (S (sys_uuid s)) (S (sys_salt s)) (sys_local s)
          (sys_supabase s) (sys_drive s))).
Proof.
  pose proof (LocalStoragePlain_first_write userId data dataType key s) as Hfirst.
  unfold first_write_refused.
  destruct (first_write userId data dataType key s) as [ls'|].
  - case_decide as Hfits.
    + split; [intros id s' Hrun; by rewrite <- Hfirst|].
      split; [done|]. intros (ls & [= <-] & Hnot). done.
    + split; [intros id s' Hrun; by rewrite Hfirst in Hrun|].
      split; [|by intros _].
      intros Hnot. destruct Hnot. by exists ls'.
  - split; [intros id s' Hrun; by rewrite <- Hfirst|].
    split; [done|]. by intros (ls & [=] & _).
Qed.

End plain_local.

Section local_round_trip_runs.
#[local] Existing Instance Toy.runtime.
Import Sample.

Lemma LocalStoragePlain_agrees_witness :
  LocalStoragePlain.storeEncryptedData "u1" paracetamol "medicines" "secret"
    (sys_with (empty_local 5000) supabase_ready drive_ready)
  = (Ok (uuid_of 0),
     (LocalStoragePlain.storeEncryptedData "u1" paracetamol "medicines" "secret"
        (sys_with (empty_local 5000) supabase_ready drive_ready)).2)
  ∧ LocalStorage.storeEncryptedData "u1" paracetamol "medicines" "secret"
      (sys_with (empty_local 5000) supabase_ready drive_ready)
    = (Ok (uuid_of 0),
       (LocalStoragePlain.storeEncryptedData "u1" paracetamol "medicines" "secret"
          (sys_with (empty_local 5000) supabase_ready drive_ready)).2).
Proof.
  split; [vm_compute; reflexivity|].
  apply (proj1 (LocalStoragePlain_agrees (R := Toy.runtime) "u1" "medicines" "secret"
                  paracetamol (sys_with (empty_local 5000) supabase_ready drive_ready))).
  vm_compute; reflexivity.
Defined.

(** In the store with room for one record, the first write of a second
    record is refused. *)
Example first_write_refused_sample :
  first_write_refused "u1" (Toy.JBool true) "medicines" "secret"
    (sys_with local_tight supabase_ready drive_ready).
Proof.
  eexists. split; [reflexivity|]. apply (bool_decide_unpack _). vm_compute. reflexivity.
Qed.

(** Where the two classes differ, and what the quota handling costs: in
    a store with room for one record, the simpler class refuses the
    second record; the other class returns normally, having removed the
    first record to make room. *)
Example storeEncryptedData_evicts :
  (LocalStorage.retrieveEncryptedData "u1" "medicines" "secret"
     (sys_with local_tight supabase_ready drive_ready)).1 = Ok [paracetamol]
  ∧ (LocalStoragePlain.storeEncryptedData "u1" (Toy.JBool true) "medicines" "secret"
       (sys_with local_tight supabase_ready drive_ready)).1
    = Throw (new_Error
        "Failed to store data locally: QuotaExceededError: The quota has been exceeded.")
  ∧ (LocalStorage.storeEncryptedData "u1" (Toy.JBool true) "medicines" "secret"
       (sys_with local_tight supabase_ready drive_ready)).1 = Ok (uuid_of 0)
  ∧ (LocalStorage.retrieveEncryptedData "u1" "medicines" "secret"
       (LocalStorage.storeEncryptedData "u1" (Toy.JBool true) "medicines" "secret"
          (sys_with local_tight supabase_ready drive_ready)).2).1
    = Ok [Toy.JBool true].
Proof. repeat split; vm_compute; reflexivity. Qed.

Lemma LocalStorage_store_retrieve_witness :
  local_inv (sys_uuid (sys_with (empty_local 5000) supabase_ready drive_ready))
    (sys_local (sys_with (empty_local 5000) supabase_ready drive_ready))
  ∧ serializable (H := Toy.runtime) paracetamol
  ∧ (LocalStorage.retrieveEncryptedData "u1" "medicines" "secret"
       (sys_with (empty_local 5000) supabase_ready drive_ready)).1 = Ok []
  ∧ LocalStorage.retrieveEncryptedData "u1" "medicines" "secret"
      (LocalStorage.storeEncryptedData "u1" paracetamol "medicines" "secret"
         (sys_with (empty_local 5000) supabase_ready drive_ready)).2
    = (Ok ([] ++ (if is_null paracetamol then [] else [paracetamol])),
       (LocalStorage.storeEncryptedData "u1" paracetamol "medicines" "secret"
          (sys_with (empty_local 5000) supabase_ready drive_ready)).2).
Proof.
  assert (serializable (H := Toy.runtime) paracetamol) as Hser
    by (eexists; split; vm_compute; reflexivity).
  split; [apply local_inv_empty|]. split; [exact Hser|]. split; [vm_compute; reflexivity|].
  apply (LocalStorage_store_retrieve (R := Toy.runtime) (L := Toy_laws)
           "u1" "medicines" "secret" paracetamol
           (sys_with (empty_local 5000) supabase_ready drive_ready) [] (uuid_of 0)).
  - apply local_inv_empty.
  - exact Hser.
  - vm_compute; reflexivity.
  - vm_compute; reflexivity.
  - vm_compute; reflexivity.
Defined.

(** A stored [null] is not read back. *)
Example LocalStorage_null_not_returned :
  (LocalStorage.storeEncryptedData "u1" Toy.JNull "medicines" "secret"
     (sys_with (empty_local 5000) supabase_ready drive_ready)).1 = Ok (uuid_of 0)
  ∧ (LocalStorage.retrieveEncryptedData "u1" "medicines" "secret"
       (LocalStorage.storeEncryptedData "u1" Toy.JNull "medicines" "secret"
          (sys_with (empty_local 5000) supabase_ready drive_ready)).2).1 = Ok [].
Proof. split; vm_compute; reflexivity. Qed.

Lemma LocalStorage_store_delete_witness :
  local_inv (sys_uuid (sys_with (empty_local 5000) supabase_ready drive_ready))
    (sys_local (sys_with (empty_local 5000) supabase_ready drive_ready))
  ∧ ∃ s'',
      LocalStorage.deleteEncryptedData "u1" (uuid_of 0) "medicines"
        (LocalStorage.storeEncryptedData "u1" paracetamol "medicines" "secret"
           (sys_with (empty_local 5000) supabase_ready drive_ready)).2 = (Ok tt, s'')
      ∧ ls_records (sys_local s'')
        = ls_records (sys_local (sys_with (empty_local 5000) supabase_ready drive_ready))
      ∧ ∀ u, index_of u (sys_local s'')
             = index_of u (sys_local (sys_with (empty_local 5000) supabase_ready
                                        drive_ready)).
Proof.
  split; [apply local_inv_empty|].
  apply (LocalStorage_store_delete (R := Toy.runtime) "u1" "medicines" "secret"
           paracetamol (sys_with (empty_local 5000) supabase_ready drive_ready)
           (uuid_of 0)).
  - apply local_inv_empty.
  - vm_compute; reflexivity.
  - vm_compute; reflexivity.
Defined.

Lemma LocalStorage_update_keeps_inv_witness :
  local_inv 2 (sys_local one_record_left)
  ∧ LocalStorage.updateEncryptedData "u1" (uuid_of 1) "medicines" paracetamol "secret"
      one_record_left
    = (Ok tt,
       (LocalStorage.updateEncryptedData "u1" (uuid_of 1) "medicines" paracetamol "secret"
          one_record_left).2)
  ∧ local_inv 2
      (sys_local
         (LocalStorage.updateEncryptedData "u1" (uuid_of 1) "medicines" paracetamol
            "secret" one_record_left).2)
  ∧ (∀ u, index_of u
            (sys_local
               (LocalStorage.updateEncryptedData "u1" (uuid_of 1) "medicines" paracetamol
                  "secret" one_record_left).2)
          = index_of u (sys_local one_record_left))
  ∧ (∀ k, is_Some (ls_records
                     (sys_local
                        (LocalStorage.updateEncryptedData "u1" (uuid_of 1) "medicines"
                           paracetamol "secret" one_record_left).2) !! k)
          ↔ is_Some (ls_records (sys_local one_record_left) !! k)).
Proof.
  split; [exact one_record_left_inv|]. split; [vm_compute; reflexivity|].
  apply (LocalStorage_update_keeps_inv (R := Toy.runtime) 2 "u1" (uuid_of 1) "medicines"
           paracetamol "secret" one_record_left (Ok tt) _ one_record_left_inv).
  vm_compute; reflexivity.
Defined.

End local_round_trip_runs.

(* ------------------------------------------------------------------ *)
(** ** GoogleDriveStorage: what is stored can be read *)

Lemma filter_none {A} (P : A → Prop) `{!∀ x, Decision (P x)} (l : list A) :
  (∀ x, x ∈ l → ¬ P x) → filter P l = [].
Proof.
  induction l as [|x l IH]; intros Hnone; [done|].
  rewrite filter_cons, decide_False by (apply Hnone; left).
  apply IH. intros y Hy. apply Hnone. by right.
Qed.

Lemma getOrCreateFolder_Ok s id s' :
  GoogleDriveStorage.getOrCreateFolder s = (Ok id, s') →
  gd_reachable (sys_drive s) = true
  ∧ sys_local s' = sys_local s ∧ sys_supabase s' = sys_supabase s
  ∧ sys_now s' = sys_now s ∧ sys_salt s' = sys_salt s
  ∧ accessToken (sys_drive s') = accessToken (sys_drive s)
  ∧ gd_reachable (sys_drive s') = true
  ∧ ((∃ folder rest,
        filter (λ f, file_is_folder f = true ∧ file_name f = "undefined")
          (gd_files (sys_drive s)) = folder :: rest
        ∧ id = file_id folder ∧ s' = s)
     ∨ (filter (λ f, file_is_folder f = true ∧ file_name f = "undefined")
          (gd_files (sys_drive s)) = []
        ∧ id = uuid_of (sys_uuid s)
        ∧ sys_uuid s' = S (sys_uuid s)
        ∧ gd_files (sys_drive s')
          = gd_files (sys_drive s)
            ++ [mkDriveFile id GoogleDriveStorage.untitled true [] ""])).
Proof.
  unfold GoogleDriveStorage.getOrCreateFolder, GoogleDriveStorage.fetch, bind at 1, gets.
  unfold bind at 1.
  destruct (gd_reachable (sys_drive s)) eqn:Hup; [|done].
  unfold ret at 1, bind at 1.
  change (GoogleDriveStorage.template GoogleDriveStorage.this_FOLDER_NAME)
    with "undefined".
  destruct (filter _ (gd_files (sys_drive s))) as [|folder rest] eqn:Hfound.
  - unfold GoogleDriveStorage.createEncryptedFolder, GoogleDriveStorage.require_token,
      GoogleDriveStorage.fetch, bind, gets, randomUUID, in_drive, zoom, modify, ret, throw.
    destruct (accessToken (sys_drive s)) eqn:Htoken; [|done].
    rewrite Hup. cbn. intros [= <- <-]. cbn.
    do 7 (split; [done|]). right. done.
  - unfold ret. intros [= <- <-]. do 7 (split; [done|]). left. eauto.
Qed.

Section drive_round_trip.
Context `{R : Runtime} {L : RuntimeLaws R}.
Import EncryptionService.

Lemma GoogleDriveStorage_store_Ok data dt key s id s' :
  GoogleDriveStorage.storeEncryptedData data dt key s = (Ok id, s') →
  ∃ text folder s1,
    JSON_stringify data = Some text
    ∧ is_Some (accessToken (sys_drive s))
    ∧ GoogleDriveStorage.getOrCreateFolder
        (mkSys (S (sys_now s)) (sys_uuid s) (S (sys_salt s)) (sys_local s)
           (sys_supabase s) (sys_drive s)) = (Ok folder, s1)
    ∧ id = uuid_of (sys_uuid s1)
    ∧ s' = mkSys (sys_now s1) (S (sys_uuid s1)) (sys_salt s1) (sys_local s1)
             (sys_supabase s1)
             (GoogleDriveStorage.add_file
                (mkDriveFile id (dt +:+ "_" +:+ pretty (sys_now s) +:+ ".encrypted")
                   false [folder] (AES_encrypt (sys_salt s) text key))
                (sys_drive s1)).
Proof.
  unfold GoogleDriveStorage.storeEncryptedData, GoogleDriveStorage.require_token,
    bind at 1, bind at 1, gets, throw.
  destruct (accessToken (sys_drive s)) as [token|] eqn:Htoken; [|done].
  unfold ret at 1, bind at 1, encryptData, bind at 1, random_salt, of_result, encrypt_with.
  destruct (JSON_stringify data) as [text|]; [|done].
  unfold bind at 1, Date_now. cbn [sys_now sys_uuid sys_salt sys_local sys_supabase sys_drive].
  unfold bind at 1.
  destruct (GoogleDriveStorage.getOrCreateFolder _) as [[folder|e] s1] eqn:Hfolder; [|done].
  pose proof (getOrCreateFolder_Ok _ _ _ Hfolder) as (_ & _ & _ & _ & _ & _ & Hup & _).
  unfold GoogleDriveStorage.fetch, bind, gets, randomUUID, in_drive, zoom, modify, ret, throw.
  rewrite Hup. cbn. intros [= <- <-].
  exists text, folder, s1. split; [done|]. split; [by eexists|]. done.
Qed.

Lemma GoogleDriveStorage_retrieve_run fileId key s :
  GoogleDriveStorage.retrieveEncryptedData fileId key s
  = (drive_read (sys_drive s) key fileId, s).
Proof.
  unfold GoogleDriveStorage.retrieveEncryptedData, GoogleDriveStorage.require_token,
    GoogleDriveStorage.fetch, bind, gets, of_result, ret, throw, drive_read.
  destruct (accessToken (sys_drive s)); [|done].
  by destruct (gd_reachable (sys_drive s)).
Qed.

(** The file a store has written is the one read under its identifier. *)
Lemma GoogleDriveStorage_store_read data dt key s id s' :
  serializable data →
  (∀ f, f ∈ gd_files (sys_drive s) → ∃ m, m < sys_uuid s ∧ file_id f = uuid_of m) →
  GoogleDriveStorage.storeEncryptedData data dt key s = (Ok id, s') →
  drive_read (sys_drive s') key id = Ok data.
Proof.
  intros (text & Htext & Hparse) Hissued Hrun.
  apply GoogleDriveStorage_store_Ok in Hrun
    as (text' & folder & s1 & Htext' & [token Htoken] & Hfolder & -> & ->).
  assert (text' = text) as -> by congruence.
  pose proof (getOrCreateFolder_Ok _ _ _ Hfolder)
    as (_ & _ & _ & _ & _ & Htoken1 & Hup1 & Hcases).
  cbn [sys_drive sys_uuid] in *.
  assert (filter (λ f, file_id f = uuid_of (sys_uuid s1)) (gd_files (sys_drive s1)) = [])
    as Hfresh.
  { apply filter_none. intros f Hf Hid.
    assert (∃ m, m < sys_uuid s1 ∧ file_id f = uuid_of m) as (m & Hm & Hm').
    { destruct Hcases as [(? & ? & _ & _ & ->)|(_ & -> & Huuid & Hfiles)].
      - by apply Hissued.
      - rewrite Hfiles, elem_of_app, list_elem_of_singleton in Hf.
        destruct Hf as [Hf| ->].
        + destruct (Hissued f Hf) as (m & Hm & Hm'). exists m. split; [lia|done].
        + exists (sys_uuid s). split; [lia|done]. }
    rewrite Hid in Hm'. apply uuid_of_inj in Hm'. lia. }
  unfold drive_read.
  cbn [sys_drive GoogleDriveStorage.add_file accessToken gd_reachable gd_files].
  rewrite Htoken1, Htoken, Hup1.
  rewrite filter_app, Hfresh, filter_cons, decide_True, filter_nil by done.
  cbn. unfold decryptData. rewrite AES_decrypt_encrypt.
  rewrite decide_False by by eapply serializable_text_nonempty.
  by rewrite Hparse.
Qed.

(** X19.  Round trip through the file store.  If every file of the
    store carries an identifier issued before the call, then after
    [storeEncryptedData] has returned an identifier for a serializable
    value, [retrieveEncryptedData] with that identifier and the same key
    returns the value. *)
Theorem GoogleDriveStorage_store_retrieve (data : Value) (dataType key : string)
    (s : Sys) (id : string) (s' : Sys) :
  serializable data →
  (∀ f, f ∈ gd_files (sys_drive s) → ∃ m, m < sys_uuid s ∧ file_id f = uuid_of m) →
  GoogleDriveStorage.storeEncryptedData data dataType key s = (Ok id, s') →
  GoogleDriveStorage.retrieveEncryptedData id key s' = (Ok data, s').
Proof.
  intros Hser Hissued Hrun. rewrite GoogleDriveStorage_retrieve_run.
  by rewrite (GoogleDriveStorage_store_read _ _ _ _ _ _ Hser Hissued Hrun).
Qed.

End drive_round_trip.

Section drive_runs.
#[local] Existing Instance Toy.runtime.
Import Sample.

Lemma GoogleDriveStorage_store_retrieve_witness :
  serializable (H := Toy.runtime) paracetamol
  ∧ GoogleDriveStorage.retrieveEncryptedData (uuid_of 1) "secret"
      (GoogleDriveStorage.storeEncryptedData paracetamol "medicines" "secret"
         (sys_with (empty_local 5000) supabase_ready drive_ready)).2
    = (Ok paracetamol,
       (GoogleDriveStorage.storeEncryptedData paracetamol "medicines" "secret"
          (sys_with (empty_local 5000) supabase_ready drive_ready)).2).
Proof.
  assert (serializable (H := Toy.runtime) paracetamol) as Hser
    by (eexists; split; vm_compute; reflexivity).
  split; [exact Hser|].
  apply (GoogleDriveStorage_store_retrieve (R := Toy.runtime) (L := Toy_laws)
           paracetamol "medicines" "secret"
           (sys_with (empty_local 5000) supabase_ready drive_ready) (uuid_of 1) _ Hser).
  - intros f Hf. by apply elem_of_nil in Hf.
  - vm_compute; reflexivity.
Defined.

(** The folder the class creates is not the folder it searches for.
    The file a store has written sits in a new folder; the listing that
    follows finds no folder named [undefined], creates one more folder
    and lists nothing, so that [retrieveData] returns no record. *)
Example stored_file_not_listed :
  let s1 := (GoogleDriveStorage.storeEncryptedData paracetamol "medicines" "secret"
               (sys_with (empty_local 5000) supabase_ready drive_ready)).2 in
  length (gd_files (sys_drive s1)) = 2
  ∧ (GoogleDriveStorage.listEncryptedFiles s1).1 = Ok []
  ∧ length (gd_files (sys_drive (GoogleDriveStorage.listEncryptedFiles s1).2)) = 3
  ∧ (StorageManager.retrieveData (config [google_drive]) "medicines" (mkWorld s1 [])).1
    = Ok [].
Proof. repeat split; vm_compute; reflexivity. Qed.

End drive_runs.

(* ------------------------------------------------------------------ *)
(** ** StorageManager: reading the file store by data type *)

Lemma prefix_trans (a b c : string) :
  String.prefix a b = true → String.prefix b c = true → String.prefix a c = true.
Proof.
  revert a b. induction c as [|z c IH]; intros a b.
  - destruct b as [|y b]; [|by destruct a].
    destruct a; [done|]. simpl. done.
  - destruct a as [|x a]; [done|]. destruct b as [|y b]; [done|]. simpl.
    destruct (Ascii.ascii_dec x y) as [->|]; [|done].
    destruct (Ascii.ascii_dec y z) as [->|]; [|done].
    apply IH.
Qed.

Lemma filter_sublist_impl {A} (P Q : A → Prop) `{!∀ x, Decision (P x)}
    `{!∀ x, Decision (Q x)} (l : list A) :
  (∀ x, P x → Q x) → filter P l `sublist_of` filter Q l.
Proof.
  intros HPQ. induction l as [|x l IH]; [done|].
  rewrite !filter_cons. destruct (decide (P x)) as [HP|HP].
  - rewrite decide_True by auto. by constructor.
  - case_decide; [by constructor|done].
Qed.

Lemma map_result_sublist {A B} (f : A → Result B) (l' l : list A) (vs : list B) :
  l' `sublist_of` l → map_result f l = Ok vs →
  ∃ vs', map_result f l' = Ok vs' ∧ vs' `sublist_of` vs.
Proof.
  intros Hsub. revert vs. induction Hsub as [|x l1 l2 Hsub IH|x l1 l2 Hsub IH]; intros vs.
  - intros [= <-]. by exists [].
  - simpl. destruct (f x) as [y|e]; [|done].
    destruct (map_result f l2) as [ys|e]; [|done]. intros [= <-].
    destruct (IH ys eq_refl) as (ys' & -> & Hys). exists (y :: ys'). by split; [|constructor].
  - simpl. destruct (f x) as [y|e]; [|done].
    destruct (map_result f l2) as [ys|e]; [|done]. intros [= <-].
    destruct (IH ys eq_refl) as (ys' & Hrun & Hys). exists ys'. by split; [|constructor].
Qed.

Section drive_by_type.
Context `{R : Runtime}.
Import EncryptionService StorageManager.

Lemma retrieve_files_run key files s :
  retrieve_files key files s
  = (map_result (λ f, drive_read (sys_drive s) key (file_id f)) files, s).
Proof.
  induction files as [|f files IH]; [done|]. simpl.
  unfold bind at 1. rewrite GoogleDriveStorage_retrieve_run.
  destruct (drive_read _ _ _) as [v|e]; [|done].
  unfold bind. rewrite IH. by destruct (map_result _ files).
Qed.

Lemma retrieve_google_drive_run cfg dt s files s1 :
  GoogleDriveStorage.listEncryptedFiles s = (Ok files, s1) →
  (retrieve_google_drive cfg dt s).1
  = map_result (λ f, drive_read (sys_drive s1) (encryptionKey cfg) (file_id f))
      (filter (λ file, String.prefix dt (file_name file) = true) files).
Proof.
  intros Hlist. unfold retrieve_google_drive, bind. rewrite Hlist.
  case_decide as Hempty.
  - apply nil_length_inv in Hempty. by rewrite Hempty.
  - by rewrite retrieve_files_run.
Qed.

(** X20.  Reading the file store by data type is reading by name
    prefix: the manager takes every listed file whose name starts with
    the data type.  So, from the same state, what is read for a data
    type is part of what is read for any prefix of it, in the same
    order. *)
Theorem retrieve_google_drive_prefix (cfg : StorageConfig) (dataType longer : string)
    (s : Sys) (vs vs' : list Value) :
  String.prefix dataType longer = true →
  (retrieve_google_drive cfg dataType s).1 = Ok vs →
  (retrieve_google_drive cfg longer s).1 = Ok vs' →
  vs' `sublist_of` vs.
Proof.
  intros Hprefix Hshort Hlong.
  destruct (GoogleDriveStorage.listEncryptedFiles s) as [[files|e] s1] eqn:Hlist.
  2:{ unfold retrieve_google_drive, bind in Hshort. by rewrite Hlist in Hshort. }
  rewrite (retrieve_google_drive_run cfg _ s files s1 Hlist) in Hshort.
  rewrite (retrieve_google_drive_run cfg _ s files s1 Hlist) in Hlong.
  destruct (map_result_sublist _
              (filter (λ file, String.prefix longer (file_name file) = true) files)
              _ vs
              (filter_sublist_impl _ _ files
                 (λ file, prefix_trans dataType longer (file_name file) Hprefix))
              Hshort) as (vs'' & Hrun & Hsub).
  rewrite Hrun in Hlong. by injection Hlong as <-.
Qed.

End drive_by_type.

Section drive_by_type_runs.
#[local] Existing Instance Toy.runtime.
Import StorageManager Sample.

Lemma retrieve_google_drive_prefix_witness :
  String.prefix "med" "medicines" = true
  ∧ (retrieve_google_drive (config [google_drive]) "med"
       (sys_with (empty_local 5000) supabase_ready drive_with_record)).1 = Ok [paracetamol]
  ∧ (retrieve_google_drive (config [google_drive]) "medicines"
       (sys_with (empty_local 5000) supabase_ready drive_with_record)).1 = Ok [paracetamol]
  ∧ [paracetamol] `sublist_of` [paracetamol].
Proof.
  split; [reflexivity|]. split; [vm_compute; reflexivity|].
  split; [vm_compute; reflexivity|].
  apply (retrieve_google_drive_prefix (R := Toy.runtime) (config [google_drive])
           "med" "medicines" (sys_with (empty_local 5000) supabase_ready drive_with_record)).
  - reflexivity.
  - vm_compute; reflexivity.
  - vm_compute; reflexivity.
Defined.

End drive_by_type_runs.

(* ------------------------------------------------------------------ *)
(** ** StorageManager: storing, reading back, copying *)

Lemma SupabaseStorage_store_frame_local `{R : Runtime} u data dt key s :
  sys_local (SupabaseStorage.storeEncryptedData u data dt key s).2 = sys_local s.
Proof.
  unfold SupabaseStorage.storeEncryptedData, SupabaseStorage.storeInProfilesTable,
    SupabaseStorage.insert_row, SupabaseStorage.create_encrypted_data_table,
    EncryptionService.encryptData, try_catch, bind, gets, throw, ret, of_result,
    random_salt, randomUUID, Date_now, in_supabase, zoom, modify.
  repeat (case_match; simplify_eq/=; try done).
Qed.

Lemma GoogleDriveStorage_store_frame_local `{R : Runtime} data dt key s :
  sys_local (GoogleDriveStorage.storeEncryptedData data dt key s).2 = sys_local s.
Proof.
  unfold GoogleDriveStorage.storeEncryptedData, GoogleDriveStorage.getOrCreateFolder,
    GoogleDriveStorage.createEncryptedFolder, GoogleDriveStorage.require_token,
    GoogleDriveStorage.fetch, EncryptionService.encryptData, bind, gets, throw, ret,
    of_result, random_salt, randomUUID, Date_now, in_drive, zoom, modify.
  repeat (case_match; simplify_eq/=; try done).
Qed.

Section store_then_read.
Context `{R : Runtime}.
Import StorageManager.

Lemma store_in_frame_local cfg storage data dt w :
  storage ≠ local →
  sys_local (w_sys (store_in cfg storage data dt w).2) = sys_local (w_sys w).
Proof.
  intros Hother. unfold store_in, bind, called, modify, in_sys, zoom. cbn [w_sys w_calls].
  destruct storage; [| |done].
  - pose proof (GoogleDriveStorage_store_frame_local data dt (encryptionKey cfg) (w_sys w)).
    by destruct (GoogleDriveStorage.storeEncryptedData _ _ _ _).
  - pose proof (SupabaseStorage_store_frame_local (userId cfg) data dt (encryptionKey cfg)
                  (w_sys w)).
    by destruct (SupabaseStorage.storeEncryptedData _ _ _ _ _).
Qed.

Lemma store_attempts_frame_local cfg data dt l w outs w' :
  local ∉ l →
  store_attempts cfg data dt l w outs w' →
  sys_local (w_sys w') = sys_local (w_sys w)
  ∧ ∀ o, o ∈ outs → o.1 ≠ local.
Proof.
  intros Hl Hruns. induction Hruns as [w|storage rest w r w1 outs w2 Hrun Hrest IH].
  - split; [done|]. by intros o ?%elem_of_nil.
  - apply not_elem_of_cons in Hl as [Hne Hl]. destruct (IH Hl) as [Hlocal Houts].
    split.
    + rewrite Hlocal.
      pose proof (store_in_frame_local cfg storage data dt w (not_eq_sym Hne)) as Hframe.
      by rewrite Hrun in Hframe.
    + intros o [->|Ho]%elem_of_cons; [by apply not_eq_sym|by apply Houts].
Qed.

Lemma successes_from_keeps (results : gmap StorageOption string)
    (outs : list (StorageOption * Result string)) storage :
  (∀ o, o ∈ outs → o.1 ≠ storage) →
  foldl (λ m o, match o.2 with Ok id => <[o.1 := id]> m | Throw _ => m end) results outs
    !! storage
  = results !! storage.
Proof.
  revert results. induction outs as [|o outs IH]; intros results Hne; [done|]. simpl.
  rewrite IH by (intros o' Ho'; apply Hne; by right).
  destruct (o.2); [|done].
  rewrite lookup_insert_ne; [done|]. apply Hne. by left.
Qed.

(** With the local store first and only there, [storeData] returns as
    soon as the local store has stored, and the later backends leave
    the local store alone. *)
Lemma storeData_local_first cfg rest data dataType w id s1 :
  enabledStorages cfg = local :: rest →
  local ∉ rest →
  LocalStorage.storeEncryptedData (userId cfg) data dataType (encryptionKey cfg) (w_sys w)
  = (Ok id, s1) →
  ∃ results w1,
    storeData cfg data dataType w = (Ok results, w1)
    ∧ results !! local = Some id
    ∧ sys_local (w_sys w1) = sys_local s1.
Proof.
  intros Hcfg Hrest Hstore.
  set (w0 := mkWorld s1 (w_calls w ++ [CallStore local])).
  destruct (storeData_loop_spec cfg data dataType rest (<[local := id]> ∅) [] w0)
    as (outs & w1 & Hattempts & Hloop).
  destruct (store_attempts_frame_local _ _ _ _ _ _ _ Hrest Hattempts) as [Hlocal Houts].
  eexists _, w1. split; [|split; [|done]].
  - unfold storeData. rewrite Hcfg. unfold bind at 1. simpl.
    unfold bind at 1, try_catch, bind at 1, store_in, bind at 1, called, modify, in_sys,
      zoom. cbn [w_sys w_calls]. rewrite Hstore. unfold ret at 1. cbn [fst snd].
    fold w0. rewrite Hloop. cbn [fst snd].
    rewrite decide_False; [reflexivity|].
    pose proof (failures_length_le outs) as Hle.
    rewrite (store_attempts_length _ _ _ _ _ _ _ Hattempts) in Hle. simpl. lia.
  - rewrite successes_from_keeps by done. apply lookup_insert_eq.
Qed.

(** Reading through the manager when the local store comes first and
    can be read. *)
Lemma retrieveData_local_first cfg rest dataType w vs s' :
  enabledStorages cfg = local :: rest →
  LocalStorage.retrieveEncryptedData (userId cfg) dataType (encryptionKey cfg) (w_sys w)
  = (Ok vs, s') →
  retrieveData cfg dataType w = (Ok vs, mkWorld s' (w_calls w ++ [CallRetrieve local])).
Proof.
  intros Hcfg Hread. unfold retrieveData. rewrite Hcfg. simpl.
  unfold try_catch, retrieve_from, bind, called, modify, in_sys, zoom.
  cbn [w_sys w_calls]. by rewrite Hread.
Qed.

Context {L : RuntimeLaws R}.

(** X21.  Store, then read back, through the manager.  The local store
    comes first in the list of enabled backends and only there; it
    satisfies the invariant of the index, and its store of the value
    returns without evicting anything.  Then [storeData] returns, with
    the identifier the local store issued under ['local'], whatever the
    other backends do; and [retrieveData] afterwards returns what the
    local store held before for that data type, followed by the value
    (unless it is [null]). *)
Theorem storeData_then_retrieveData (cfg : StorageConfig) (rest : list StorageOption)
    (data : Value) (dataType : string) (w : World) (before : list Value)
    (id : string) (s1 : Sys) :
  enabledStorages cfg = local :: rest →
  local ∉ rest →
  local_inv (sys_uuid (w_sys w)) (sys_local (w_sys w)) →
  serializable data →
  (LocalStorage.retrieveEncryptedData (userId cfg) dataType (encryptionKey cfg)
     (w_sys w)).1 = Ok before →
  LocalStorage.storeEncryptedData (userId cfg) data dataType (encryptionKey cfg) (w_sys w)
  = (Ok id, s1) →
  length (index_of (userId cfg) (sys_local s1))
  = S (length (index_of (userId cfg) (sys_local (w_sys w)))) →
  ∃ results w1,
    storeData cfg data dataType w = (Ok results, w1)
    ∧ results !! local = Some id
    ∧ (retrieveData cfg dataType w1).1
      = Ok (before ++ (if is_null data then [] else [data])).
Proof.
  intros Hcfg Hrest Hinv Hser Hbefore Hstore Hlen.
  destruct (storeData_local_first _ _ _ _ _ _ _ Hcfg Hrest Hstore)
    as (results & w1 & Hrun & Hid & Hlocal).
  exists results, w1. split; [done|]. split; [done|].
  destruct (storeEncryptedData_no_eviction _ _ _ _ _ _ _ Hinv Hstore Hlen)
    as (text & item & t & Htext & Hitem & -> & _ & Hrecords & Hindex & _ & _ & _
        & Hnew & Hfresh).
  pose proof (LocalStorage_retrieve_after_insert _ _ _ _ (w_sys w) s1 before text item t
                Hser Htext Hitem Hrecords Hindex Hfresh Hbefore) as Hafter.
  pose proof (LocalStorage_retrieve_local_only (userId cfg) dataType (encryptionKey cfg)
                (w_sys w1) s1 Hlocal) as Hsame.
  rewrite Hafter in Hsame. cbn [fst] in Hsame.
  destruct (LocalStorage.retrieveEncryptedData _ _ _ (w_sys w1)) as [r s2] eqn:Hread.
  cbn [fst] in Hsame. subst r.
  by rewrite (retrieveData_local_first _ _ _ _ _ _ Hcfg Hread).
Qed.

End store_then_read.

Section sync_agrees.
Context `{R : Runtime} {L : RuntimeLaws R}.
Import EncryptionService StorageManager.

Lemma store_in_supabase_values cfg dt vs : ∀ w rows old,
  Forall serializable vs →
  supabase_holds rows (w_sys w) →
  map_result (λ item, decryptData (row_encrypted_content item) (encryptionKey cfg))
    (filter (SupabaseStorage.selected (userId cfg) dt) rows) = Ok old →
  ∃ rows' w',
    storeDataInSpecificStorage cfg vs dt supabase w = (Ok tt, w')
    ∧ supabase_holds rows' (w_sys w')
    ∧ sys_local (w_sys w') = sys_local (w_sys w)
    ∧ map_result (λ item, decryptData (row_encrypted_content item) (encryptionKey cfg))
        (filter (SupabaseStorage.selected (userId cfg) dt) rows') = Ok (old ++ vs).
Proof.
  unfold storeDataInSpecificStorage.
  induction vs as [|v vs IH]; intros w rows old Hvs Hready Hold.
  - exists rows, w. rewrite app_nil_r. done.
  - apply Forall_cons in Hvs as [(text & Htext & Hparse) Hvs].
    pose proof (SupabaseStorage_store_run (userId cfg) v dt (encryptionKey cfg)
                  (w_sys w) rows text Hready Htext) as Hrun.
    set (row := mkEncryptedRow _ _ _ _ _ _ _) in Hrun.
    set (s1 := mkSys _ _ _ _ _ _) in Hrun.
    assert (supabase_holds (rows ++ [row]) s1) as Hready1.
    { destruct Hready as (Huser & Hlisted & Hrows). unfold supabase_holds, s1. cbn.
      done. }
    assert (map_result
              (λ item, decryptData (row_encrypted_content item) (encryptionKey cfg))
              (filter (SupabaseStorage.selected (userId cfg) dt) (rows ++ [row]))
            = Ok (old ++ [v])) as Hold1.
    { rewrite filter_app, filter_cons, decide_True, filter_nil by done.
      apply map_result_snoc; [done|]. unfold row. cbn.
      unfold decryptData. rewrite AES_decrypt_encrypt.
      rewrite decide_False by by eapply serializable_text_nonempty.
      by rewrite Hparse. }
    destruct (IH (mkWorld s1 (w_calls w ++ [CallStore supabase])) (rows ++ [row])
                (old ++ [v]) Hvs Hready1 Hold1)
      as (rows' & w' & Hrest & Hready' & Hlocal' & Hold').
    exists rows', w'. split; [|split; [done|split]].
    + simpl. unfold bind at 1, bind at 1, store_in, bind at 1, called, modify, in_sys, zoom.
      cbn [w_sys w_calls]. rewrite Hrun. unfold ret at 1. exact Hrest.
    + by rewrite Hlocal'.
    + by rewrite <- app_assoc in Hold'.
Qed.

(** X22.  After a sync from the local store to the relational store.
    The two are the enabled backends, in this order; the relational
    store is ready for inserts and the values the local store returns
    are serializable.  Then [syncData] returns; afterwards the relational
    store returns, for the user and the data type, what it returned
    before followed by the values of the local store, and the local
    store returns what it did.  So the two agree after a first sync into
    an empty table, and every further sync appends the values once
    more. *)
Theorem syncData_then_retrieve (cfg : StorageConfig) (dataType : string) (w : World)
    (rows : list EncryptedRow) (primaryData old : list Value) :
  enabledStorages cfg = [local; supabase] →
  supabase_holds rows (w_sys w) →
  (LocalStorage.retrieveEncryptedData (userId cfg) dataType (encryptionKey cfg)
     (w_sys w)).1 = Ok primaryData →
  (SupabaseStorage.retrieveEncryptedData (userId cfg) dataType (encryptionKey cfg)
     (w_sys w)).1 = Ok old →
  Forall serializable primaryData →
  ∃ w',
    syncData cfg dataType w = (Ok tt, w')
    ∧ (SupabaseStorage.retrieveEncryptedData (userId cfg) dataType (encryptionKey cfg)
         (w_sys w')).1 = Ok (old ++ primaryData)
    ∧ (LocalStorage.retrieveEncryptedData (userId cfg) dataType (encryptionKey cfg)
         (w_sys w')).1 = Ok primaryData.
Proof.
  intros Hcfg Hready Hread Hold Hvs.
  pose proof Hready as (_ & _ & Hrows).
  rewrite (SupabaseStorage_retrieve_run _ _ _ _ rows Hrows) in Hold.
  assert (map_result
            (λ item, decryptData (row_encrypted_content item) (encryptionKey cfg))
            (filter (SupabaseStorage.selected (userId cfg) dataType) rows) = Ok old)
    as Hold'.
  { destruct (map_result _ _); [|done]. simpl in Hold. by injection Hold as ->. }
  destruct (LocalStorage.retrieveEncryptedData (userId cfg) dataType (encryptionKey cfg)
              (w_sys w)) as [r s0] eqn:Hrun.
  pose proof (LocalStorage_retrieve_reads _ _ _ _ _ _ Hrun) as [-> _].
  simpl in Hread. subst r.
  destruct (store_in_supabase_values cfg dataType primaryData
              (mkWorld (w_sys w) (w_calls w ++ [CallRetrieve local])) rows old
              Hvs Hready Hold')
    as (rows' & w' & Hstore & Hready' & Hlocal & Hafter).
  exists w'. split; [|split].
  - unfold syncData, try_catch, bind at 1, read_primary. rewrite Hcfg. simpl.
    unfold bind at 1, called, modify, in_sys, zoom. cbn [w_sys w_calls]. rewrite Hrun.
    unfold bind, ret. by rewrite Hstore.
  - destruct Hready' as (_ & _ & Hrows').
    by rewrite (SupabaseStorage_retrieve_run _ _ _ _ rows' Hrows'), Hafter.
  - rewrite (LocalStorage_retrieve_local_only _ _ _ (w_sys w') (w_sys w)) by done.
    by rewrite Hrun.
Qed.

End sync_agrees.

Section store_then_read_runs.
#[local] Existing Instance Toy.runtime.
Import StorageManager Sample.

Lemma storeData_then_retrieveData_witness :
  enabledStorages (config [local; supabase; google_drive])
  = [local; supabase; google_drive]
  ∧ (local ∉ [supabase; google_drive])
  ∧ serializable (H := Toy.runtime) paracetamol
  ∧ ∃ results w1,
      storeData (config [local; supabase; google_drive]) paracetamol "medicines"
        (world_with (empty_local 5000) supabase_signed_out drive_signed_out)
      = (Ok results, w1)
      ∧ results !! local = Some (uuid_of 0)
      ∧ (retrieveData (config [local; supabase; google_drive]) "medicines" w1).1
        = Ok ([] ++ (if is_null paracetamol then [] else [paracetamol])).
Proof.
  assert (serializable (H := Toy.runtime) paracetamol) as Hser
    by (eexists; split; vm_compute; reflexivity).
  assert (local ∉ [supabase; google_drive]) as Hrest.
  { intros Hin. apply elem_of_cons in Hin as [?|Hin]; [done|].
    apply elem_of_cons in Hin as [?|Hin]; [done|]. by apply elem_of_nil in Hin. }
  split; [reflexivity|]. split; [exact Hrest|]. split; [exact Hser|].
  apply (storeData_then_retrieveData (R := Toy.runtime) (L := Toy_laws)
           (config [local; supabase; google_drive]) [supabase; google_drive]
           paracetamol "medicines"
           (world_with (empty_local 5000) supabase_signed_out drive_signed_out) []
           (uuid_of 0)
           (LocalStorage.storeEncryptedData (R := Toy.runtime) "u1" paracetamol
              "medicines" "secret"
              (sys_with (empty_local 5000) supabase_signed_out drive_signed_out)).2).
  - reflexivity.
  - exact Hrest.
  - apply local_inv_empty.
  - exact Hser.
  - vm_compute; reflexivity.
  - vm_compute; reflexivity.
  - vm_compute; reflexivity.
Defined.

Lemma syncData_then_retrieve_witness :
  enabledStorages (config [local; supabase]) = [local; supabase]
  ∧ supabase_holds [] (w_sys (world_with local_with_paracetamol supabase_ready drive_ready))
  ∧ Forall (serializable (H := Toy.runtime)) [paracetamol]
  ∧ ∃ w',
      syncData (config [local; supabase]) "medicines"
        (world_with local_with_paracetamol supabase_ready drive_ready) = (Ok tt, w')
      ∧ (SupabaseStorage.retrieveEncryptedData "u1" "medicines" "secret" (w_sys w')).1
        = Ok ([] ++ [paracetamol])
      ∧ (LocalStorage.retrieveEncryptedData "u1" "medicines" "secret" (w_sys w')).1
        = Ok [paracetamol].
Proof.
  assert (Forall (serializable (H := Toy.runtime)) [paracetamol]) as Hser.
  { constructor; [|constructor]. eexists; split; vm_compute; reflexivity. }
  assert (supabase_holds []
            (w_sys (world_with local_with_paracetamol supabase_ready drive_ready)))
    as Hready by (split; [by eexists|split; reflexivity]).
  split; [reflexivity|]. split; [exact Hready|]. split; [exact Hser|].
  apply (syncData_then_retrieve (R := Toy.runtime) (L := Toy_laws)
           (config [local; supabase]) "medicines"
           (world_with local_with_paracetamol supabase_ready drive_ready)
           [] [paracetamol] [] eq_refl Hready); [| |exact Hser].
  - vm_compute; reflexivity.
  - vm_compute; reflexivity.
Defined.

End store_then_read_runs.

(* ------------------------------------------------------------------ *)
(** ** SupabaseStorage: the listing and the statistics made of it *)

Lemma insert_newest_first_perm (r : SupabaseStorage.RowSummary)
    (l : list SupabaseStorage.RowSummary) :
  SupabaseStorage.insert_newest_first r l ≡ₚ r :: l.
Proof.
  induction l as [|x l IH]; [done|]. simpl. case_decide; [done|].
  rewrite IH. apply Permutation_swap.
Qed.

Lemma newest_first_perm (l : list SupabaseStorage.RowSummary) :
  SupabaseStorage.newest_first l ≡ₚ l.
Proof.
  induction l as [|r l IH]; [done|]. simpl.
  by rewrite insert_newest_first_perm, IH.
Qed.

Lemma insert_newest_first_sorted (r : SupabaseStorage.RowSummary)
    (l : list SupabaseStorage.RowSummary) :
  StronglySorted (λ a b, SupabaseStorage.rs_created_at b ≤ SupabaseStorage.rs_created_at a) l →
  StronglySorted (λ a b, SupabaseStorage.rs_created_at b ≤ SupabaseStorage.rs_created_at a)
    (SupabaseStorage.insert_newest_first r l).
Proof.
  induction 1 as [|x rest Hsorted IH Hall]; simpl.
  - by repeat constructor.
  - case_decide as Hle.
    + constructor; [by constructor|]. constructor; [done|].
      eapply Forall_impl; [exact Hall|]. simpl. intros; lia.
    + constructor; [done|]. rewrite insert_newest_first_perm.
      constructor; [lia|done].
Qed.

Lemma newest_first_sorted (l : list SupabaseStorage.RowSummary) :
  StronglySorted (λ a b, SupabaseStorage.rs_created_at b ≤ SupabaseStorage.rs_created_at a)
    (SupabaseStorage.newest_first l).
Proof.
  induction l as [|r l IH]; [constructor|].
  by apply insert_newest_first_sorted.
Qed.

Section supabase_stats.
Variable formatBytes : nat → string.

(** X23.  The statistics of the relational store.  With the table
    there, the entry counts the rows of the user whose storage location
    is ['supabase'], whatever their data type.  Its [lastSync] is
    ['Never'] exactly when there is no such row; otherwise it is the
    update time of a row that no other row of the user was created
    after, which need not be the row updated last. *)
Theorem stats_of_supabase (cfg : StorageConfig) (s : Sys) (rows : list EncryptedRow) :
  sb_encrypted_data (sys_supabase s) = Some rows →
  ∃ lastSync,
    StorageManager.stats_of formatBytes cfg supabase s
    = (Ok (StatsSupabase
             (length (filter (λ row, row_user_id row = userId cfg
                                     ∧ row_storage_location row = "supabase") rows))
             lastSync), s)
    ∧ (lastSync = None
       ↔ filter (λ row, row_user_id row = userId cfg
                        ∧ row_storage_location row = "supabase") rows = [])
    ∧ ∀ t, lastSync = Some t →
        ∃ row, row ∈ rows ∧ row_user_id row = userId cfg
               ∧ row_storage_location row = "supabase"
               ∧ row_updated_at row = t
               ∧ ∀ other, other ∈ rows → row_user_id other = userId cfg →
                   row_storage_location other = "supabase" →
                   row_created_at other ≤ row_created_at row.
Proof.
  intros Hrows.
  set (mine := filter (λ row, row_user_id row = userId cfg
                              ∧ row_storage_location row = "supabase") rows).
  set (listed := SupabaseStorage.newest_first (SupabaseStorage.summary <$> mine)).
  assert (listed ≡ₚ SupabaseStorage.summary <$> mine) as Hperm
    by apply newest_first_perm.
  exists (SupabaseStorage.rs_updated_at <$> head listed). split; [|split].
  - simpl. unfold bind, SupabaseStorage.listUserData, try_catch, bind, gets, ret.
    rewrite Hrows. fold mine. fold listed. cbn.
    by rewrite (Permutation_length Hperm), length_fmap.
  - destruct listed as [|x l] eqn:Hlisted; cbn.
    + split; [intros _|done]. apply Permutation_nil_l in Hperm.
      symmetry in Hperm. by apply fmap_nil_inv in Hperm.
    + split; [done|]. intros Hnil. rewrite Hnil in Hperm.
      by apply Permutation_nil_r in Hperm.
  - intros t Hlast.
    destruct listed as [|x l] eqn:Hlisted; [done|]. cbn in Hlast. injection Hlast as <-.
    assert (x ∈ SupabaseStorage.summary <$> mine) as Hx by (rewrite <- Hperm; left).
    apply list_elem_of_fmap in Hx as (row & -> & Hrow).
    apply list_elem_of_filter in Hrow as [[Huser Hloc] Hrow].
    exists row. do 4 (split; [done|]).
    intros other Hother Huser' Hloc'.
    assert (SupabaseStorage.summary other ∈ SupabaseStorage.summary row :: l) as Hin.
    { rewrite Hperm. apply list_elem_of_fmap_2. by apply list_elem_of_filter. }
    pose proof (newest_first_sorted (SupabaseStorage.summary <$> mine)) as Hsorted.
    fold listed in Hsorted. rewrite Hlisted in Hsorted.
    apply StronglySorted_inv in Hsorted as [_ Hall].
    apply elem_of_cons in Hin as [Heq|Hin].
    + apply (f_equal SupabaseStorage.rs_created_at) in Heq. cbn in Heq. lia.
    + rewrite Forall_forall in Hall. apply (Hall _ Hin).
Qed.

End supabase_stats.

Section supabase_stats_runs.
#[local] Existing Instance Toy.runtime.
Import Sample.

Lemma stats_of_supabase_witness :
  sb_encrypted_data (sys_supabase (sys_with (empty_local 5000) supabase_with_row drive_ready))
  = Some [mkEncryptedRow "r1" "u1" "medicines" "old" "supabase" 1 1]
  ∧ ∃ lastSync,
      StorageManager.stats_of pretty (config [supabase]) supabase
        (sys_with (empty_local 5000) supabase_with_row drive_ready)
      = (Ok (StatsSupabase
               (length (filter (λ row, row_user_id row = userId (config [supabase])
                                       ∧ row_storage_location row = "supabase")
                          [mkEncryptedRow "r1" "u1" "medicines" "old" "supabase" 1 1]))
               lastSync),
         sys_with (empty_local 5000) supabase_with_row drive_ready)
      ∧ lastSync ≠ None.
Proof.
  split; [reflexivity|].
  destruct (stats_of_supabase pretty (config [supabase])
              (sys_with (empty_local 5000) supabase_with_row drive_ready)
              [mkEncryptedRow "r1" "u1" "medicines" "old" "supabase" 1 1] eq_refl)
    as (lastSync & Hrun & Hnever & _).
  exists lastSync. split; [exact Hrun|].
  intros Hnone. apply Hnever in Hnone. vm_compute in Hnone. discriminate.
Defined.

(** [lastSync] is not the time of the last update: the older row was
    updated at 9, the row created last was never updated. *)
Example lastSync_not_last_update :
  (StorageManager.stats_of pretty (config [supabase]) supabase
     (sys_with (empty_local 5000)
        (mkSupabase (Some "u1") true true
           (Some [mkEncryptedRow "r1" "u1" "medicines" "a" "supabase" 1 9;
                  mkEncryptedRow "r2" "u1" "medicines" "b" "supabase" 2 2]) (Some ∅))
        drive_ready)).1
  = Ok (StatsSupabase 2 (Some 2)).
Proof. vm_compute. reflexivity. Qed.

End supabase_stats_runs.

(* ------------------------------------------------------------------ *)
(** ** The authentication store and the hook *)

Lemma AuthStore_act_invariant (st : AuthStore.State) (a : AuthStore.Action) :
  (AuthStore.isAuthenticated st = true ↔ is_Some (AuthStore.user st)) →
  (AuthStore.isAuthenticated (AuthStore.act st a) = true
   ↔ is_Some (AuthStore.user (AuthStore.act st a))).
Proof.
  intros Hinv. destruct a as [u|key| |preferences|]; cbn.
  - by rewrite bool_decide_eq_true.
  - done.
  - split; [done|]. by intros [? ?].
  - unfold AuthStore.updateStoragePreferences.
    destruct (AuthStore.user st) eqn:Huser; cbn; [|by rewrite Huser].
    rewrite Hinv. split; by eexists.
  - done.
Qed.

(** X24.  The authentication store.  Whatever actions are run from the
    initial state, reloads of the page included, [isAuthenticated] is
    true exactly when there is a user.  A reload keeps the user and
    drops the encryption key, and [updateStoragePreferences] changes
    nothing of the user but the preferences: the identifier, the e-mail
    address, the name and the hash of the key stay, and so do the
    encryption key and [isAuthenticated]. *)
Theorem AuthStore_invariant (actions : list AuthStore.Action) :
  (AuthStore.isAuthenticated (foldl AuthStore.act AuthStore.initial actions) = true
   ↔ is_Some (AuthStore.user (foldl AuthStore.act AuthStore.initial actions)))
  ∧ (∀ st, AuthStore.user (AuthStore.act st AuthStore.Reload) = AuthStore.user st
           ∧ AuthStore.encryptionKey (AuthStore.act st AuthStore.Reload) = None)
  ∧ (∀ st preferences u,
       AuthStore.user st = Some u →
       ∃ u', AuthStore.user (AuthStore.updateStoragePreferences preferences st) = Some u'
             ∧ AuthStore.storagePreferences u' = preferences
             ∧ AuthStore.id u' = AuthStore.id u
             ∧ AuthStore.email u' = AuthStore.email u
             ∧ AuthStore.name u' = AuthStore.name u
             ∧ AuthStore.encryptionKeyHash u' = AuthStore.encryptionKeyHash u
             ∧ AuthStore.encryptionKey (AuthStore.updateStoragePreferences preferences st)
               = AuthStore.encryptionKey st
             ∧ AuthStore.isAuthenticated
                 (AuthStore.updateStoragePreferences preferences st)
               = AuthStore.isAuthenticated st).
Proof.
  split; [|split].
  - induction actions as [|a actions IH] using rev_ind.
    + cbn. split; [done|]. by intros [? ?].
    + rewrite foldl_app. cbn [foldl]. by apply AuthStore_act_invariant.
  - done.
  - intros st preferences u Hu. unfold AuthStore.updateStoragePreferences. rewrite Hu.
    eexists. split; [reflexivity|]. done.
Qed.

Section hook_facts.
Context `{R : Runtime}.
Import UseEncryptedStorage.

Lemma loadData_run auth dataType cfg h :
  storageManager auth = Some cfg →
  loadData auth dataType h
  = match StorageManager.retrieveData cfg dataType (h_world h) with
    | (Ok vs, w') => (Ok tt, mkHook w' vs false None)
    | (Throw e, w') => (Ok tt, mkHook w' (data h) false (Some (err_message e)))
    end.
Proof.
  intros Hcfg. unfold loadData. rewrite Hcfg.
  unfold bind at 1, setLoading at 1, modify. unfold bind at 1, setError at 1, modify.
  unfold try_catch, bind, in_world, zoom, setData, setError, setLoading, modify.
  cbn [h_world data loading error].
  destruct (StorageManager.retrieveData cfg dataType (h_world h)) as [[vs|e] w'] eqn:Hrun;
    [done|].
  by destruct (retrieveData_throws _ _ _ _ _ Hrun) as [errs ->].
Qed.

(** X25.  [loadData] of the hook never throws.  Without a user or
    without a key (the empty key included) it does nothing.  Otherwise
    it ends with [loading] false; if the manager's read returns, [data]
    is what it returned and [error] is cleared; if it throws, [data] is
    left as it was and [error] is the message thrown. *)
Theorem loadData_total (auth : AuthStore.State) (dataType : string) (h : Hook) :
  ∃ h',
    loadData auth dataType h = (Ok tt, h')
    ∧ (storageManager auth = None → h' = h)
    ∧ (∀ cfg, storageManager auth = Some cfg →
         loading h' = false
         ∧ match StorageManager.retrieveData cfg dataType (h_world h) with
           | (Ok vs, w') => h_world h' = w' ∧ data h' = vs ∧ error h' = None
           | (Throw e, w') =>
               h_world h' = w' ∧ data h' = data h ∧ error h' = Some (err_message e)
           end).
Proof.
  destruct (storageManager auth) as [cfg|] eqn:Hcfg.
  - rewrite (loadData_run auth dataType cfg h Hcfg).
    destruct (StorageManager.retrieveData cfg dataType (h_world h)) as [[vs|e] w'] eqn:Hrun.
    + eexists. split; [reflexivity|]. split; [done|].
      intros cfg' [= <-]. rewrite Hrun. done.
    + eexists. split; [reflexivity|]. split; [done|].
      intros cfg' [= <-]. rewrite Hrun. done.
  - exists h. unfold loadData. rewrite Hcfg. done.
Qed.

(** X26.  After a reload of the page the hook has no storage manager,
    signed in or not: the key is gone.  [saveData] and [syncData] throw
    "Storage not initialized" and [loadData] does nothing, until a key
    is set again. *)
Theorem hook_after_reload (auth : AuthStore.State) (dataType : string) (newData : Value)
    (h : Hook) :
  storageManager (AuthStore.act auth AuthStore.Reload) = None
  ∧ saveData (AuthStore.act auth AuthStore.Reload) dataType newData h
    = (Throw (new_Error "Storage not initialized"), h)
  ∧ syncData (AuthStore.act auth AuthStore.Reload) dataType h
    = (Throw (new_Error "Storage not initialized"), h)
  ∧ loadData (AuthStore.act auth AuthStore.Reload) dataType h = (Ok tt, h).
Proof.
  assert (storageManager (AuthStore.act auth AuthStore.Reload) = None) as Hnone.
  { unfold storageManager. cbn. by destruct (AuthStore.user auth). }
  split; [done|].
  unfold saveData, syncData, loadData. rewrite Hnone. done.
Qed.

Context {L : RuntimeLaws R}.

(** X27.  Saving through the hook, then fetching again.  The user's
    preferences start with the local store and name it once; the local
    store satisfies the invariant of the index and stores the value
    without evicting anything.  Then [saveData] returns and appends the
    value to [data]; a fetch afterwards returns, and sets [data] to what
    the local store held before followed by the value, unless the value
    is [null].  So for a value that is not [null] the list the hook
    shows after a save is the list a fresh fetch shows, provided [data]
    was what the local store held. *)
Theorem saveData_then_refetch (auth : AuthStore.State) (cfg : StorageConfig)
    (rest : list StorageOption) (newData : Value) (dataType : string) (h : Hook)
    (before : list Value) (id : string) (s1 : Sys) :
  storageManager auth = Some cfg →
  enabledStorages cfg = local :: rest →
  local ∉ rest →
  local_inv (sys_uuid (w_sys (h_world h))) (sys_local (w_sys (h_world h))) →
  serializable newData →
  (LocalStorage.retrieveEncryptedData (userId cfg) dataType (encryptionKey cfg)
     (w_sys (h_world h))).1 = Ok before →
  LocalStorage.storeEncryptedData (userId cfg) newData dataType (encryptionKey cfg)
    (w_sys (h_world h)) = (Ok id, s1) →
  length (index_of (userId cfg) (sys_local s1))
  = S (length (index_of (userId cfg) (sys_local (w_sys (h_world h))))) →
  ∃ h1 h2,
    saveData auth dataType newData h = (Ok tt, h1)
    ∧ data h1 = data h ++ [newData]
    ∧ loadData auth dataType h1 = (Ok tt, h2)
    ∧ data h2 = before ++ (if is_null newData then [] else [newData])
    ∧ error h2 = None.
Proof.
  intros Hauth Hcfg Hrest Hinv Hser Hbefore Hstore Hlen.
  destruct (storeData_local_first _ _ _ _ _ _ _ Hcfg Hrest Hstore)
    as (results & w1 & Hrun & Hid & Hlocal).
  destruct (storeEncryptedData_no_eviction _ _ _ _ _ _ _ Hinv Hstore Hlen)
    as (text & item & t & Htext & Hitem & -> & _ & Hrecords & Hindex & _ & _ & _
        & Hnew & Hfresh).
  pose proof (LocalStorage_retrieve_after_insert _ _ _ _ (w_sys (h_world h)) s1 before
                text item t Hser Htext Hitem Hrecords Hindex Hfresh Hbefore) as Hafter.
  pose proof (LocalStorage_retrieve_local_only (userId cfg) dataType (encryptionKey cfg)
                (w_sys w1) s1 Hlocal) as Hsame.
  rewrite Hafter in Hsame. cbn [fst] in Hsame.
  destruct (LocalStorage.retrieveEncryptedData _ _ _ (w_sys w1)) as [r s2] eqn:Hread.
  cbn [fst] in Hsame. subst r.
  pose proof (retrieveData_local_first _ _ _ _ _ _ Hcfg Hread) as Hretrieve.
  eexists (mkHook w1 (data h ++ [newData]) (loading h) (error h)), _.
  split.
  { unfold saveData. rewrite Hauth.
    unfold try_catch, bind, in_world, zoom, setData, modify. rewrite Hrun. done. }
  split; [done|]. split.
  { rewrite (loadData_run auth dataType cfg _ Hauth). cbn [h_world].
    rewrite Hretrieve. reflexivity. }
  done.
Qed.

End hook_facts.

Section hook_runs.
#[local] Existing Instance Toy.runtime.
Import UseEncryptedStorage Sample.

Lemma saveData_then_refetch_witness :
  storageManager
    (AuthStore.mkState (Some (AuthStore.mkAuthUser "u1" "a@b.c" None [local; supabase] "h"))
       (Some "secret") true)
  = Some (config [local; supabase])
  ∧ serializable (H := Toy.runtime) paracetamol
  ∧ ∃ h1 h2,
      saveData
        (AuthStore.mkState
           (Some (AuthStore.mkAuthUser "u1" "a@b.c" None [local; supabase] "h"))
           (Some "secret") true)
        "medicines" paracetamol
        (mkHook (world_with (empty_local 5000) supabase_ready drive_ready) [] false None)
      = (Ok tt, h1)
      ∧ data h1 = [] ++ [paracetamol]
      ∧ loadData
          (AuthStore.mkState
             (Some (AuthStore.mkAuthUser "u1" "a@b.c" None [local; supabase] "h"))
             (Some "secret") true)
          "medicines" h1 = (Ok tt, h2)
      ∧ data h2 = [] ++ (if is_null paracetamol then [] else [paracetamol])
      ∧ error h2 = None.
Proof.
  assert (serializable (H := Toy.runtime) paracetamol) as Hser
    by (eexists; split; vm_compute; reflexivity).
  assert (local ∉ [supabase]) as Hrest.
  { intros Hin. apply elem_of_cons in Hin as [?|Hin]; [done|].
    by apply elem_of_nil in Hin. }
  split; [reflexivity|]. split; [exact Hser|].
  apply (saveData_then_refetch (R := Toy.runtime) (L := Toy_laws)
           (AuthStore.mkState
              (Some (AuthStore.mkAuthUser "u1" "a@b.c" None [local; supabase] "h"))
              (Some "secret") true)
           (config [local; supabase]) [supabase] paracetamol "medicines"
           (mkHook (R := Toy.runtime)
              (world_with (empty_local 5000) supabase_ready drive_ready) [] false None)
           [] (uuid_of 0)
           (LocalStorage.storeEncryptedData (R := Toy.runtime) "u1" paracetamol
              "medicines" "secret"
              (sys_with (empty_local 5000) supabase_ready drive_ready)).2).
  - reflexivity.
  - reflexivity.
  - exact Hrest.
  - apply local_inv_empty.
  - exact Hser.
  - vm_compute; reflexivity.
  - vm_compute; reflexivity.
  - vm_compute; reflexivity.
Defined.

(** Where the list the hook shows and the stores part: the local store
    is full, the relational store takes the value.  [saveData] returns
    and the hook shows the value; a fetch reads the local store, which
    does not have it. *)
Example saveData_shown_but_not_fetched :
  ∃ h1 h2,
    saveData
      (AuthStore.mkState
         (Some (AuthStore.mkAuthUser "u1" "a@b.c" None [local; supabase] "h"))
         (Some "secret") true)
      "medicines" paracetamol
      (mkHook (world_with (empty_local 0) supabase_ready drive_ready) [] false None)
    = (Ok tt, h1)
    ∧ data h1 = [paracetamol]
    ∧ loadData
        (AuthStore.mkState
           (Some (AuthStore.mkAuthUser "u1" "a@b.c" None [local; supabase] "h"))
           (Some "secret") true)
        "medicines" h1 = (Ok tt, h2)
    ∧ data h2 = [].
Proof.
  do 2 eexists. split; [vm_compute; reflexivity|].
  split; [reflexivity|]. split; [vm_compute; reflexivity|]. reflexivity.
Qed.

End hook_runs.
